(** * recap/types.py: the Recap type model, alias registry, proxies and
      the dictionary parser, embedded over an explicit Python object store.

    The program mutates shared Python objects (the class-level
    [type_registry], instance attributes, the keyword dictionaries that
    become [extra_attrs]), so the embedding threads a store of objects
    addressed by references together with the registry, and every
    operation is a function from a state to an outcome that carries the
    state reached, also when an exception propagates. *)

From stdpp Require Import gmap strings list fin_maps.
From Stdlib Require Import ZArith Lia.

Local Open Scope string_scope.
Local Open Scope Z_scope.
Local Open Scope nat_scope.
Local Open Scope list_scope.

(** ** Values and objects *)

(** References are positions in the store. *)
Abbreviation loc := nat (only parsing).

(** Python values of the model: the immutable atoms are carried inline, the
    mutable objects (dict, list, class instance) live in the store and are
    denoted by a reference, so two holders of the same reference see each
    other's writes. *)
Inductive value :=
| VNone
| VBool (b : bool)
| VInt (z : Z)
| VStr (s : string)
| VRef (l : loc).

(** The classes of the module. *)
Inductive cls :=
| RecapType | NullType | BoolType | IntType | FloatType | StringType
| BytesType | ListType | MapType | StructType | EnumType | UnionType
| ProxyType.

(** A Python [dict] with string keys, in insertion order, keys unique. *)
Definition pydict := list (string * value).

Inductive obj :=
| ODict (items : pydict)
| OList (elems : list value)
| OInst (c : cls) (attrs : pydict).

(** Keys of the registry dictionary as Python hashes and compares them:
    [True] and [1] are the same key. *)
Inductive hkey :=
| KNone
| KNum (z : Z)
| KStr (s : string).

Inductive exn :=
| ValueError (msg : string)
| TypeError (msg : string)
| AttributeError (name : string).

Global Instance value_eq_dec : EqDecision value.
Proof. solve_decision. Defined.
Global Instance cls_eq_dec : EqDecision cls.
Proof. solve_decision. Defined.
Global Instance hkey_eq_dec : EqDecision hkey.
Proof. solve_decision. Defined.
Global Instance exn_eq_dec : EqDecision exn.
Proof. solve_decision. Defined.

Definition hkey_enc (k : hkey) : unit + (Z + string) :=
  match k with
  | KNone => inl tt
  | KNum z => inr (inl z)
  | KStr s => inr (inr s)
  end.

Definition hkey_dec (x : unit + (Z + string)) : hkey :=
  match x with
  | inl _ => KNone
  | inr (inl z) => KNum z
  | inr (inr s) => KStr s
  end.

Global Instance hkey_countable : Countable hkey.
Proof.
  refine (inj_countable' hkey_enc hkey_dec _).
  intros []; reflexivity.
Defined.

(** ** State and outcomes *)

Record state := State {
  heap : list obj;
  type_registry : gmap hkey loc
}.

(** The outcome of running a piece of the program.  [OutOfFuel] is the
    model's recursion budget running out; [Unmodelled] marks behaviour the
    embedding does not define: a dangling reference, or an attribute name
    reserved by the interpreter (a name starting with two underscores). *)
Inductive res (E A : Type) :=
| Ok (a : A)
| Raise (e : E)
| OutOfFuel
| Unmodelled.
Arguments Ok {E A} a.
Arguments Raise {E A} e.
Arguments OutOfFuel {E A}.
Arguments Unmodelled {E A}.

(** Pure computations that may raise. *)
Definition pure_res (A : Type) := res exn A.

(** Stateful computations: the state reached is part of both the normal
    and the exceptional outcome. *)
Definition M (A : Type) := state -> res (exn * state) (A * state).

Definition ret {A} (a : A) : M A := fun st => Ok (a, st).
Definition raise {A} (e : exn) : M A := fun st => Raise (e, st).
Definition unmodelled {A} : M A := fun _ => Unmodelled.
Definition out_of_fuel {A} : M A := fun _ => OutOfFuel.

Definition bind {A B} (m : M A) (k : A -> M B) : M B :=
  fun st =>
    match m st with
    | Ok (a, st') => k a st'
    | Raise e => Raise e
    | OutOfFuel => OutOfFuel
    | Unmodelled => Unmodelled
    end.

Definition lift {A} (r : pure_res A) : M A :=
  fun st =>
    match r with
    | Ok a => Ok (a, st)
    | Raise e => Raise (e, st)
    | OutOfFuel => OutOfFuel
    | Unmodelled => Unmodelled
    end.

Definition get_state : M state := fun st => Ok (st, st).
Definition modify (f : state -> state) : M unit := fun st => Ok (tt, f st).

Declare Scope py_scope.
Delimit Scope py_scope with py.
Notation "x <~ m ; k" := (bind m (fun x => k))
  (at level 20, m at level 100, k at level 200, only parsing) : py_scope.
Notation "' p <~ m ; k" := (bind m (fun x => match x with p => k end))
  (at level 20, p pattern, m at level 100, k at level 200, only parsing)
  : py_scope.
Local Open Scope py_scope.

Definition pbind {A B} (r : pure_res A) (k : A -> pure_res B) : pure_res B :=
  match r with
  | Ok a => k a
  | Raise e => Raise e
  | OutOfFuel => OutOfFuel
  | Unmodelled => Unmodelled
  end.

(** ** Dictionaries *)

Fixpoint dict_get (k : string) (d : pydict) : option value :=
  match d with
  | [] => None
  | (k', v) :: d' => if String.eqb k k' then Some v else dict_get k d'
  end.

Definition dict_has (k : string) (d : pydict) : bool :=
  match dict_get k d with Some _ => true | None => false end.

(** [d[k] = v]: an existing key keeps its place, a new key goes last. *)
Fixpoint dict_set (k : string) (v : value) (d : pydict) : pydict :=
  match d with
  | [] => [(k, v)]
  | (k', v') :: d' =>
      if String.eqb k k' then (k, v) :: d' else (k', v') :: dict_set k v d'
  end.

Fixpoint dict_del (k : string) (d : pydict) : pydict :=
  match d with
  | [] => []
  | (k', v') :: d' =>
      if String.eqb k k' then dict_del k d' else (k', v') :: dict_del k d'
  end.

(** [d.pop(k, None)] *)
Definition dict_pop (k : string) (d : pydict) : value * pydict :=
  match dict_get k d with
  | Some v => (v, dict_del k d)
  | None => (VNone, d)
  end.

(** ** The store *)

Definition alloc (o : obj) : M loc :=
  fun st => Ok (length (heap st),
                State (heap st ++ [o]) (type_registry st)).

Definition set_obj (l : loc) (o : obj) (st : state) : state :=
  State (<[l := o]> (heap st)) (type_registry st).

Definition set_registry (k : hkey) (l : loc) (st : state) : state :=
  State (heap st) (<[k := l]> (type_registry st)).

(** [self.name = v] on an instance. *)
Definition set_attr (l : loc) (name : string) (v : value) (st : state) : state :=
  match heap st !! l with
  | Some (OInst c attrs) => set_obj l (OInst c (dict_set name v attrs)) st
  | _ => st
  end.

(** Reading one of the instance attributes the source names ([self.bits],
    [self.extra_attrs], ...): a missing one is an [AttributeError]. *)
Definition read_attr (h : list obj) (l : loc) (name : string) : pure_res value :=
  match h !! l with
  | Some (OInst c attrs) =>
      match dict_get name attrs with
      | Some v => Ok v
      | None => Raise (AttributeError name)
      end
  | _ => Unmodelled
  end.

Definition get_attr (l : loc) (name : string) : M value :=
  fun st => lift (read_attr (heap st) l name) st.

Definition class_of (h : list obj) (l : loc) : option cls :=
  match h !! l with
  | Some (OInst c _) => Some c
  | _ => None
  end.

(** ** Hashing a value as a dictionary key *)

Definition hash_key (h : list obj) (v : value) : pure_res hkey :=
  match v with
  | VNone => Ok KNone
  | VBool b => Ok (KNum (if b then 1%Z else 0%Z))
  | VInt z => Ok (KNum z)
  | VStr s => Ok (KStr s)
  | VRef l =>
      match h !! l with
      | Some _ => Raise (TypeError "unhashable type")
      | None => Unmodelled
      end
  end.

(** Truth value of a Python value ([if alias:]). *)
Definition truthy (h : list obj) (v : value) : pure_res bool :=
  match v with
  | VNone => Ok false
  | VBool b => Ok b
  | VInt z => Ok (negb (Z.eqb z 0))
  | VStr s => Ok (negb (String.eqb s ""))
  | VRef l =>
      match h !! l with
      | Some (ODict items) => Ok (negb (Nat.eqb (length items) 0))
      | Some (OList elems) => Ok (negb (Nat.eqb (length elems) 0))
      | Some (OInst _ _) => Ok true
      | None => Unmodelled
      end
  end.

(** ** Binding the arguments of a call

    A signature lists the parameters after [self] with their defaults
    ([None] for a required parameter); every [__init__] of the module also
    has a [**extra_attrs] parameter that collects the remaining keywords. *)

Definition signature := list (string * option value).

Fixpoint bind_keywords (bound : list string) (open : list string) (kw : pydict)
  : pure_res (pydict * pydict) :=
  match kw with
  | [] => Ok ([], [])
  | (k, v) :: kw' =>
      if bool_decide (k = "self") || bool_decide (k ∈ bound) then
        Raise (TypeError "got multiple values for argument")
      else
        pbind (bind_keywords bound open kw') (fun '(named, extra) =>
          if bool_decide (k ∈ open) then Ok ((k, v) :: named, extra)
          else Ok (named, (k, v) :: extra))
  end.

Fixpoint fill_defaults (ps : signature) (named : pydict) : pure_res pydict :=
  match ps with
  | [] => Ok []
  | (p, dflt) :: ps' =>
      pbind (fill_defaults ps' named) (fun rest =>
        match dict_get p named, dflt with
        | Some v, _ => Ok ((p, v) :: rest)
        | None, Some v => Ok ((p, v) :: rest)
        | None, None => Raise (TypeError "missing required argument")
        end)
  end.

(** The result is the value of every parameter and the dictionary bound
    to [**extra_attrs]. *)
Definition bind_args (ps : signature) (pos : list value) (kw : pydict)
  : pure_res (pydict * pydict) :=
  if bool_decide (length ps < length pos) then
    Raise (TypeError "too many positional arguments")
  else
    let by_pos := zip (take (length pos) (map fst ps)) pos in
    let open := drop (length pos) ps in
    pbind (bind_keywords (map fst by_pos) (map fst open) kw)
      (fun '(named, extra) =>
         pbind (fill_defaults open named) (fun rest =>
           Ok (by_pos ++ rest, extra))).

Definition arg (name : string) (named : pydict) : value :=
  match dict_get name named with Some v => v | None => VNone end.

(** ** Constructors *)

Definition RecapType_sig : signature :=
  [("type_", None); ("logical", Some VNone); ("alias", Some VNone);
   ("doc", Some VNone)].

(** [RecapType.__init__]: the keywords left over become the [extra_attrs]
    dictionary; a non-[None] alias is checked against the registry and
    then bound to [self]. *)
Definition RecapType_init (self : loc) (pos : list value) (kw : pydict) : M unit :=
  '(named, extra) <~ lift (bind_args RecapType_sig pos kw);
  e <~ alloc (ODict extra);
  _ <~ modify (set_attr self "type_" (arg "type_" named));
  _ <~ modify (set_attr self "logical" (arg "logical" named));
  _ <~ modify (set_attr self "alias" (arg "alias" named));
  _ <~ modify (set_attr self "doc" (arg "doc" named));
  _ <~ modify (set_attr self "extra_attrs" (VRef e));
  match arg "alias" named with
  | VNone => ret tt
  | alias =>
      st <~ get_state;
      k <~ lift (hash_key (heap st) alias);
      match type_registry st !! k with
      | Some _ => raise (ValueError "Alias is already used.")
      | None => modify (set_registry k self)
      end
  end.

(** The parameters of each subclass's [__init__] after [self] and before
    [**extra_attrs]. *)
Definition init_sig (c : cls) : signature :=
  match c with
  | RecapType => RecapType_sig
  | NullType | BoolType => []
  | IntType => [("bits", None); ("signed", Some (VBool true))]
  | FloatType => [("bits", None)]
  | StringType | BytesType => [("bytes_", None); ("variable", Some (VBool true))]
  | ListType =>
      [("values", None); ("length", Some VNone); ("variable", Some (VBool true))]
  | MapType => [("keys", None); ("values", None)]
  | StructType => [("fields", Some VNone)]
  | EnumType => [("symbols", None)]
  | UnionType => [("types", None)]
  | ProxyType => [("alias", None)]
  end.

(** The tag each subclass passes to [super().__init__]. *)
Definition type_tag (c : cls) : string :=
  match c with
  | RecapType => ""
  | NullType => "null"
  | BoolType => "bool"
  | IntType => "int"
  | FloatType => "float"
  | StringType => "string"
  | BytesType => "bytes"
  | ListType => "list"
  | MapType => "map"
  | StructType => "struct"
  | EnumType => "enum"
  | UnionType => "union"
  | ProxyType => "proxy"
  end.

(** The attributes a subclass assigns after [super().__init__] returns,
    which are also the ones its [__eq__] compares. *)
Definition own_fields (c : cls) : list string :=
  match c with
  | RecapType | NullType | BoolType => []
  | IntType => ["bits"; "signed"]
  | FloatType => ["bits"]
  | StringType | BytesType => ["bytes_"; "variable"]
  | ListType => ["values"; "length"; "variable"]
  | MapType => ["keys"; "values"]
  | StructType => ["fields"]
  | EnumType => ["symbols"]
  | UnionType => ["types"]
  | ProxyType => ["alias"]
  end.

Fixpoint assign_fields (self : loc) (names : list string) (named : pydict)
  (st : state) : state :=
  match names with
  | [] => st
  | n :: names' =>
      assign_fields self names' named (set_attr self n (arg n named) st)
  end.

(** [C.__init__] for each class [C], called with positional arguments
    [pos] and keywords [kw]. *)
Definition init (c : cls) (self : loc) (pos : list value) (kw : pydict) : M unit :=
  match c with
  | RecapType => RecapType_init self pos kw
  | StructType =>
      '(named, extra) <~ lift (bind_args (init_sig StructType) pos kw);
      _ <~ RecapType_init self [VStr "struct"] extra;
      match arg "fields" named with
      | VNone =>
          l <~ alloc (OList []);
          modify (set_attr self "fields" (VRef l))
      | fields => modify (set_attr self "fields" fields)
      end
  | ProxyType =>
      '(named, extra) <~ lift (bind_args (init_sig ProxyType) pos kw);
      _ <~ RecapType_init self [VStr "proxy"] extra;
      _ <~ modify (set_attr self "alias" (arg "alias" named));
      modify (set_attr self "_resolved" VNone)
  | _ =>
      '(named, extra) <~ lift (bind_args (init_sig c) pos kw);
      _ <~ RecapType_init self [VStr (type_tag c)] extra;
      modify (assign_fields self (own_fields c) named)
  end.

(** Calling the class [C]: a fresh instance, then [__init__]. *)
Definition new (c : cls) (pos : list value) (kw : pydict) : M value :=
  self <~ alloc (OInst c []);
  _ <~ init c self pos kw;
  ret (VRef self).

(** ** The built-in aliases *)

Definition builtin_aliases : list (string * (cls * list value * pydict)) :=
  [ ("int8", (IntType, [VInt 8], [("signed", VBool true)]));
    ("uint8", (IntType, [VInt 8], [("signed", VBool false)]));
    ("int16", (IntType, [VInt 16], [("signed", VBool true)]));
    ("uint16", (IntType, [VInt 16], [("signed", VBool false)]));
    ("int32", (IntType, [VInt 32], [("signed", VBool true)]));
    ("uint32", (IntType, [VInt 32], [("signed", VBool false)]));
    ("int64", (IntType, [VInt 64], [("signed", VBool true)]));
    ("uint64", (IntType, [VInt 64], [("signed", VBool false)]));
    ("float16", (FloatType, [VInt 16], []));
    ("float32", (FloatType, [VInt 32], []));
    ("float64", (FloatType, [VInt 64], []));
    ("string32", (StringType, [],
       [("bytes_", VInt 2147483648); ("variable", VBool true)]));
    ("string64", (StringType, [],
       [("bytes_", VInt 9223372036854775807); ("variable", VBool true)]));
    ("bytes32", (BytesType, [],
       [("bytes_", VInt 2147483648); ("variable", VBool true)]));
    ("bytes64", (BytesType, [],
       [("bytes_", VInt 9223372036854775807); ("variable", VBool true)]));
    ("uuid", (StringType, [],
       [("logical", VStr "build.recap.UUID"); ("bytes_", VInt 36);
        ("variable", VBool false)]));
    ("decimal128", (BytesType, [],
       [("logical", VStr "build.recap.Decimal"); ("bytes_", VInt 16);
        ("variable", VBool false); ("precision", VInt 28); ("scale", VInt 14)]));
    ("decimal256", (BytesType, [],
       [("logical", VStr "build.recap.Decimal"); ("bytes_", VInt 32);
        ("variable", VBool false); ("precision", VInt 56); ("scale", VInt 28)]));
    ("duration64", (IntType, [],
       [("logical", VStr "build.recap.Duration"); ("bits", VInt 64);
        ("signed", VBool true); ("unit", VStr "millisecond")]));
    ("interval128", (BytesType, [],
       [("logical", VStr "build.recap.Interval"); ("bytes_", VInt 16);
        ("variable", VBool false); ("unit", VStr "millisecond")]));
    ("time32", (IntType, [],
       [("logical", VStr "build.recap.Time"); ("bits", VInt 32);
        ("signed", VBool true); ("unit", VStr "second")]));
    ("time64", (IntType, [],
       [("logical", VStr "build.recap.Time"); ("bits", VInt 64);
        ("signed", VBool true); ("unit", VStr "second")]));
    ("timestamp64", (IntType, [],
       [("logical", VStr "build.recap.Timestamp"); ("bits", VInt 64);
        ("signed", VBool true); ("unit", VStr "millisecond");
        ("timezone", VStr "UTC")]));
    ("date32", (IntType, [],
       [("logical", VStr "build.recap.Date"); ("bits", VInt 32);
        ("signed", VBool true); ("unit", VStr "day")]));
    ("date64", (IntType, [],
       [("logical", VStr "build.recap.Date"); ("bits", VInt 64);
        ("signed", VBool true); ("unit", VStr "day")]))
  ].

(** The dictionary display is evaluated entry by entry, then
    [type_registry.update] binds every name. *)
Fixpoint build_aliases (defs : list (string * (cls * list value * pydict)))
  : M (list (string * loc)) :=
  match defs with
  | [] => ret []
  | (name, (c, pos, kw)) :: defs' =>
      v <~ new c pos kw;
      rest <~ build_aliases defs';
      match v with
      | VRef l => ret ((name, l) :: rest)
      | _ => unmodelled
      end
  end.

Definition registry_update (entries : list (string * loc)) (st : state) : state :=
  fold_left (fun s '(name, l) => set_registry (KStr name) l s) entries st.

Definition load_builtins : M unit :=
  entries <~ build_aliases builtin_aliases;
  modify (registry_update entries).

(** The state of the module once it has been imported. *)
Definition initial_state : state :=
  match load_builtins (State [] ∅) with
  | Ok (_, st) => st
  | _ => State [] ∅
  end.

(** ** [copy.deepcopy]

    The library function as the program uses it: atoms are returned as they
    are; a list, a dict or an instance not yet in the memo gets a fresh
    object, which is recorded in the memo before its parts are copied, so a
    shared or cyclic part is copied once.  The budget bounds the nesting
    depth. *)

Definition copier := gmap loc loc -> list obj -> value ->
                     pure_res (value * gmap loc loc * list obj).

Fixpoint copy_values (cp : copier) (memo : gmap loc loc) (h : list obj)
  (xs : list value) : pure_res (list value * gmap loc loc * list obj) :=
  match xs with
  | [] => Ok ([], memo, h)
  | x :: xs' =>
      pbind (cp memo h x) (fun '(y, memo1, h1) =>
        pbind (copy_values cp memo1 h1 xs') (fun '(ys, memo2, h2) =>
          Ok (y :: ys, memo2, h2)))
  end.

Fixpoint copy_items (cp : copier) (memo : gmap loc loc) (h : list obj)
  (kvs : pydict) : pure_res (pydict * gmap loc loc * list obj) :=
  match kvs with
  | [] => Ok ([], memo, h)
  | (k, x) :: kvs' =>
      pbind (cp memo h x) (fun '(y, memo1, h1) =>
        pbind (copy_items cp memo1 h1 kvs') (fun '(ys, memo2, h2) =>
          Ok ((k, y) :: ys, memo2, h2)))
  end.

Fixpoint deepcopy (fuel : nat) (memo : gmap loc loc) (h : list obj) (v : value)
  : pure_res (value * gmap loc loc * list obj) :=
  match v with
  | VRef l =>
      match memo !! l with
      | Some l' => Ok (VRef l', memo, h)
      | None =>
          match fuel with
          | O => OutOfFuel
          | S f =>
              let l' := length h in
              let memo' := <[l := l']> memo in
              match h !! l with
              | None => Unmodelled
              | Some (OList xs) =>
                  pbind (copy_values (deepcopy f) memo' (h ++ [OList []]) xs)
                    (fun '(ys, memo1, h1) =>
                       Ok (VRef l', memo1, <[l' := OList ys]> h1))
              | Some (ODict kvs) =>
                  pbind (copy_items (deepcopy f) memo' (h ++ [ODict []]) kvs)
                    (fun '(kvs', memo1, h1) =>
                       Ok (VRef l', memo1, <[l' := ODict kvs']> h1))
              | Some (OInst c attrs) =>
                  pbind (copy_items (deepcopy f) memo' (h ++ [OInst c []]) attrs)
                    (fun '(attrs', memo1, h1) =>
                       Ok (VRef l', memo1, <[l' := OInst c attrs']> h1))
              end
          end
      end
  | _ => Ok (v, memo, h)
  end.

(** [copy.deepcopy(v)] as a step of the program. *)
Definition deepcopy_step (fuel : nat) (v : value) : M value :=
  fun st =>
    match deepcopy fuel ∅ (heap st) v with
    | Ok (v', _, h') => Ok (v', State h' (type_registry st))
    | Raise e => Raise (e, st)
    | OutOfFuel => OutOfFuel
    | Unmodelled => Unmodelled
    end.

(** ** Proxy resolution *)

(** [RecapType.from_alias] *)
Definition from_alias (alias : value) : M value :=
  st <~ get_state;
  k <~ lift (hash_key (heap st) alias);
  match type_registry st !! k with
  | Some l => ret (VRef l)
  | None => raise (TypeError "No RecapType with alias found.")
  end.

(** Names defined in the class bodies of the module that are not
    interpreter-reserved: every instance answers [hasattr] for them. *)
Definition class_attrs (c : cls) : list string :=
  match c with
  | ProxyType => ["type_registry"; "from_alias"; "resolve"]
  | _ => ["type_registry"; "from_alias"]
  end.

(** Attribute names beginning with two underscores belong to the
    interpreter ([__class__], [__dict__], [__doc__], ...): there
    [hasattr] answers by the interpreter's own rules and [setattr] may
    replace the attribute dictionary or the class of the object.  What
    they do with such names is outside the model, which answers
    [Unmodelled]; a statement about overrides says so when it leaves
    these names out. *)
Definition reserved (name : string) : bool := String.prefix "__" name.

Definition hasattr (h : list obj) (v : value) (name : string) : pure_res bool :=
  if reserved name then Unmodelled
  else
    match v with
    | VRef l =>
        match h !! l with
        | Some (OInst c attrs) =>
            Ok (dict_has name attrs || bool_decide (name ∈ class_attrs c))
        | _ => Unmodelled
        end
    | _ => Unmodelled
    end.

(** [setattr(v, name, x)] on an instance. *)
Definition setattr (v : value) (name : string) (x : value) : M unit :=
  match v with
  | VRef l =>
      st <~ get_state;
      match heap st !! l with
      | Some (OInst _ _) => modify (set_attr l name x)
      | _ => unmodelled
      end
  | _ => unmodelled
  end.

(** [target[k] = x] *)
Definition setitem (target : value) (k : string) (x : value) : M unit :=
  match target with
  | VRef l =>
      st <~ get_state;
      match heap st !! l with
      | Some (ODict items) => modify (set_obj l (ODict (dict_set k x items)))
      | Some (OList _) => raise (TypeError "list indices must be integers")
      | Some (OInst _ _) =>
          raise (TypeError "object does not support item assignment")
      | None => unmodelled
      end
  | _ => raise (TypeError "object does not support item assignment")
  end.

(** [v.items()] *)
Definition items_of (v : value) : M pydict :=
  match v with
  | VRef l =>
      st <~ get_state;
      match heap st !! l with
      | Some (ODict items) => ret items
      | Some (OList _) => raise (AttributeError "items")
      | Some (OInst _ attrs) =>
          if dict_has "items" attrs then raise (TypeError "object is not callable")
          else raise (AttributeError "items")
      | None => unmodelled
      end
  | _ => raise (AttributeError "items")
  end.

Definition attr_of (v : value) (name : string) : M value :=
  match v with
  | VRef l => get_attr l name
  | _ => unmodelled
  end.

(** One turn of the loop over [self.extra_attrs.items()]. *)
Definition apply_override (self : loc) (attr : string) (x : value) : M unit :=
  r <~ get_attr self "_resolved";
  st <~ get_state;
  b <~ lift (hasattr (heap st) r attr);
  if b then
    r' <~ get_attr self "_resolved";
    setattr r' attr x
  else
    r' <~ get_attr self "_resolved";
    ea <~ attr_of r' "extra_attrs";
    setitem ea attr x.

Fixpoint apply_overrides (self : loc) (items : pydict) : M unit :=
  match items with
  | [] => ret tt
  | (attr, x) :: items' =>
      _ <~ apply_override self attr x;
      apply_overrides self items'
  end.

(** [ProxyType.resolve] *)
Definition resolve (fuel : nat) (self : loc) : M value :=
  cached <~ get_attr self "_resolved";
  match cached with
  | VNone =>
      alias <~ get_attr self "alias";
      target <~ from_alias alias;
      copy <~ deepcopy_step fuel target;
      _ <~ modify (set_attr self "_resolved" copy);
      ea <~ get_attr self "extra_attrs";
      items <~ items_of ea;
      _ <~ apply_overrides self items;
      get_attr self "_resolved"
  | _ => get_attr self "_resolved"
  end.

(** ** Equality: [==] on values and the [__eq__] methods *)

Definition num_of (v : value) : option Z :=
  match v with
  | VBool b => Some (if b then 1%Z else 0%Z)
  | VInt z => Some z
  | _ => None
  end.

(** [==] between two values neither of which is a reference. *)
Definition atom_eq (a b : value) : bool :=
  match a, b with
  | VNone, VNone => true
  | VStr s, VStr t => String.eqb s t
  | _, _ =>
      match num_of a, num_of b with
      | Some x, Some y => Z.eqb x y
      | _, _ => false
      end
  end.

(** Element-wise comparison of two sequences, stopping at the first pair
    that differs. *)
Fixpoint seq_eq (cmp : value -> value -> pure_res bool) (xs ys : list value)
  : pure_res bool :=
  match xs, ys with
  | [], [] => Ok true
  | x :: xs', y :: ys' =>
      pbind (cmp x y) (fun b => if b then seq_eq cmp xs' ys' else Ok false)
  | _, _ => Ok false
  end.

(** [dict.__eq__] once the sizes agree: every key of the left operand is
    looked up in the right one. *)
Fixpoint dict_eq (cmp : value -> value -> pure_res bool) (d1 d2 : pydict)
  : pure_res bool :=
  match d1 with
  | [] => Ok true
  | (k, v) :: d1' =>
      match dict_get k d2 with
      | None => Ok false
      | Some w =>
          pbind (cmp v w) (fun b => if b then dict_eq cmp d1' d2 else Ok false)
      end
  end.

Fixpoint read_attrs (h : list obj) (l : loc) (names : list string)
  : pure_res (list value) :=
  match names with
  | [] => Ok []
  | n :: names' =>
      pbind (read_attr h l n) (fun v =>
        pbind (read_attrs h l names') (fun vs => Ok (v :: vs)))
  end.

(** The attributes [RecapType.__eq__] puts in its two tuples. *)
Definition base_fields : list string :=
  ["type_"; "logical"; "alias"; "doc"; "extra_attrs"].

(** Whether the subclass compares its own attributes as tuples (whose
    items are first compared by identity) or with a plain [==]. *)
Definition own_tuple (c : cls) : bool :=
  match c with
  | IntType | StringType | BytesType | ListType | MapType => true
  | _ => false
  end.

(** Comparison of two items of a container: identity first, then [==]. *)
Definition item_eq (cmp : value -> value -> pure_res bool) (a b : value)
  : pure_res bool :=
  if bool_decide (a = b) then Ok true else cmp a b.

(** [self == other] for two instances of classes [c1] and [c2]: the
    [__eq__] of the class, which starts with [RecapType.__eq__]. *)
Definition inst_eq (cmp : value -> value -> pure_res bool) (h : list obj)
  (c1 c2 : cls) (l1 l2 : loc) : pure_res bool :=
  if bool_decide (c1 = c2) then
    pbind (read_attrs h l1 base_fields) (fun xs =>
    pbind (read_attrs h l2 base_fields) (fun ys =>
    pbind (seq_eq (item_eq cmp) xs ys) (fun b =>
      if b then
        match own_fields c1 with
        | [] => Ok true
        | names =>
            pbind (read_attrs h l1 names) (fun xs' =>
            pbind (read_attrs h l2 names) (fun ys' =>
              if own_tuple c1 then seq_eq (item_eq cmp) xs' ys'
              else seq_eq cmp xs' ys'))
        end
      else Ok false)))
  else Ok false.

(** [a == b] *)
Fixpoint py_eq (fuel : nat) (h : list obj) (a b : value) : pure_res bool :=
  match fuel with
  | O => OutOfFuel
  | S f =>
      match a, b with
      | VRef la, VRef lb =>
          match h !! la, h !! lb with
          | Some (OList xs), Some (OList ys) =>
              if bool_decide (length xs = length ys)
              then seq_eq (item_eq (py_eq f h)) xs ys
              else Ok false
          | Some (ODict d1), Some (ODict d2) =>
              if bool_decide (length d1 = length d2)
              then dict_eq (item_eq (py_eq f h)) d1 d2
              else Ok false
          | Some (OInst c1 _), Some (OInst c2 _) =>
              inst_eq (py_eq f h) h c1 c2 la lb
          | Some _, Some _ => Ok false
          | _, _ => Unmodelled
          end
      | VRef l, _ | _, VRef l =>
          match h !! l with
          | Some _ => Ok false
          | None => Unmodelled
          end
      | _, _ => Ok (atom_eq a b)
      end
  end.

(** ** The dictionary parser *)

(** What [type_dict.copy()] followed by the two [pop]s does to the
    argument before any key is looked at. *)
Definition dict_copy (v : value) : M pydict :=
  match v with
  | VRef l =>
      st <~ get_state;
      match heap st !! l with
      | Some (ODict items) => ret items
      | Some (OList _) => raise (TypeError "pop expected at most 1 argument")
      | Some (OInst _ attrs) =>
          if dict_has "copy" attrs then raise (TypeError "object is not callable")
          else raise (AttributeError "copy")
      | None => unmodelled
      end
  | _ => raise (AttributeError "copy")
  end.

Fixpoint chars (s : string) : list value :=
  match s with
  | EmptyString => []
  | String a s' => VStr (String a EmptyString) :: chars s'
  end.

(** The items a [for] loop or a comprehension draws from a value. *)
Definition py_iter (v : value) : M (list value) :=
  match v with
  | VStr s => ret (chars s)
  | VRef l =>
      st <~ get_state;
      match heap st !! l with
      | Some (OList xs) => ret xs
      | Some (ODict items) => ret (map (fun kv => VStr (fst kv)) items)
      | Some (OInst _ _) => raise (TypeError "object is not iterable")
      | None => unmodelled
      end
  | _ => raise (TypeError "object is not iterable")
  end.

Fixpoint mapM {A B} (f : A -> M B) (xs : list A) : M (list B) :=
  match xs with
  | [] => ret []
  | x :: xs' =>
      y <~ f x;
      ys <~ mapM f xs';
      ret (y :: ys)
  end.

(** The loop of the union shorthand: a mapping is parsed, a string [t] is
    parsed as [{"type": t}], anything else falls through both tests. *)
Fixpoint union_loop (parse : value -> M value) (elems : list value)
  : M (list value) :=
  match elems with
  | [] => ret []
  | t :: elems' =>
      st <~ get_state;
      match t with
      | VRef l =>
          match heap st !! l with
          | Some (ODict _) =>
              r <~ parse t;
              rest <~ union_loop parse elems';
              ret (r :: rest)
          | Some _ => union_loop parse elems'
          | None => unmodelled
          end
      | VStr s =>
          d <~ alloc (ODict [("type", VStr s)]);
          r <~ parse (VRef d);
          rest <~ union_loop parse elems';
          ret (r :: rest)
      | _ => union_loop parse elems'
      end
  end.

(** The [match type_name] statement for a string tag; [parse] is the
    recursive call. *)
Definition dispatch (parse : value -> M value) (type_name : string)
  (type_dict : pydict) : M value :=
  if String.eqb type_name "null" then new NullType [] type_dict
  else if String.eqb type_name "bool" then new BoolType [] type_dict
  else if String.eqb type_name "int" then
    if negb (dict_has "bits" type_dict) then
      raise (ValueError "'bits' attribute is required for 'int' type.")
    else new IntType [] type_dict
  else if String.eqb type_name "float" then
    if negb (dict_has "bits" type_dict) then
      raise (ValueError "'bits' attribute is required for 'float' type.")
    else new FloatType [] type_dict
  else if String.eqb type_name "string" then
    if negb (dict_has "bytes" type_dict) then
      raise (ValueError "'bytes' attribute is required for 'string' type.")
    else
      let '(b, td) := dict_pop "bytes" type_dict in
      new StringType [] (dict_set "bytes_" b td)
  else if String.eqb type_name "bytes" then
    if negb (dict_has "bytes" type_dict) then
      raise (ValueError "'bytes' attribute is required for 'bytes' type.")
    else
      let '(b, td) := dict_pop "bytes" type_dict in
      new BytesType [] (dict_set "bytes_" b td)
  else if String.eqb type_name "list" then
    if negb (dict_has "values" type_dict) then
      raise (ValueError "'values' attribute is required for 'list' type.")
    else
      let '(v, td) := dict_pop "values" type_dict in
      values <~ parse v;
      new ListType [values] td
  else if String.eqb type_name "map" then
    if negb (dict_has "keys" type_dict) || negb (dict_has "values" type_dict) then
      raise (ValueError "'keys' and 'values' attributes are required for 'map' type.")
    else
      let '(k, td) := dict_pop "keys" type_dict in
      keys <~ parse k;
      let '(v, td) := dict_pop "values" td in
      values <~ parse v;
      new MapType [keys; values] td
  else if String.eqb type_name "struct" then
    fs <~ match dict_get "fields" type_dict with
          | Some v => py_iter v
          | None => ret []
          end;
    fields <~ mapM parse fs;
    l <~ alloc (OList fields);
    new StructType [] (dict_set "fields" (VRef l) type_dict)
  else if String.eqb type_name "enum" then
    if negb (dict_has "symbols" type_dict) then
      raise (ValueError "'symbols' attribute is required for 'enum' type.")
    else new EnumType [] type_dict
  else if String.eqb type_name "union" then
    if negb (dict_has "types" type_dict) then
      raise (ValueError "'types' attribute is required for 'union' type.")
    else
      let '(t, td) := dict_pop "types" type_dict in
      ts <~ py_iter t;
      types <~ mapM parse ts;
      l <~ alloc (OList types);
      new UnionType [VRef l] td
  else new ProxyType [VStr type_name] type_dict.

(** The registration that ends [from_dict]: [if alias:] and the plain
    item assignment into the registry. *)
Definition register_alias (alias recap_type : value) : M unit :=
  st <~ get_state;
  b <~ lift (truthy (heap st) alias);
  if b then
    k <~ lift (hash_key (heap st) alias);
    match recap_type with
    | VRef l => modify (set_registry k l)
    | _ => unmodelled
    end
  else ret tt.

(** The [if]/[elif]/[else] of [from_dict] that builds [recap_type] from
    the popped [type_name] and the remaining keys; [parse] is the
    recursive call.  The lists built by the loop and by the comprehensions
    are local until they are handed to a constructor, so they enter the
    store when they are complete. *)
Definition construct (parse : value -> M value) (type_name : value)
  (type_dict : pydict) : M value :=
  match type_name with
  | VNone =>
      raise (ValueError
        "'type' is a required field and was not found in the dictionary.")
  | VStr s => dispatch parse s type_dict
  | VRef l =>
      st <~ get_state;
      match heap st !! l with
      | Some (OList elems) =>
          union_types <~ union_loop parse elems;
          ul <~ alloc (OList union_types);
          new UnionType [VRef ul] type_dict
      | Some _ => raise (ValueError "'type' must be a string or list.")
      | None => unmodelled
      end
  | _ => raise (ValueError "'type' must be a string or list.")
  end.

(** [from_dict] *)
Fixpoint from_dict (fuel : nat) (type_dict : value) : M value :=
  match fuel with
  | O => out_of_fuel
  | S f =>
      type_dict <~ dict_copy type_dict;
      let '(alias, type_dict) := dict_pop "alias" type_dict in
      let '(type_name, type_dict) := dict_pop "type" type_dict in
      recap_type <~ construct (from_dict f) type_name type_dict;
      _ <~ register_alias alias recap_type;
      ret recap_type
  end.

(** * Vocabulary of the statements

    Predicates, observations and example states that the properties
    below are stated with. *)

Definition alias_of (items : pydict) : value := default VNone (dict_get "alias" items).
Definition type_of (items : pydict) : value := default VNone (dict_get "type" items).
Definition rest_of (items : pydict) : pydict := dict_del "type" (dict_del "alias" items).

(** The keys the parser demands for a tag before it builds anything. *)
Definition required_keys (tag : string) : list string :=
  if String.eqb tag "int" then ["bits"]
  else if String.eqb tag "float" then ["bits"]
  else if String.eqb tag "string" then ["bytes"]
  else if String.eqb tag "bytes" then ["bytes"]
  else if String.eqb tag "list" then ["values"]
  else if String.eqb tag "map" then ["keys"; "values"]
  else if String.eqb tag "enum" then ["symbols"]
  else if String.eqb tag "union" then ["types"]
  else [].

(** A [type] value that is neither a string nor a list. *)
Definition bad_shape (h : list obj) (v : value) : Prop :=
  match v with
  | VNone | VBool _ | VInt _ => True
  | VStr _ => False
  | VRef l =>
      match h !! l with
      | Some (ODict _) | Some (OInst _ _) => True
      | _ => False
      end
  end.

Inductive invalid_mapping (h : list obj) (items : pydict) : Prop :=
| type_absent :
    dict_get "type" items = None -> invalid_mapping h items
| type_shape v :
    dict_get "type" items = Some v -> bad_shape h v -> invalid_mapping h items
| field_missing tag k :
    dict_get "type" items = Some (VStr tag) ->
    In k (required_keys tag) ->
    dict_get k items = None ->
    invalid_mapping h items.

(** The attributes [RecapType.__init__] assigns, in order. *)
Definition base_attrs (named : pydict) (e : loc) (attrs : pydict) : pydict :=
  dict_set "extra_attrs" (VRef e)
    (dict_set "doc" (arg "doc" named)
       (dict_set "alias" (arg "alias" named)
          (dict_set "logical" (arg "logical" named)
             (dict_set "type_" (arg "type_" named) attrs)))).

(** The check and the binding that end [RecapType.__init__]. *)
Definition register_self (self : loc) (alias : value) : M unit :=
  match alias with
  | VNone => ret tt
  | _ =>
      st <~ get_state;
      k <~ lift (hash_key (heap st) alias);
      match type_registry st !! k with
      | Some _ => raise (ValueError "Alias is already used.")
      | None => modify (set_registry k self)
      end
  end.

(** What a class hands to [RecapType.__init__]: its own bound parameters,
    and the positional and keyword arguments of the [super().__init__]
    call. *)
Definition super_args (c : cls) (pos : list value) (kw : pydict)
  : pure_res (pydict * list value * pydict) :=
  match c with
  | RecapType => Ok ([], pos, kw)
  | _ =>
      pbind (bind_args (init_sig c) pos kw) (fun '(named, extra) =>
        Ok (named, [VStr (type_tag c)], extra))
  end.

(** What [__init__] does once [super().__init__] has returned. *)
Definition finish (c : cls) (self : loc) (named : pydict) : M unit :=
  match c with
  | RecapType => ret tt
  | StructType =>
      match arg "fields" named with
      | VNone =>
          l <~ alloc (OList []);
          modify (set_attr self "fields" (VRef l))
      | fields => modify (set_attr self "fields" fields)
      end
  | ProxyType =>
      _ <~ modify (set_attr self "alias" (arg "alias" named));
      modify (set_attr self "_resolved" VNone)
  | _ => modify (assign_fields self (own_fields c) named)
  end.

(** Classes whose [__init__] is the common pattern: bind, call the base
    initialiser, assign the own attributes. *)
Definition plain (c : cls) : bool :=
  match c with
  | RecapType | StructType | ProxyType => false
  | _ => true
  end.

(** The instance a plain class builds from its bound arguments. *)
Definition built (c : cls) (named named0 : pydict) (e : loc) : obj :=
  OInst c (fold_left (fun a n => dict_set n (arg n named) a) (own_fields c)
             (base_attrs named0 e [])).

(** The [alias] argument that reaches [RecapType.__init__] when the class
    [c] is called with the given arguments. *)
Definition passed_alias (c : cls) (pos : list value) (kw : pydict)
  : pure_res value :=
  pbind (super_args c pos kw) (fun '(_, pos0, kw0) =>
    pbind (bind_args RecapType_sig pos0 kw0) (fun '(named0, _) =>
      Ok (arg "alias" named0))).

Definition preserves (n : nat) {A} (m : M A) : Prop :=
  forall st, n <= length (heap st) ->
    match m st with
    | Ok (_, st') | Raise (_, st') =>
        length (heap st) <= length (heap st') /\
        forall l, l < n -> heap st' !! l = heap st !! l
    | _ => True
    end.

(** A keyword dictionary none of whose keys clashes with [self] or with a
    parameter already bound by position. *)
Definition no_clash (bound : list string) (kw : pydict) : Prop :=
  Forall (fun kv => fst kv <> "self" /\ fst kv ∉ bound) kw.

Definition among (names : list string) (kv : string * value) : bool :=
  bool_decide (fst kv ∈ names).

(** The parameters of [RecapType.__init__] as a subclass binds them, and
    the keywords left for [extra_attrs]. *)
Definition base_named (tag : string) (kw : pydict) : pydict :=
  [("type_", VStr tag);
   ("logical", default VNone (dict_get "logical" kw));
   ("alias", default VNone (dict_get "alias" kw));
   ("doc", default VNone (dict_get "doc" kw))].

Definition extras (kw : pydict) : pydict :=
  List.filter (fun kv => negb (among ["logical"; "alias"; "doc"] kv)) kw.

(** The test of the loop: the element is a mapping or a string. *)
Definition parsed_elem (h : list obj) (v : value) : bool :=
  match v with
  | VStr _ => true
  | VRef l => match h !! l with Some (ODict _) => true | _ => false end
  | _ => false
  end.

(** An element that fails both tests. *)
Definition skipped (h : list obj) (v : value) : Prop :=
  match v with
  | VNone | VBool _ | VInt _ => True
  | VStr _ => False
  | VRef l =>
      match h !! l with
      | Some (OList _) | Some (OInst _ _) => True
      | _ => False
      end
  end.

Definition valid (h : list obj) (v : value) : Prop :=
  match v with
  | VRef l => l < length h
  | _ => True
  end.

(** The alternatives of a union shorthand as the specification words
    them: in the order of the sequence, a mapping element is parsed, a
    string element [s] is parsed as the mapping [{"type": s}], and an
    element that is neither contributes nothing. *)
Inductive alternatives (parse : value -> M value)
  : state -> list value -> list value -> state -> Prop :=
| alt_nil st : alternatives parse st [] [] st
| alt_mapping st l items elems r st1 alts st2 :
    heap st !! l = Some (ODict items) ->
    parse (VRef l) st = Ok (r, st1) ->
    alternatives parse st1 elems alts st2 ->
    alternatives parse st (VRef l :: elems) (r :: alts) st2
| alt_string st s elems r st1 alts st2 :
    parse (VRef (length (heap st)))
      (State (heap st ++ [ODict [("type", VStr s)]]) (type_registry st))
      = Ok (r, st1) ->
    alternatives parse st1 elems alts st2 ->
    alternatives parse st (VStr s :: elems) (r :: alts) st2
| alt_skip st v elems alts st2 :
    skipped (heap st) v ->
    alternatives parse st elems alts st2 ->
    alternatives parse st (v :: elems) alts st2.

(** The attributes of the Union built by the shorthand from the sibling
    keys [td], its list of alternatives at [ul] and its [extra_attrs]
    dictionary at [e]. *)
Definition union_attrs (td : pydict) (ul e : loc) : pydict :=
  [("type_", VStr "union");
   ("logical", default VNone (dict_get "logical" td));
   ("alias", default VNone (dict_get "alias" td));
   ("doc", default VNone (dict_get "doc" td));
   ("extra_attrs", VRef e);
   ("types", VRef ul)].

(** The state after the registration step of [from_dict], for an alias
    that is absent, [None] or a string. *)
Definition after_alias (alias : value) (l : loc) (st : state) : state :=
  match alias with
  | VStr a => if String.eqb a "" then st else set_registry (KStr a) l st
  | _ => st
  end.

Definition plain_alias (alias : value) : Prop :=
  match alias with
  | VNone | VStr _ => True
  | _ => False
  end.

(** Reading off the result of a run: the value returned and an
    observation of the state reached. *)
Definition observe {A B} (f : state -> B) (r : res (exn * state) (A * state))
  : option (A * B) :=
  match r with
  | Ok (a, st) => Some (a, f st)
  | _ => None
  end.

(** The state in which the mapping [{"type": ["null", "int32"]}] has just
    been written, after the module was imported. *)
Definition nullable_int32 : state :=
  State (heap initial_state ++
           [OList [VStr "null"; VStr "int32"]; ODict [("type", VRef 50)]])
    (type_registry initial_state).

(** How the [__eq__] of class [c] compares one of its own attributes. *)
Definition own_cmp (f : nat) (h : list obj) (c : cls) (a b : value)
  : pure_res bool :=
  if own_tuple c then item_eq (py_eq f h) a b else py_eq f h a b.

(** The attributes [names] exist on both instances and compare equal. *)
Definition fields_equal (cmp : value -> value -> pure_res bool)
  (attrs1 attrs2 : pydict) (names : list string) : Prop :=
  Forall (fun n => exists a b,
            dict_get n attrs1 = Some a /\ dict_get n attrs2 = Some b /\
            cmp a b = Ok true) names.

(** [p.resolve()] on a value. *)
Definition call_resolve (fuel : nat) (p : value) : M value :=
  match p with
  | VRef l => resolve fuel l
  | _ => unmodelled
  end.


(** The memo only ever maps to objects made by the copy under way. *)
Definition memo_fresh (n0 : nat) (memo : gmap nat nat) : Prop :=
  forall l l', memo !! l = Some l' -> n0 <= l'.

(** A value that holds no reference to one of the first [n0] objects. *)
Definition fresh_value (n0 : nat) (v : value) : Prop :=
  match v with
  | VRef l => n0 <= l
  | _ => True
  end.

(** What a copier guarantees about the first [n0] objects of the store:
    it leaves them as they are, only adds objects, extends the memo, and
    returns a value that shares nothing with them. *)
Definition copier_inv (n0 : nat) (cp : copier) : Prop :=
  forall memo h v v' memo' h',
    n0 <= length h -> memo_fresh n0 memo ->
    cp memo h v = Ok (v', memo', h') ->
    length h <= length h' /\
    (forall l, l < n0 -> h' !! l = h !! l) /\
    memo_fresh n0 memo' /\ memo ⊆ memo' /\ fresh_value n0 v'.

(** What one turn of the loop does to the state when it completes: it
    assigns the attribute on the resolved copy [c] when [hasattr] holds,
    or else sets the key in the dictionary that [c.extra_attrs] refers
    to. *)
Inductive override_effect (self : loc) (attr : string) (x : value)
  (st : state) : state -> Prop :=
| effect_attr c cl attrs :
    read_attr (heap st) self "_resolved" = Ok (VRef c) ->
    hasattr (heap st) (VRef c) attr = Ok true ->
    heap st !! c = Some (OInst cl attrs) ->
    override_effect self attr x st
      (set_obj c (OInst cl (dict_set attr x attrs)) st)
| effect_item c e items :
    read_attr (heap st) self "_resolved" = Ok (VRef c) ->
    hasattr (heap st) (VRef c) attr = Ok false ->
    read_attr (heap st) c "extra_attrs" = Ok (VRef e) ->
    heap st !! e = Some (ODict items) ->
    override_effect self attr x st
      (set_obj e (ODict (dict_set attr x items)) st).

(** A small store: a registered [NullType] under the alias [n] and a
    Proxy to [n] that carries one extra attribute. *)
Definition small_state : state :=
  State
    [OInst NullType
       [("type_", VStr "null"); ("logical", VNone); ("alias", VNone);
        ("doc", VNone); ("extra_attrs", VRef 1)];
     ODict [];
     OInst ProxyType
       [("type_", VStr "proxy"); ("logical", VNone); ("alias", VStr "n");
        ("doc", VNone); ("extra_attrs", VRef 3); ("_resolved", VNone)];
     ODict [("note", VInt 1)]]
    {[KStr "n" := 0]}.

Definition small_state_resolved : state :=
  State
    [OInst NullType
       [("type_", VStr "null"); ("logical", VNone); ("alias", VNone);
        ("doc", VNone); ("extra_attrs", VRef 1)];
     ODict [];
     OInst ProxyType
       [("type_", VStr "proxy"); ("logical", VNone); ("alias", VStr "n");
        ("doc", VNone); ("extra_attrs", VRef 3); ("_resolved", VRef 4)];
     ODict [("note", VInt 1)];
     OInst NullType
       [("type_", VStr "null"); ("logical", VNone); ("alias", VNone);
        ("doc", VNone); ("extra_attrs", VRef 5)];
     ODict [("note", VInt 1)]]
    {[KStr "n" := 0]}.

Definition validb (n : nat) (v : value) : bool :=
  match v with
  | VRef l => l <? n
  | _ => true
  end.

Definition obj_values (o : obj) : list value :=
  match o with
  | ODict items | OInst _ items => map snd items
  | OList xs => xs
  end.

(** No object of the store holds a reference past the end of the store. *)
Definition wf_heap (h : list obj) : bool :=
  forallb (fun o => forallb (validb (length h)) (obj_values o)) h.

(** How many of the first [n0] objects are not in the memo yet. *)
Definition unvisited (n0 : nat) (memo : gmap nat nat) : nat :=
  length (List.filter (fun l => negb (bool_decide (is_Some (memo !! l))))
            (seq 0 n0)).

(** A copier that returns whenever the memo leaves at most [f] of the
    original objects to visit. *)
Definition copier_total (h0 : list obj) (f : nat) (cp : copier) : Prop :=
  forall memo h v,
    length h0 <= length h ->
    (forall l, l < length h0 -> h !! l = h0 !! l) ->
    memo_fresh (length h0) memo ->
    validb (length h0) v = true ->
    unvisited (length h0) memo <= f ->
    exists r, cp memo h v = Ok r.

(** The chain [A -> B -> A] as [from_dict] builds it from the mappings
    [{"alias": "A", "type": "B"}] and [{"alias": "B", "type": "A"}]. *)
Definition cyclic_state : state :=
  State
    [ODict [("alias", VStr "A"); ("type", VStr "B")];
     ODict [("alias", VStr "B"); ("type", VStr "A")];
     OInst ProxyType
       [("type_", VStr "proxy"); ("logical", VNone); ("alias", VStr "B");
        ("doc", VNone); ("extra_attrs", VRef 3); ("_resolved", VNone)];
     ODict [];
     OInst ProxyType
       [("type_", VStr "proxy"); ("logical", VNone); ("alias", VStr "A");
        ("doc", VNone); ("extra_attrs", VRef 5); ("_resolved", VNone)];
     ODict []]
    (<[KStr "B" := 4]> (<[KStr "A" := 2]> ∅)).

(** The mapping [{"type": "uuid", "doc": "user id"}], written after the
    module was imported. *)
Definition uuid_with_doc : state :=
  State (heap initial_state ++
           [ODict [("type", VStr "uuid"); ("doc", VStr "user id")]])
    (type_registry initial_state).

(** The mapping [{"alias": "A", "type": "A", "extra_attrs": {}, "zzz": 1}],
    written after the module was imported. *)
Definition self_proxy_input : state :=
  State (heap initial_state ++
           [ODict [];
            ODict [("alias", VStr "A"); ("type", VStr "A");
                   ("extra_attrs", VRef 50); ("zzz", VInt 1)]])
    (type_registry initial_state).

(** Parse the mapping, take a deep copy of the registry's entry for [A]
    as a record of it, resolve the Proxy, and compare the entry with the
    record before and after. *)
Definition entry_before_and_after : M (value * value * pure_res bool * pure_res bool) :=
  p <~ from_dict 1 (VRef 51);
  entry <~ from_alias (VStr "A");
  record <~ deepcopy_step 9 entry;
  st0 <~ get_state;
  _ <~ call_resolve 9 p;
  entry' <~ from_alias (VStr "A");
  st1 <~ get_state;
  ret (entry, entry', py_eq 9 (heap st0) entry record,
       py_eq 9 (heap st1) entry' record).

(** The state of the loop that keeps the objects older than the copy out
    of reach: the cache holds the copy [c], made after the first [n0]
    objects, whose [extra_attrs] refers to nothing older. *)
Definition loop_inv (h0 : list obj) (self c : loc) (st : state) : Prop :=
  read_attr (heap st) self "_resolved" = Ok (VRef c) /\
  length h0 <= c /\
  self < length h0 /\
  (forall ea, read_attr (heap st) c "extra_attrs" = Ok ea ->
              fresh_value (length h0) ea) /\
  (forall l, l < length h0 -> l <> self -> heap st !! l = h0 !! l).

(** ** Vocabulary of the further properties *)

(** The state a call leaves behind, whether it returns or raises. *)
Definition final_state {A} (r : res (exn * state) (A * state)) : option state :=
  match r with
  | Ok (_, st) | Raise (_, st) => Some st
  | _ => None
  end.

(** The attributes of a new instance of [c] once [__init__] has run. *)
Definition instance_attrs (c : cls) (named named0 : pydict) (n : nat) : pydict :=
  let base := base_attrs named0 (S n) [] in
  match c with
  | RecapType => base
  | StructType =>
      dict_set "fields"
        (match arg "fields" named with VNone => VRef (S (S n)) | v => v end) base
  | ProxyType =>
      dict_set "_resolved" VNone (dict_set "alias" (arg "alias" named) base)
  | _ => fold_left (fun a x => dict_set x (arg x named) a) (own_fields c) base
  end.

(** The objects a constructor allocates after the instance and its
    [extra_attrs] dictionary: the empty list of a struct built without
    fields. *)
Definition new_tail (c : cls) (named : pydict) : list obj :=
  match c, arg "fields" named with
  | StructType, VNone => [OList []]
  | _, _ => []
  end.

(** The names a call of class [c] binds to parameters: those of its own
    [__init__] and those of [RecapType.__init__] it does not pass itself. *)
Definition params (c : cls) : list string :=
  map fst (init_sig c) ++ ["logical"; "alias"; "doc"].

(** The keywords that end up in [extra_attrs]. *)
Definition leftover (c : cls) (kw : pydict) : pydict :=
  List.filter (fun kv => negb (among (params c) kv)) kw.

(** The class the [match] statement of [from_dict] builds for a tag. *)
Definition tag_class (type_name : string) : cls :=
  if String.eqb type_name "null" then NullType
  else if String.eqb type_name "bool" then BoolType
  else if String.eqb type_name "int" then IntType
  else if String.eqb type_name "float" then FloatType
  else if String.eqb type_name "string" then StringType
  else if String.eqb type_name "bytes" then BytesType
  else if String.eqb type_name "list" then ListType
  else if String.eqb type_name "map" then MapType
  else if String.eqb type_name "struct" then StructType
  else if String.eqb type_name "enum" then EnumType
  else if String.eqb type_name "union" then UnionType
  else ProxyType.

(** A postcondition of the runs that return, from any state that has at
    least [n] objects. *)
Definition ensures (n : nat) {A} (m : M A) (Q : A -> state -> Prop) : Prop :=
  forall st a st', n <= length (heap st) -> m st = Ok (a, st') -> Q a st'.

(** A key no mapping and no keyword dictionary may carry: it clashes with
    a parameter the callee binds itself. *)
Definition reserved_key (c : cls) (k : string) : Prop :=
  k = "self" \/ (k = "type_" /\ c <> RecapType).

(** A relation between the state a run starts in and the state it leaves,
    whether it returns or raises. *)
Definition respects (R : state -> state -> Prop) {A} (m : M A) : Prop :=
  forall st,
    match m st with
    | Ok (_, st') | Raise (_, st') => R st st'
    | _ => True
    end.

(** The registry is the same after as before. *)
Definition same_registry (st st' : state) : Prop :=
  type_registry st' = type_registry st.

(** Nothing was lost between two states: the store is at least as long,
    every instance is still an instance of its class, and every alias
    that was registered still is. *)
Definition grows (st st' : state) : Prop :=
  length (heap st) <= length (heap st') /\
  (forall l c, class_of (heap st) l = Some c -> class_of (heap st') l = Some c) /\
  (forall k, is_Some (type_registry st !! k) -> is_Some (type_registry st' !! k)).

(** One call of the module's interface, returning or raising: a
    constructor, [from_dict], [RecapType.from_alias] or [resolve]. *)
Inductive api_call (st : state) : state -> Prop :=
| by_new c pos kw st' :
    final_state (new c pos kw st) = Some st' -> api_call st st'
| by_from_dict f v st' :
    final_state (from_dict f v st) = Some st' -> api_call st st'
| by_from_alias a st' :
    final_state (from_alias a st) = Some st' -> api_call st st'
| by_resolve fuel self st' :
    final_state (resolve fuel self st) = Some st' -> api_call st st'.

(** The tags whose mapping holds no nested type. *)
Definition scalar_tag (s : string) : bool :=
  match tag_class s with
  | ListType | MapType | StructType | UnionType => false
  | _ => true
  end.

(** What the registry of state [st] holds for an entry of the table of
    built-in aliases: an instance of the entry's class, whose own [alias]
    is [None], equal to what a call with the entry's arguments builds. *)
Definition builtin_entry (st : state) (d : string * (cls * list value * pydict))
  : bool :=
  let '(name, (c, pos, kw)) := d in
  match type_registry st !! KStr name with
  | Some l =>
      bool_decide (class_of (heap st) l = Some c) &&
      match read_attr (heap st) l "alias" with
      | Ok VNone => true
      | _ => false
      end &&
      match new c pos kw st with
      | Ok (r, st') =>
          match py_eq 3 (heap st') (VRef l) r with
          | Ok true => true
          | _ => false
          end
      | _ => false
      end
  | None => false
  end.

(** A value whose comparison with itself needs no further [__eq__]: an
    atom, or a list (whose items are first compared by identity). *)
Definition comparable (h : list obj) (v : value) : Prop :=
  match v with
  | VRef l => exists xs, h !! l = Some (OList xs)
  | _ => True
  end.

(** A value that can be compared with a copy of itself in at most [n]
    nested comparisons: its lists, dictionaries and instances nest no
    deeper than [n] (so there is no cycle among them), the dictionaries
    have distinct keys, and every instance has the attributes the
    [__eq__] of its class reads. *)
Fixpoint well_built (n : nat) (h : list obj) (v : value) : bool :=
  match v with
  | VRef l =>
      match n with
      | O => false
      | S n' =>
          match h !! l with
          | Some (OList xs) => forallb (well_built n' h) xs
          | Some (ODict d) =>
              bool_decide (NoDup (map fst d)) &&
              forallb (fun kv => well_built n' h (snd kv)) d
          | Some (OInst c attrs) =>
              forallb (fun k => match dict_get k attrs with
                                | Some x => well_built n' h x
                                | None => false
                                end)
                      (base_fields ++ own_fields c)
          | None => false
          end
      end
  | _ => true
  end.

(** [x'] stands for [x] in a copy: the same atom, or the object the memo
    records for the object of [x]. *)
Definition val_copied (memo : gmap loc loc) (x x' : value) : Prop :=
  match x with
  | VRef m => exists m', x' = VRef m' /\ memo !! m = Some m'
  | _ => x' = x
  end.

(** The same for an entry of a dictionary: the key is kept. *)
Definition item_copied (memo : gmap loc loc) (kv kv' : string * value) : Prop :=
  fst kv = fst kv' /\ val_copied memo (snd kv) (snd kv').

(** [o'] is the copy of [o]: the same kind of object (and class), with
    the same keys in the same order, every part standing for the part of
    [o] at its place. *)
Definition obj_copied (memo : gmap loc loc) (o o' : obj) : Prop :=
  match o, o' with
  | OList xs, OList ys => Forall2 (val_copied memo) xs ys
  | ODict d, ODict d' => Forall2 (item_copied memo) d d'
  | OInst c a, OInst c' a' => c = c' /\ Forall2 (item_copied memo) a a'
  | _, _ => False
  end.

(** The memo in the middle of a copy of a store that had [n0] objects: it
    maps objects of that store to objects made since, and every entry
    except those of the objects [P], whose copy is under way, leads to a
    finished copy. *)
Definition copied_heap (P : loc -> Prop) (n0 : nat) (memo : gmap loc loc)
  (h : list obj) : Prop :=
  forall l l', memo !! l = Some l' ->
    (l < n0 /\ n0 <= l' < length h) /\
    (~ P l -> exists o o',
        h !! l = Some o /\ h !! l' = Some o' /\ obj_copied memo o o').

(** Where a step of the copy of the store [h0] starts: the objects of
    [h0] are still in place and the memo is faithful. *)
Definition copy_pre (h0 : list obj) (P : loc -> Prop) (memo : gmap loc loc)
  (h : list obj) : Prop :=
  length h0 <= length h /\
  (forall l, l < length h0 -> h !! l = h0 !! l) /\
  copied_heap P (length h0) memo h.

(** What a step of the copy does to memo and store: objects are only
    added, the memo only grows, by entries for objects made in the step,
    and the memo stays faithful. *)
Definition copy_post (n0 : nat) (P : loc -> Prop) (memo : gmap loc loc)
  (h : list obj) (memo' : gmap loc loc) (h' : list obj) : Prop :=
  length h <= length h' /\
  (forall k, k < length h -> h' !! k = h !! k) /\
  memo ⊆ memo' /\
  (forall k k', memo' !! k = Some k' -> memo !! k = Some k' \/ length h <= k') /\
  copied_heap P n0 memo' h'.

(** A copier that, started on a reference into [h0], returns what stands
    for its argument and keeps the memo faithful. *)
Definition copier_copies (h0 : list obj) (cp : copier) : Prop :=
  forall P memo h v v' memo' h',
    copy_pre h0 P memo h ->
    validb (length h0) v = true ->
    cp memo h v = Ok (v', memo', h') ->
    copy_post (length h0) P memo h memo' h' /\ val_copied memo' v v'.

(** Every entry of the memo leads to a finished copy. *)
Definition linked (memo : gmap loc loc) (h : list obj) : Prop :=
  forall l l', memo !! l = Some l' ->
    exists o o', h !! l = Some o /\ h !! l' = Some o' /\ obj_copied memo o o'.

(** One of [x] and [y] is well built and the other stands for it in the
    copy. *)
Definition twin (memo : gmap loc loc) (h : list obj) (n : nat)
  (x y : value) : Prop :=
  (val_copied memo x y /\ well_built n h x = true) \/
  (val_copied memo y x /\ well_built n h y = true).

(** The store [h'] is [h] but for the attribute [name] of instances. *)
Definition same_but (name : string) (h h' : list obj) : Prop :=
  forall l,
    match h !! l with
    | Some (OInst c a) =>
        exists a', h' !! l = Some (OInst c a') /\
                   forall k, k <> name -> dict_get k a' = dict_get k a
    | o => h' !! l = o
    end.

(** A store with a struct of one [int32] field registered under the
    alias [point], and an unresolved Proxy to it with no overrides. *)
Definition point_state : state :=
  State
    [OInst IntType
       [("type_", VStr "int"); ("logical", VNone); ("alias", VNone);
        ("doc", VNone); ("extra_attrs", VRef 1); ("bits", VInt 32);
        ("signed", VBool true)];
     ODict [];
     OList [VRef 0];
     OInst StructType
       [("type_", VStr "struct"); ("logical", VNone);
        ("alias", VStr "point"); ("doc", VNone); ("extra_attrs", VRef 4);
        ("fields", VRef 2)];
     ODict [("note", VStr "x")];
     OInst ProxyType
       [("type_", VStr "proxy"); ("logical", VNone); ("alias", VStr "point");
        ("doc", VNone); ("extra_attrs", VRef 6); ("_resolved", VNone)];
     ODict []]
    {[KStr "point" := 3]}.

(** A store with an [int32] carrying one extra attribute, registered
    under the alias [count], and an unresolved Proxy to it that overrides
    [bits] and adds [unit]. *)
Definition override_state : state :=
  State
    [OInst IntType
       [("type_", VStr "int"); ("logical", VNone); ("alias", VNone);
        ("doc", VNone); ("extra_attrs", VRef 1); ("bits", VInt 32);
        ("signed", VBool true)];
     ODict [("scale", VInt 3)];
     OInst ProxyType
       [("type_", VStr "proxy"); ("logical", VNone); ("alias", VStr "count");
        ("doc", VNone); ("extra_attrs", VRef 3); ("_resolved", VNone)];
     ODict [("bits", VInt 16); ("unit", VStr "ms")]]
    {[KStr "count" := 0]}.

(** * Properties *)

(** ** The monad *)

Lemma bind_Ok {A B} (m : M A) (k : A -> M B) st b st' :
  bind m k st = Ok (b, st') <->
  exists a st1, m st = Ok (a, st1) /\ k a st1 = Ok (b, st').
Proof.
  unfold bind. split.
  - destruct (m st) as [[a st1]| | |]; try discriminate. eauto.
  - intros (a & st1 & -> & H). exact H.
Qed.

Lemma bind_step {A B} (m : M A) (k : A -> M B) st a st1 :
  m st = Ok (a, st1) -> bind m k st = k a st1.
Proof. unfold bind. intros ->. reflexivity. Qed.

Lemma bind_raise {A B} (m : M A) (k : A -> M B) st e st1 :
  m st = Raise (e, st1) -> bind m k st = Raise (e, st1).
Proof. unfold bind. intros ->. reflexivity. Qed.

(** ** Dictionaries *)

Lemma dict_get_del_ne k k' d :
  k <> k' -> dict_get k (dict_del k' d) = dict_get k d.
Proof.
  intros Hne. induction d as [|[k0 v0] d IH]; simpl; [reflexivity|].
  destruct (String.eqb_spec k' k0) as [->|Hk0].
  - destruct (String.eqb_spec k k0); [congruence|exact IH].
  - simpl. destruct (String.eqb_spec k k0); [reflexivity|exact IH].
Qed.

Lemma dict_get_del_eq k d : dict_get k (dict_del k d) = None.
Proof.
  induction d as [|[k0 v0] d IH]; simpl; [reflexivity|].
  destruct (String.eqb_spec k k0) as [->|Hk0]; [exact IH|].
  simpl. destruct (String.eqb_spec k k0); [congruence|exact IH].
Qed.

Lemma dict_del_absent k d : dict_get k d = None -> dict_del k d = d.
Proof.
  induction d as [|[k0 v0] d IH]; simpl; [reflexivity|].
  destruct (String.eqb_spec k k0); [discriminate|].
  intros H. rewrite IH; [reflexivity|exact H].
Qed.

Lemma dict_pop_eq k d :
  dict_pop k d = (default VNone (dict_get k d), dict_del k d).
Proof.
  unfold dict_pop. destruct (dict_get k d) eqn:E; simpl; [reflexivity|].
  rewrite dict_del_absent; [reflexivity|exact E].
Qed.

Lemma dict_get_set_eq k v d : dict_get k (dict_set k v d) = Some v.
Proof.
  induction d as [|[k0 v0] d IH]; simpl.
  - rewrite String.eqb_refl. reflexivity.
  - destruct (String.eqb_spec k k0) as [->|Hne]; simpl.
    + rewrite String.eqb_refl. reflexivity.
    + destruct (String.eqb_spec k k0); [congruence|exact IH].
Qed.

Lemma dict_get_set_ne k k' v d :
  k <> k' -> dict_get k (dict_set k' v d) = dict_get k d.
Proof.
  intros Hne. induction d as [|[k0 v0] d IH]; simpl.
  - destruct (String.eqb_spec k k'); [congruence|reflexivity].
  - destruct (String.eqb_spec k' k0) as [->|Hk0]; simpl.
    + destruct (String.eqb_spec k k0); [congruence|reflexivity].
    + destruct (String.eqb_spec k k0); [reflexivity|exact IH].
Qed.

Lemma dict_has_del_ne k k' d :
  k <> k' -> dict_has k (dict_del k' d) = dict_has k d.
Proof. intros H. unfold dict_has. rewrite dict_get_del_ne by exact H. reflexivity. Qed.

(** ** Unfolding the parser on a mapping *)

Lemma from_dict_unfold f st l items :
  heap st !! l = Some (ODict items) ->
  from_dict (S f) (VRef l) st =
  bind (construct (from_dict f) (type_of items) (rest_of items))
    (fun recap_type =>
       bind (register_alias (alias_of items) recap_type)
         (fun _ => ret recap_type)) st.
Proof.
  intros Hl. simpl.
  unfold bind at 1. unfold dict_copy.
  unfold bind at 1. unfold get_state at 1. rewrite Hl. unfold ret at 1.
  rewrite (dict_pop_eq "alias" items).
  rewrite (dict_pop_eq "type" (dict_del "alias" items)).
  rewrite dict_get_del_ne by discriminate.
  reflexivity.
Qed.

(** ** Validation of the input mapping *)

Lemma rest_has k items :
  k <> "alias" -> k <> "type" -> dict_has k (rest_of items) = dict_has k items.
Proof.
  intros Ha Ht. unfold rest_of.
  rewrite dict_has_del_ne by exact Ht. apply dict_has_del_ne. exact Ha.
Qed.

Lemma construct_missing parse tag k td st :
  In k (required_keys tag) -> dict_has k td = false ->
  exists msg, construct parse (VStr tag) td st = Raise (ValueError msg, st).
Proof.
  intros Hin Hk. unfold required_keys in Hin. simpl.
  destruct (String.eqb_spec tag "int") as [->|N1].
  { destruct Hin as [<-|[]]. unfold dispatch. simpl. rewrite Hk. simpl. eauto. }
  destruct (String.eqb_spec tag "float") as [->|N2].
  { destruct Hin as [<-|[]]. unfold dispatch. simpl. rewrite Hk. simpl. eauto. }
  destruct (String.eqb_spec tag "string") as [->|N3].
  { destruct Hin as [<-|[]]. unfold dispatch. simpl. rewrite Hk. simpl. eauto. }
  destruct (String.eqb_spec tag "bytes") as [->|N4].
  { destruct Hin as [<-|[]]. unfold dispatch. simpl. rewrite Hk. simpl. eauto. }
  destruct (String.eqb_spec tag "list") as [->|N5].
  { destruct Hin as [<-|[]]. unfold dispatch. simpl. rewrite Hk. simpl. eauto. }
  destruct (String.eqb_spec tag "map") as [->|N6].
  { unfold dispatch. simpl.
    destruct Hin as [<-|[<-|[]]]; rewrite Hk; simpl;
      [|rewrite orb_true_r]; eauto. }
  destruct (String.eqb_spec tag "enum") as [->|N7].
  { destruct Hin as [<-|[]]. unfold dispatch. simpl. rewrite Hk. simpl. eauto. }
  destruct (String.eqb_spec tag "union") as [->|N8].
  { destruct Hin as [<-|[]]. unfold dispatch. simpl. rewrite Hk. simpl. eauto. }
  destruct Hin.
Qed.

Lemma required_keys_plain tag k :
  In k (required_keys tag) -> k <> "alias" /\ k <> "type".
Proof.
  unfold required_keys.
  repeat match goal with
         | |- context [String.eqb tag ?s] => destruct (String.eqb tag s)
         end; simpl; intuition (subst; discriminate).
Qed.

(** C7.  A mapping whose [type] is absent, or neither a string nor a
    list, or whose tag lacks one of the keys required for it ([bits] for
    int and float, [bytes] for string and bytes, [values] for list, [keys]
    and [values] for map, [symbols] for enum, [types] for union) makes
    [from_dict] raise a [ValueError] at once, in the state it was called
    in. *)
Theorem from_dict_validation_error :
  forall f st l items,
    heap st !! l = Some (ODict items) ->
    invalid_mapping (heap st) items ->
    exists msg, from_dict (S f) (VRef l) st = Raise (ValueError msg, st).
Proof.
  intros f st l items Hl Hinv.
  rewrite (from_dict_unfold f st l items Hl).
  destruct Hinv as [Habs | v Hv Hshape | tag k Htag Hin Hk].
  - unfold type_of. rewrite Habs. simpl. eexists. reflexivity.
  - unfold type_of. rewrite Hv. simpl.
    destruct v as [|b|z|s|l']; simpl in Hshape; try contradiction;
      try (eexists; reflexivity).
    unfold bind, construct, bind, get_state.
    destruct (heap st !! l') as [[d|xs|c attrs]|]; try contradiction;
      eexists; reflexivity.
  - unfold type_of. rewrite Htag. simpl default.
    destruct (required_keys_plain tag k Hin) as [Ha Ht].
    destruct (construct_missing (from_dict f) tag k (rest_of items) st Hin)
      as [msg Hmsg].
    { rewrite rest_has by assumption. unfold dict_has. rewrite Hk. reflexivity. }
    exists msg. apply bind_raise. exact Hmsg.
Qed.

(** ** Running the constructors *)

Lemma set_attr_fresh h R c attrs rest n v :
  set_attr (length h) n v (State (h ++ OInst c attrs :: rest) R) =
  State (h ++ OInst c (dict_set n v attrs) :: rest) R.
Proof.
  unfold set_attr, set_obj. simpl.
  rewrite list_lookup_middle by reflexivity.
  rewrite insert_app_r_alt by reflexivity.
  rewrite Nat.sub_diag. reflexivity.
Qed.

Lemma RecapType_init_run h R c attrs pos kw named extra :
  bind_args RecapType_sig pos kw = Ok (named, extra) ->
  RecapType_init (length h) pos kw (State (h ++ [OInst c attrs]) R) =
  register_self (length h) (arg "alias" named)
    (State (h ++ [OInst c (base_attrs named (S (length h)) attrs);
                  ODict extra]) R).
Proof.
  intros Hb. unfold RecapType_init.
  unfold bind at 1. unfold lift at 1. rewrite Hb.
  unfold bind at 1. unfold alloc at 1. simpl heap. simpl type_registry.
  rewrite <- app_assoc. simpl app.
  repeat (unfold bind at 1; unfold modify at 1; rewrite set_attr_fresh).
  rewrite length_app. simpl length. rewrite Nat.add_1_r.
  unfold base_attrs, register_self.
  destruct (arg "alias" named); reflexivity.
Qed.

Lemma assign_fields_fresh names h R c attrs rest named :
  assign_fields (length h) names named (State (h ++ OInst c attrs :: rest) R) =
  State (h ++ OInst c (fold_left (fun a n => dict_set n (arg n named) a) names attrs)
           :: rest) R.
Proof.
  revert attrs. induction names as [|n names IH]; intros attrs; simpl.
  - reflexivity.
  - rewrite set_attr_fresh. apply IH.
Qed.

Lemma new_run c pos kw st named pos0 kw0 named0 extra0 :
  super_args c pos kw = Ok (named, pos0, kw0) ->
  bind_args RecapType_sig pos0 kw0 = Ok (named0, extra0) ->
  new c pos kw st =
  bind (register_self (length (heap st)) (arg "alias" named0))
    (fun _ =>
       bind (finish c (length (heap st)) named)
         (fun _ => ret (VRef (length (heap st)))))
    (State (heap st ++ [OInst c (base_attrs named0 (S (length (heap st))) []);
                        ODict extra0]) (type_registry st)).
Proof.
  intros Hs Hb0. destruct st as [h R]. simpl heap. simpl type_registry.
  unfold new. unfold bind at 1. unfold alloc at 1. simpl heap. simpl type_registry.
  assert (Hinit : init c (length h) pos kw (State (h ++ [OInst c []]) R) =
    bind (register_self (length h) (arg "alias" named0))
      (fun _ => finish c (length h) named)
      (State (h ++ [OInst c (base_attrs named0 (S (length h)) []); ODict extra0]) R)).
  { destruct c; unfold super_args in Hs;
      try (destruct (bind_args _ pos kw) as [[nm ex]| | |] eqn:Hb;
           simpl in Hs; try discriminate; injection Hs as <- <- <-;
           unfold init; unfold bind at 1; unfold lift at 1; rewrite Hb;
           unfold bind at 1; rewrite (RecapType_init_run _ _ _ _ _ _ _ _ Hb0);
           unfold finish, bind;
           destruct (register_self _ _ _) as [[[] st1]|[e st1]| |];
           reflexivity).
    injection Hs as <- <- <-. unfold init.
    rewrite (RecapType_init_run _ _ _ _ _ _ _ _ Hb0).
    unfold finish, bind.
    destruct (register_self _ _ _) as [[[] st1]|[e st1]| |]; reflexivity. }
  unfold bind at 1. rewrite Hinit. clear Hinit.
  unfold bind.
  destruct (register_self (length h) (arg "alias" named0) _)
    as [[[] st1]|[e st1]| |]; reflexivity.
Qed.

Lemma new_plain_noalias c pos kw st named extra named0 extra0 :
  plain c = true ->
  bind_args (init_sig c) pos kw = Ok (named, extra) ->
  bind_args RecapType_sig [VStr (type_tag c)] extra = Ok (named0, extra0) ->
  arg "alias" named0 = VNone ->
  new c pos kw st =
  Ok (VRef (length (heap st)),
      State (heap st ++ [built c named named0 (S (length (heap st)));
                         ODict extra0]) (type_registry st)).
Proof.
  intros Hp Hb Hb0 Ha.
  rewrite (new_run c pos kw st named [VStr (type_tag c)] extra named0 extra0).
  - rewrite Ha. unfold register_self. unfold bind at 1. unfold ret at 1.
    unfold bind at 1.
    replace (finish c (length (heap st)) named)
      with (modify (assign_fields (length (heap st)) (own_fields c) named))
      by (destruct c; try discriminate Hp; reflexivity).
    unfold modify at 1. rewrite assign_fields_fresh. reflexivity.
  - unfold super_args. rewrite Hb. destruct c; try discriminate Hp; reflexivity.
  - exact Hb0.
Qed.

Lemma finish_run c h R attrs rest named :
  exists attrs' rest',
    finish c (length h) named (State (h ++ OInst c attrs :: rest) R) =
    Ok (tt, State (h ++ OInst c attrs' :: rest') R).
Proof.
  destruct c; unfold finish;
    try (unfold modify; rewrite assign_fields_fresh; eauto; fail).
  - eauto.
  - destruct (arg "fields" named);
      try (unfold modify; rewrite set_attr_fresh; eauto; fail).
    unfold bind, alloc, modify. simpl heap. simpl type_registry.
    rewrite <- app_assoc. simpl app. rewrite set_attr_fresh. eauto.
  - unfold bind, modify. rewrite !set_attr_fresh. eauto.
Qed.

(** ** Registration by the constructor *)

(** C2.  Calling any class with an alias [a]: when the registry already
    has [a], the call raises a [ValueError] and the registry is the one
    before the call, so [a] is still bound to the first instance; when
    [a] is free, the call returns a new instance of the class and the
    registry binds [a] to it. *)
Theorem constructor_alias_registration :
  forall c pos kw st a,
    passed_alias c pos kw = Ok (VStr a) ->
    match type_registry st !! KStr a with
    | Some first =>
        exists msg st',
          new c pos kw st = Raise (ValueError msg, st') /\
          type_registry st' = type_registry st /\
          type_registry st' !! KStr a = Some first
    | None =>
        exists st',
          new c pos kw st = Ok (VRef (length (heap st)), st') /\
          class_of (heap st') (length (heap st)) = Some c /\
          type_registry st' = <[KStr a := length (heap st)]> (type_registry st)
    end.
Proof.
  intros c pos kw st a Hpa. unfold passed_alias in Hpa.
  destruct (super_args c pos kw) as [[[named pos0] kw0]| | |] eqn:Hs;
    try discriminate.
  simpl in Hpa.
  destruct (bind_args RecapType_sig pos0 kw0) as [[named0 extra0]| | |] eqn:Hb0;
    try discriminate.
  simpl in Hpa. injection Hpa as Ha.
  rewrite (new_run c pos kw st named pos0 kw0 named0 extra0 Hs Hb0).
  rewrite Ha. destruct st as [h R]. simpl heap. simpl type_registry.
  unfold register_self.
  destruct (R !! KStr a) as [first|] eqn:HR.
  - eexists _, _. split; [|split].
    + unfold bind, get_state, lift, hash_key. cbn [heap type_registry].
      rewrite HR. reflexivity.
    + reflexivity.
    + exact HR.
  - destruct (finish_run c h (<[KStr a := length h]> R)
                (base_attrs named0 (S (length h)) []) [ODict extra0] named)
      as (attrs' & rest' & Hfin).
    eexists. split; [|split].
    + unfold bind at 1. unfold bind at 1. unfold get_state at 1.
      unfold bind at 1. unfold lift at 1. unfold hash_key.
      cbn [heap type_registry]. rewrite HR. unfold modify at 1.
      unfold set_registry. cbn [heap type_registry].
      unfold bind at 1. rewrite Hfin. reflexivity.
    + simpl. unfold class_of. rewrite list_lookup_middle by reflexivity.
      reflexivity.
    + reflexivity.
Qed.

Lemma constructor_alias_registration_witness :
  exists msg st',
    new IntType [VInt 8] [("alias", VStr "int8")] initial_state
      = Raise (ValueError msg, st') /\
    type_registry st' = type_registry initial_state /\
    type_registry st' !! KStr "int8" = Some 0.
Proof.
  exact (constructor_alias_registration IntType [VInt 8]
           [("alias", VStr "int8")] initial_state "int8" eq_refl).
Defined.

(** ** The parser only adds to the store

    An operation preserves the first [n] objects when, from any state
    that has them, it leaves each of them as it was and never shrinks the
    store, whether it returns or raises. *)

Lemma preserves_ret n {A} (a : A) : preserves n (ret a).
Proof. intros st _. simpl. split; [lia|reflexivity]. Qed.

Lemma preserves_raise n {A} e : preserves n (@raise A e).
Proof. intros st _. simpl. split; [lia|reflexivity]. Qed.

Lemma preserves_unmodelled n {A} : preserves n (@unmodelled A).
Proof. intros st _. exact I. Qed.

Lemma preserves_out_of_fuel n {A} : preserves n (@out_of_fuel A).
Proof. intros st _. exact I. Qed.

Lemma preserves_lift n {A} (r : pure_res A) : preserves n (lift r).
Proof. intros st _. unfold lift. destruct r; simpl; auto. Qed.

Lemma preserves_get_state n : preserves n get_state.
Proof. intros st _. simpl. split; [lia|reflexivity]. Qed.

Lemma preserves_bind_post n {A B} (P : A -> Prop) (m : M A) (k : A -> M B) :
  (forall st a st', n <= length (heap st) -> m st = Ok (a, st') -> P a) ->
  preserves n m ->
  (forall a, P a -> preserves n (k a)) ->
  preserves n (bind m k).
Proof.
  intros HP Hm Hk st Hn. unfold bind.
  specialize (Hm st Hn). specialize (HP st).
  destruct (m st) as [[a st1]|[e st1]| |]; try exact I; try exact Hm.
  destruct Hm as [Hlen Hsame].
  assert (Hn1 : n <= length (heap st1)) by lia.
  specialize (Hk a (HP a st1 Hn eq_refl) st1 Hn1).
  destruct (k a st1) as [[b st2]|[e st2]| |]; try exact I;
    (destruct Hk as [Hlen2 Hsame2]; split; [lia|];
     intros l Hl; rewrite Hsame2 by exact Hl; apply Hsame; exact Hl).
Qed.

Lemma preserves_bind n {A B} (m : M A) (k : A -> M B) :
  preserves n m -> (forall a, preserves n (k a)) -> preserves n (bind m k).
Proof.
  intros Hm Hk.
  apply (preserves_bind_post n (fun _ => True)); auto.
Qed.

Lemma preserves_alloc n o : preserves n (alloc o).
Proof.
  intros st Hn. simpl. rewrite length_app. split; [lia|].
  intros l Hl. apply lookup_app_l. lia.
Qed.

Lemma alloc_fresh n o st a st' :
  n <= length (heap st) -> alloc o st = Ok (a, st') -> n <= a.
Proof. intros Hn H. injection H as <- _. exact Hn. Qed.

Lemma preserves_set_registry n k l : preserves n (modify (set_registry k l)).
Proof. intros st _. simpl. split; [lia|reflexivity]. Qed.

Lemma set_attr_heap self name v st :
  length (heap (set_attr self name v st)) = length (heap st) /\
  forall l, l <> self -> heap (set_attr self name v st) !! l = heap st !! l.
Proof.
  unfold set_attr.
  destruct (heap st !! self) as [[d|xs|c attrs]|]; simpl;
    try (split; [reflexivity|reflexivity]).
  split; [apply length_insert|].
  intros l Hl. apply list_lookup_insert_ne. congruence.
Qed.

Lemma preserves_set_attr n self name v :
  n <= self -> preserves n (modify (set_attr self name v)).
Proof.
  intros Hs st _. simpl.
  destruct (set_attr_heap self name v st) as [Hlen Hsame].
  split; [lia|]. intros l Hl. apply Hsame. lia.
Qed.

Lemma preserves_assign_fields n self names named :
  n <= self -> preserves n (modify (assign_fields self names named)).
Proof.
  intros Hs. induction names as [|x names IH]; intros st Hn.
  - simpl. split; [lia|reflexivity].
  - simpl.
    destruct (set_attr_heap self x (arg x named) st) as [Hlen Hsame].
    assert (Hn' : n <= length (heap (set_attr self x (arg x named) st))) by lia.
    specialize (IH _ Hn'). simpl in IH. destruct IH as [IH1 IH2].
    split; [lia|]. intros l Hl. rewrite IH2 by exact Hl. apply Hsame. lia.
Qed.

Ltac preserves_step :=
  first
    [ apply preserves_ret | apply preserves_raise | apply preserves_unmodelled
    | apply preserves_out_of_fuel | apply preserves_lift
    | apply preserves_get_state | apply preserves_alloc
    | apply preserves_set_registry
    | apply preserves_set_attr; assumption
    | apply preserves_assign_fields; assumption
    | apply preserves_bind; [|intros ?] ].

Lemma preserves_RecapType_init n self pos kw :
  n <= self -> preserves n (RecapType_init self pos kw).
Proof.
  intros Hs. unfold RecapType_init.
  apply preserves_bind; [preserves_step|]. intros [named extra].
  repeat preserves_step.
  destruct (arg "alias" named); repeat preserves_step;
    match goal with
    | |- preserves _ (match ?x with _ => _ end) => destruct x
    end; repeat preserves_step.
Qed.

Lemma preserves_init n c self pos kw :
  n <= self -> preserves n (init c self pos kw).
Proof.
  intros Hs. destruct c; unfold init;
    try apply preserves_RecapType_init; try assumption;
    (apply preserves_bind; [preserves_step|]; intros [named extra];
     apply preserves_bind; [apply preserves_RecapType_init; assumption|];
     intros _; repeat preserves_step).
  destruct (arg "fields" named); repeat preserves_step.
Qed.

Lemma preserves_new n c pos kw : preserves n (new c pos kw).
Proof.
  unfold new.
  apply (preserves_bind_post n (fun a => n <= a)).
  - intros st a st' Hn H. exact (alloc_fresh n _ st a st' Hn H).
  - apply preserves_alloc.
  - intros self Hs. apply preserves_bind; [apply preserves_init; exact Hs|].
    intros _. apply preserves_ret.
Qed.

Lemma preserves_dict_copy n v : preserves n (dict_copy v).
Proof.
  unfold dict_copy. destruct v; repeat preserves_step.
  destruct (heap a !! l) as [[d|xs|c attrs]|]; repeat preserves_step.
  destruct (dict_has "copy" attrs); preserves_step.
Qed.

Lemma preserves_py_iter n v : preserves n (py_iter v).
Proof.
  unfold py_iter. destruct v; repeat preserves_step.
  destruct (heap a !! l) as [[d|xs|c attrs]|]; repeat preserves_step.
Qed.

Lemma preserves_mapM n {A B} (f : A -> M B) xs :
  (forall x, preserves n (f x)) -> preserves n (mapM f xs).
Proof.
  intros Hf. induction xs as [|x xs IH]; simpl.
  - apply preserves_ret.
  - apply preserves_bind; [apply Hf|]. intros y.
    apply preserves_bind; [exact IH|]. intros ys. apply preserves_ret.
Qed.

Lemma preserves_union_loop n parse elems :
  (forall v, preserves n (parse v)) -> preserves n (union_loop parse elems).
Proof.
  intros Hp. induction elems as [|t elems IH]; simpl.
  - apply preserves_ret.
  - apply preserves_bind; [apply preserves_get_state|]. intros st.
    destruct t; try exact IH.
    + apply preserves_bind; [apply preserves_alloc|]. intros d.
      apply preserves_bind; [apply Hp|]. intros r.
      apply preserves_bind; [exact IH|]. intros rest. apply preserves_ret.
    + destruct (heap st !! l) as [[d|xs|c attrs]|]; try exact IH.
      * apply preserves_bind; [apply Hp|]. intros r.
        apply preserves_bind; [exact IH|]. intros rest. apply preserves_ret.
      * apply preserves_unmodelled.
Qed.

Lemma preserves_dispatch n parse s td :
  (forall v, preserves n (parse v)) -> preserves n (dispatch parse s td).
Proof.
  intros Hp. unfold dispatch.
  repeat match goal with
         | |- preserves _ (if ?b then _ else _) => destruct b
         | |- preserves _ (let '(_, _) := ?x in _) => destruct x
         | |- preserves _ (new _ _ _) => apply preserves_new
         | |- preserves _ (parse _) => apply Hp
         | |- preserves _ (mapM _ _) => apply preserves_mapM; exact Hp
         | |- preserves _ (py_iter _) => apply preserves_py_iter
         | |- preserves _ (match ?x with Some _ => _ | None => _ end) =>
             destruct x
         | |- _ => preserves_step
         end.
Qed.

Lemma preserves_construct n parse type_name td :
  (forall v, preserves n (parse v)) ->
  preserves n (construct parse type_name td).
Proof.
  intros Hp. unfold construct. destruct type_name; try apply preserves_raise.
  - apply preserves_dispatch. exact Hp.
  - apply preserves_bind; [apply preserves_get_state|]. intros st.
    destruct (heap st !! l) as [[d|xs|c attrs]|];
      try apply preserves_raise; try apply preserves_unmodelled.
    apply preserves_bind; [apply preserves_union_loop; exact Hp|].
    intros us. apply preserves_bind; [apply preserves_alloc|].
    intros ul. apply preserves_new.
Qed.

Lemma preserves_register_alias n alias r : preserves n (register_alias alias r).
Proof.
  unfold register_alias. repeat preserves_step.
  destruct a0; repeat preserves_step.
  destruct r; repeat preserves_step.
Qed.

Lemma preserves_from_dict n f v : preserves n (from_dict f v).
Proof.
  revert v. induction f as [|f IH]; intros v; simpl.
  - apply preserves_out_of_fuel.
  - apply preserves_bind; [apply preserves_dict_copy|]. intros td.
    destruct (dict_pop "alias" td) as [alias td1].
    destruct (dict_pop "type" td1) as [type_name td2].
    apply preserves_bind; [apply preserves_construct; exact IH|].
    intros r. apply preserves_bind; [apply preserves_register_alias|].
    intros _. apply preserves_ret.
Qed.

(** ** Binding keywords *)

Lemma bind_keywords_ok bound open kw :
  no_clash bound kw ->
  bind_keywords bound open kw =
  Ok (List.filter (among open) kw,
      List.filter (fun kv => negb (among open kv)) kw).
Proof.
  induction 1 as [|[k v] kw [Hself Hb] _ IH]; simpl; [reflexivity|].
  simpl in Hself, Hb.
  rewrite (bool_decide_eq_false_2 _ Hself), (bool_decide_eq_false_2 _ Hb).
  simpl. rewrite IH. unfold among. simpl.
  destruct (bool_decide (k ∈ open)); reflexivity.
Qed.

Lemma filter_among_nil (kw : pydict) :
  List.filter (fun kv => negb (among [] kv)) kw = kw.
Proof.
  induction kw as [|[k v] kw IH]; [reflexivity|].
  cbn [List.filter]. unfold among at 1. cbn [fst].
  rewrite bool_decide_eq_false_2 by (apply not_elem_of_nil).
  cbn [negb]. rewrite IH. reflexivity.
Qed.

Lemma filter_among_nil_pos (kw : pydict) : List.filter (among []) kw = [].
Proof.
  induction kw as [|[k v] kw IH]; [reflexivity|].
  cbn [List.filter]. unfold among at 1. cbn [fst].
  rewrite bool_decide_eq_false_2 by (apply not_elem_of_nil). exact IH.
Qed.

Lemma dict_get_filter_among names k (kw : pydict) :
  k ∈ names -> dict_get k (List.filter (among names) kw) = dict_get k kw.
Proof.
  intros Hk. induction kw as [|[k0 v0] kw IH]; [reflexivity|].
  cbn [List.filter dict_get]. unfold among at 1. cbn [fst].
  destruct (String.eqb_spec k k0) as [->|Hne].
  - rewrite bool_decide_eq_true_2 by exact Hk. cbn [dict_get].
    rewrite String.eqb_refl. reflexivity.
  - destruct (bool_decide (k0 ∈ names)); cbn [dict_get].
    + destruct (String.eqb_spec k k0); [congruence|exact IH].
    + exact IH.
Qed.

Lemma bind_base tag kw :
  no_clash ["type_"] kw ->
  bind_args RecapType_sig [VStr tag] kw = Ok (base_named tag kw, extras kw).
Proof.
  intros Hc. unfold bind_args. simpl.
  rewrite (bind_keywords_ok ["type_"] ["logical"; "alias"; "doc"] kw Hc).
  simpl.
  rewrite !dict_get_filter_among by (repeat constructor).
  unfold base_named, extras.
  destruct (dict_get "logical" kw), (dict_get "alias" kw), (dict_get "doc" kw);
    reflexivity.
Qed.

Lemma no_clash_weaken bound bound' kw :
  (forall k, k ∈ bound' -> k ∈ bound) -> no_clash bound kw -> no_clash bound' kw.
Proof.
  intros Hsub H. unfold no_clash in *.
  eapply Forall_impl; [exact H|]. intros kv [H1 H2]. split; [exact H1|].
  intros Hin. apply H2, Hsub, Hin.
Qed.

(** ** The union shorthand *)

Lemma union_loop_alternatives parse st elems alts st' :
  alternatives parse st elems alts st' ->
  union_loop parse elems st = Ok (alts, st').
Proof.
  induction 1 as [st | st l items elems r st1 alts st2 Hl Hp _ IH
                  | st s elems r st1 alts st2 Hp _ IH
                  | st v elems alts st2 Hs _ IH]; simpl.
  - reflexivity.
  - unfold bind at 1. unfold get_state at 1. rewrite Hl.
    unfold bind at 1. rewrite Hp. unfold bind at 1. rewrite IH. reflexivity.
  - unfold bind at 1. unfold get_state at 1.
    unfold bind at 1. unfold alloc at 1.
    unfold bind at 1. rewrite Hp. unfold bind at 1. rewrite IH. reflexivity.
  - unfold bind at 1. unfold get_state at 1.
    destruct v as [|b|z|s|l]; simpl in Hs; try contradiction; try exact IH.
    destruct (heap st !! l) as [[d|xs|c attrs]|]; try contradiction; exact IH.
Qed.

Lemma alternatives_filtered h0 parse :
  (forall v, preserves (length h0) (parse v)) ->
  forall elems st alts st1,
    Forall (valid h0) elems ->
    length h0 <= length (heap st) ->
    (forall l, l < length h0 -> heap st !! l = h0 !! l) ->
    alternatives parse st (List.filter (parsed_elem h0) elems) alts st1 ->
    alternatives parse st elems alts st1 /\
    length alts = length (List.filter (parsed_elem h0) elems).
Proof.
  intros Hpres. induction elems as [|v elems IH];
    intros st alts st1 Hvalid Hlen Hsame Halt.
  - simpl in Halt. split; [exact Halt|]. inversion Halt; reflexivity.
  - apply Forall_cons in Hvalid as [Hv Hvalid].
    cbn [List.filter] in *.
    destruct (parsed_elem h0 v) eqn:E.
    + inversion Halt as [ | st0 l items es r st2 alts0 st3 Hl Hp Hrest
                          | st0 s es r st2 alts0 st3 Hp Hrest
                          | st0 v0 es alts0 st3 Hs Hrest ]; subst.
      * pose proof (Hpres (VRef l) st Hlen) as Hq. rewrite Hp in Hq.
        destruct Hq as [Hlen2 Hsame2].
        destruct (IH st2 alts0 st1 Hvalid) as [IH1 IH2]; [lia| |exact Hrest|].
        { intros l0 Hl0. rewrite Hsame2 by exact Hl0. apply Hsame, Hl0. }
        split; [|simpl; congruence].
        eapply alt_mapping; eauto.
      * set (stx := State (heap st ++ [ODict [("type", VStr s)]])
                      (type_registry st)) in *.
        assert (Hlenx : length h0 <= length (heap stx)).
        { unfold stx. simpl. rewrite length_app. lia. }
        pose proof (Hpres (VRef (length (heap st))) stx Hlenx) as Hq.
        rewrite Hp in Hq. destruct Hq as [Hlen2 Hsame2].
        destruct (IH st2 alts0 st1 Hvalid) as [IH1 IH2]; [lia| |exact Hrest|].
        { intros l0 Hl0. rewrite Hsame2 by exact Hl0. unfold stx. simpl.
          rewrite lookup_app_l by lia. apply Hsame, Hl0. }
        split; [|simpl; congruence].
        eapply alt_string; eauto.
      * exfalso. destruct v as [|b|z|s|l]; simpl in E, Hs; try discriminate;
          try contradiction.
        destruct (h0 !! l) as [[d|xs|c attrs]|] eqn:El; try discriminate.
        assert (Hl : l < length h0) by (eapply lookup_lt_Some; exact El).
        rewrite (Hsame l Hl), El in Hs. exact Hs.
    + destruct (IH st alts st1 Hvalid Hlen Hsame Halt) as [IH1 IH2].
      split; [|exact IH2].
      apply alt_skip; [|exact IH1].
      destruct v as [|b|z|s|l]; simpl in E |- *; try exact I; try discriminate.
      simpl in Hv. rewrite (Hsame l Hv).
      destruct (lookup_lt_is_Some_2 h0 l Hv) as [o Ho]. rewrite Ho in E |- *.
      destruct o; [discriminate|exact I|exact I].
Qed.

Lemma new_union_run td ul st :
  no_clash ["types"; "type_"] td ->
  dict_get "alias" td = None ->
  new UnionType [VRef ul] td st =
  Ok (VRef (length (heap st)),
      State (heap st ++ [OInst UnionType
                           (union_attrs td ul (S (length (heap st))));
                         ODict (extras td)]) (type_registry st)).
Proof.
  intros Hc Ha.
  rewrite (new_plain_noalias UnionType [VRef ul] td st
             [("types", VRef ul)] td (base_named "union" td) (extras td)).
  - unfold built, union_attrs, base_attrs, base_named. simpl. reflexivity.
  - reflexivity.
  - change (bind_args (init_sig UnionType) [VRef ul] td)
      with (pbind (bind_keywords ["types"] [] td) (fun '(named, extra) =>
              pbind (fill_defaults [] named) (fun rest =>
                Ok ([("types", VRef ul)] ++ rest, extra)))).
    rewrite (bind_keywords_ok ["types"] [] td).
    + rewrite filter_among_nil, filter_among_nil_pos. reflexivity.
    + eapply no_clash_weaken; [|exact Hc]. intros k Hk.
      apply list_elem_of_singleton in Hk as ->. left.
  - apply bind_base. eapply no_clash_weaken; [|exact Hc]. intros k Hk.
    apply list_elem_of_singleton in Hk as ->. right. left.
  - unfold base_named, arg. simpl. rewrite Ha. reflexivity.
Qed.

Lemma register_alias_plain alias l st :
  plain_alias alias ->
  register_alias alias (VRef l) st = Ok (tt, after_alias alias l st).
Proof.
  intros Hp. destruct alias; simpl in Hp; try contradiction.
  - reflexivity.
  - unfold register_alias, after_alias, bind, get_state, lift, truthy, hash_key.
    destruct (String.eqb s ""); reflexivity.
Qed.

Lemma rest_no_alias items : dict_get "alias" (rest_of items) = None.
Proof.
  unfold rest_of. rewrite dict_get_del_ne by discriminate.
  apply dict_get_del_eq.
Qed.

Lemma from_dict_union_run f st l items tl elems alts st1 :
  heap st !! l = Some (ODict items) ->
  dict_get "type" items = Some (VRef tl) ->
  heap st !! tl = Some (OList elems) ->
  plain_alias (alias_of items) ->
  no_clash ["types"; "type_"] (rest_of items) ->
  alternatives (from_dict f) st elems alts st1 ->
  from_dict (S f) (VRef l) st =
  Ok (VRef (S (length (heap st1))),
      after_alias (alias_of items) (S (length (heap st1)))
        (State (heap st1 ++
                  [OList alts;
                   OInst UnionType
                     (union_attrs (rest_of items) (length (heap st1))
                        (S (S (length (heap st1)))));
                   ODict (extras (rest_of items))])
           (type_registry st1))).
Proof.
  intros Hl Ht Htl Hal Hc Halt.
  rewrite (from_dict_unfold f st l items Hl).
  unfold type_of. rewrite Ht. simpl (default _ _).
  assert (Hcons : construct (from_dict f) (VRef tl) (rest_of items) st =
    Ok (VRef (S (length (heap st1))),
        State (heap st1 ++
                 [OList alts;
                  OInst UnionType
                    (union_attrs (rest_of items) (length (heap st1))
                       (S (S (length (heap st1)))));
                  ODict (extras (rest_of items))])
          (type_registry st1))).
  { unfold construct. unfold bind at 1. unfold get_state at 1. cbv beta iota.
    rewrite Htl.
    unfold bind at 1. rewrite (union_loop_alternatives _ _ _ _ _ Halt).
    cbv beta iota. unfold bind at 1. unfold alloc at 1. cbv beta iota.
    rewrite (new_union_run (rest_of items) (length (heap st1)) _ Hc
               (rest_no_alias items)).
    cbn [heap type_registry]. rewrite length_app. cbn [length].
    rewrite Nat.add_1_r. rewrite <- app_assoc. reflexivity. }
  unfold bind at 1. rewrite Hcons. cbv beta iota.
  unfold bind at 1.
  rewrite (register_alias_plain _ _ _ Hal). reflexivity.
Qed.

Lemma observe_Ok {A B} (f : state -> B) (r : res (exn * state) (A * state)) a b :
  observe f r = Some (a, b) -> exists st', r = Ok (a, st') /\ f st' = b.
Proof.
  destruct r as [[a' st']|[e st']| |]; simpl; try discriminate.
  intros H. injection H as -> <-. eauto.
Qed.

(** C6, as the code has it.  When the [type] of a mapping is a list, no
    sibling key is named [types], [type_] or [self], the alias is absent,
    [None] or a string, and the elements of the list that are mappings or
    strings parse, in order, to [alts] (a mapping by the recursive call,
    a string [s] as the mapping [{"type": s}]), [from_dict] returns a
    Union whose [types] is the list [alts] in that order; the sibling
    keys [logical] and [doc] become its attributes of that name and the
    other sibling keys its [extra_attrs].  In particular
    [{"type": ["null", "int32"]}] gives a Union of a [NullType] and a
    [ProxyType] with alias [int32], in that order. *)
Theorem union_shorthand_alternatives :
  (forall f st l items tl elems alts st1,
      heap st !! l = Some (ODict items) ->
      dict_get "type" items = Some (VRef tl) ->
      heap st !! tl = Some (OList elems) ->
      plain_alias (alias_of items) ->
      no_clash ["types"; "type_"] (rest_of items) ->
      alternatives (from_dict f) st elems alts st1 ->
      exists u ul e st',
        from_dict (S f) (VRef l) st = Ok (VRef u, st') /\
        heap st' !! u =
          Some (OInst UnionType (union_attrs (rest_of items) ul e)) /\
        heap st' !! ul = Some (OList alts) /\
        heap st' !! e = Some (ODict (extras (rest_of items)))) /\
  (exists u ul a b st',
     from_dict 2 (VRef 51) nullable_int32 = Ok (VRef u, st') /\
     class_of (heap st') u = Some UnionType /\
     read_attr (heap st') u "types" = Ok (VRef ul) /\
     heap st' !! ul = Some (OList [VRef a; VRef b]) /\
     class_of (heap st') a = Some NullType /\
     class_of (heap st') b = Some ProxyType /\
     read_attr (heap st') b "alias" = Ok (VStr "int32")).
Proof.
  split.
  - intros f st l items tl elems alts st1 Hl Ht Htl Hal Hc Halt.
    rewrite (from_dict_union_run f st l items tl elems alts st1
               Hl Ht Htl Hal Hc Halt).
    exists (S (length (heap st1))), (length (heap st1)),
      (S (S (length (heap st1)))).
    eexists. split; [reflexivity|].
    assert (Hheap : forall alias x R,
      heap (after_alias alias x (State (heap st1 ++ R) (type_registry st1)))
      = heap st1 ++ R).
    { intros alias x R. unfold after_alias. destruct alias; try reflexivity.
      destruct (String.eqb s ""); reflexivity. }
    rewrite Hheap. repeat split.
    + rewrite lookup_app_r by lia.
      replace (S (length (heap st1)) - length (heap st1)) with 1 by lia.
      reflexivity.
    + rewrite lookup_app_r by lia. rewrite Nat.sub_diag. reflexivity.
    + rewrite lookup_app_r by lia.
      replace (S (S (length (heap st1))) - length (heap st1)) with 2 by lia.
      reflexivity.
  - destruct (observe_Ok (fun st => drop 52 (heap st))
                (from_dict 2 (VRef 51) nullable_int32) (VRef 59)
                [ODict [("type", VStr "null")];
                 OInst NullType
                   [("type_", VStr "null"); ("logical", VNone);
                    ("alias", VNone); ("doc", VNone); ("extra_attrs", VRef 54)];
                 ODict [];
                 ODict [("type", VStr "int32")];
                 OInst ProxyType
                   [("type_", VStr "proxy"); ("logical", VNone);
                    ("alias", VStr "int32"); ("doc", VNone);
                    ("extra_attrs", VRef 57); ("_resolved", VNone)];
                 ODict [];
                 OList [VRef 53; VRef 56];
                 OInst UnionType
                   [("type_", VStr "union"); ("logical", VNone);
                    ("alias", VNone); ("doc", VNone); ("extra_attrs", VRef 60);
                    ("types", VRef 58)];
                 ODict []])
      as (st' & Hrun & Hheap).
    { vm_compute. reflexivity. }
    exists 59, 58, 53, 56, st'. split; [exact Hrun|].
    pose proof (lookup_drop (heap st') 52 7) as H59.
    pose proof (lookup_drop (heap st') 52 6) as H58.
    pose proof (lookup_drop (heap st') 52 1) as H53.
    pose proof (lookup_drop (heap st') 52 4) as H56.
    rewrite Hheap in H59, H58, H53, H56. simpl in H59, H58, H53, H56.
    unfold class_of, read_attr.
    rewrite <- H59, <- H58, <- H53, <- H56.
    repeat split.
Qed.

Lemma union_shorthand_alternatives_witness :
  exists u ul e st',
    from_dict 2 (VRef 1)
      (State [OList [VStr "null"; VStr "int32"]; ODict [("type", VRef 0)]] ∅)
    = Ok (VRef u, st') /\
    heap st' !! u = Some (OInst UnionType (union_attrs [] ul e)) /\
    heap st' !! ul = Some (OList [VRef 3; VRef 6]) /\
    heap st' !! e = Some (ODict []).
Proof.
  refine (proj1 union_shorthand_alternatives 1
            (State [OList [VStr "null"; VStr "int32"];
                    ODict [("type", VRef 0)]] ∅)
            1 [("type", VRef 0)] 0 [VStr "null"; VStr "int32"]
            [VRef 3; VRef 6] _ eq_refl eq_refl eq_refl I _ _).
  - constructor.
  - eapply alt_string; [vm_compute; reflexivity|].
    eapply alt_string; [vm_compute; reflexivity|].
    apply alt_nil.
Defined.

(** The mapping [{"type": ["null"], "types": 1}] has a list as its [type]
    and one sibling key, and yet no Union comes out of it: the key
    [types] is passed on as a keyword, clashes with the positional
    argument of [UnionType], and the call raises a [TypeError]. *)
Lemma union_shorthand_sibling_clash :
  dict_get "type" [("type", VRef 0); ("types", VInt 1)] = Some (VRef 0) /\
  exists st',
    from_dict 2 (VRef 1)
      (State [OList [VStr "null"];
              ODict [("type", VRef 0); ("types", VInt 1)]] ∅)
    = Raise (TypeError "got multiple values for argument", st').
Proof.
  split; [reflexivity|]. eexists. vm_compute. reflexivity.
Qed.

Lemma filter_length_bound {A} (p : A -> bool) (xs : list A) :
  length (List.filter p xs) <= length xs /\
  (Exists (fun x => p x = false) xs -> length (List.filter p xs) < length xs).
Proof.
  induction xs as [|x xs [IH1 IH2]]; simpl.
  - split; [lia|]. intros H. inversion H.
  - destruct (p x) eqn:E; simpl.
    + split; [lia|]. intros H. apply Exists_cons in H as [H|H].
      * congruence.
      * specialize (IH2 H). lia.
    + split; [lia|]. intros _. lia.
Qed.

(** C10.  In the union shorthand an element of the list that is neither
    a mapping nor a string takes no part: as soon as the mapping and
    string elements parse, in order, to [alts], [from_dict] returns a
    Union whose [types] is [alts], whatever the other elements are, so
    the Union has as many alternatives as the list has mapping and string
    elements, and fewer than the list has elements when one is of
    another kind. *)
Theorem union_shorthand_skips :
  forall f st l items tl elems alts st1,
    heap st !! l = Some (ODict items) ->
    dict_get "type" items = Some (VRef tl) ->
    heap st !! tl = Some (OList elems) ->
    plain_alias (alias_of items) ->
    no_clash ["types"; "type_"] (rest_of items) ->
    Forall (valid (heap st)) elems ->
    alternatives (from_dict f) st
      (List.filter (parsed_elem (heap st)) elems) alts st1 ->
    exists u ul st',
      from_dict (S f) (VRef l) st = Ok (VRef u, st') /\
      class_of (heap st') u = Some UnionType /\
      read_attr (heap st') u "types" = Ok (VRef ul) /\
      heap st' !! ul = Some (OList alts) /\
      length alts = length (List.filter (parsed_elem (heap st)) elems) /\
      length alts <= length elems /\
      (Exists (fun v => parsed_elem (heap st) v = false) elems ->
       length alts < length elems).
Proof.
  intros f st l items tl elems alts st1 Hl Ht Htl Hal Hc Hvalid Halt.
  destruct (alternatives_filtered (heap st) (from_dict f)
              (fun v => preserves_from_dict (length (heap st)) f v)
              elems st alts st1 Hvalid (le_n _) (fun _ _ => eq_refl) Halt)
    as [Hfull Hlen].
  rewrite (from_dict_union_run f st l items tl elems alts st1
             Hl Ht Htl Hal Hc Hfull).
  exists (S (length (heap st1))), (length (heap st1)). eexists.
  split; [reflexivity|].
  assert (Hheap : forall alias x R,
    heap (after_alias alias x (State (heap st1 ++ R) (type_registry st1)))
    = heap st1 ++ R).
  { intros alias x R. unfold after_alias. destruct alias; try reflexivity.
    destruct (String.eqb s ""); reflexivity. }
  unfold class_of, read_attr. rewrite Hheap.
  rewrite (lookup_app_r (heap st1) _ (S (length (heap st1)))) by lia.
  replace (S (length (heap st1)) - length (heap st1)) with 1 by lia.
  rewrite (lookup_app_r (heap st1) _ (length (heap st1))) by lia.
  rewrite Nat.sub_diag.
  destruct (filter_length_bound (parsed_elem (heap st)) elems) as [Hle Hlt].
  repeat split; try reflexivity; try exact Hlen.
  - rewrite Hlen. exact Hle.
  - intros Hex. rewrite Hlen. exact (Hlt Hex).
Qed.

Lemma union_shorthand_skips_witness :
  exists u ul st',
    from_dict 2 (VRef 1)
      (State [OList [VStr "null"; VInt 3; VNone; VStr "int32"];
              ODict [("type", VRef 0)]] ∅)
    = Ok (VRef u, st') /\
    class_of (heap st') u = Some UnionType /\
    read_attr (heap st') u "types" = Ok (VRef ul) /\
    heap st' !! ul = Some (OList [VRef 3; VRef 6]) /\
    2 = 2 /\ 2 <= 4 /\
    (Exists (fun v =>
               parsed_elem [OList [VStr "null"; VInt 3; VNone; VStr "int32"];
                            ODict [("type", VRef 0)]] v = false)
       [VStr "null"; VInt 3; VNone; VStr "int32"] -> 2 < 4).
Proof.
  refine (union_shorthand_skips 1
            (State [OList [VStr "null"; VInt 3; VNone; VStr "int32"];
                    ODict [("type", VRef 0)]] ∅)
            1 [("type", VRef 0)] 0 [VStr "null"; VInt 3; VNone; VStr "int32"]
            [VRef 3; VRef 6] _ eq_refl eq_refl eq_refl I _ _ _).
  - constructor.
  - repeat constructor.
  - simpl. eapply alt_string; [vm_compute; reflexivity|].
    eapply alt_string; [vm_compute; reflexivity|].
    apply alt_nil.
Defined.

Lemma from_dict_validation_error_witness :
  exists msg,
    from_dict 1 (VRef 0) (State [ODict [("type", VStr "int")]] ∅)
    = Raise (ValueError msg, State [ODict [("type", VStr "int")]] ∅).
Proof.
  apply (from_dict_validation_error 0
           (State [ODict [("type", VStr "int")]] ∅) 0
           [("type", VStr "int")] eq_refl).
  apply (field_missing _ _ "int" "bits");
    [reflexivity | left; reflexivity | reflexivity].
Defined.

(** ** Registration by the parser *)

Lemma new_returns_ref c pos kw st r st' :
  new c pos kw st = Ok (r, st') -> r = VRef (length (heap st)).
Proof.
  unfold new. intros H.
  apply bind_Ok in H as (self & st1 & Hal & H).
  injection Hal as <- <-.
  apply bind_Ok in H as (u & st2 & _ & H).
  injection H as <- _. reflexivity.
Qed.

Lemma dispatch_returns_ref parse s td st r st' :
  dispatch parse s td st = Ok (r, st') -> exists l, r = VRef l.
Proof.
  unfold dispatch.
  repeat match goal with
         | |- context [if ?b then _ else _] => destruct b
         | |- context [let '(_, _) := ?x in _] => destruct x
         end;
    intros H;
    repeat match type of H with
           | raise _ _ = Ok _ => discriminate H
           | new _ _ _ _ = Ok _ => apply new_returns_ref in H; eauto
           | bind _ _ _ = Ok _ =>
               let a := fresh "a" in
               let st1 := fresh "st" in
               let H1 := fresh "H" in
               apply bind_Ok in H as (a & st1 & H1 & H)
           end.
Qed.

Lemma construct_returns_ref parse type_name td st r st' :
  construct parse type_name td st = Ok (r, st') -> exists l, r = VRef l.
Proof.
  unfold construct. destruct type_name; try discriminate.
  - apply dispatch_returns_ref.
  - intros H. apply bind_Ok in H as (s0 & st1 & Hg & H).
    injection Hg as <- <-.
    destruct (heap st !! l) as [[d|xs|c attrs]|]; try discriminate.
    apply bind_Ok in H as (us & st2 & _ & H).
    apply bind_Ok in H as (ul & st3 & _ & H).
    apply new_returns_ref in H. eauto.
Qed.

(** C3, as the code has it.  When the mapping carries an [alias] that is
    a non-empty string and the type is built, [from_dict] returns the new
    instance and the registry binds the alias to it, whatever the alias
    was bound to before: no test of the registry comes first. *)
Theorem parser_alias_overwrites :
  forall f st l items a r st1,
    heap st !! l = Some (ODict items) ->
    dict_get "alias" items = Some (VStr a) ->
    a <> "" ->
    construct (from_dict f) (type_of items) (rest_of items) st = Ok (r, st1) ->
    exists lr,
      r = VRef lr /\
      from_dict (S f) (VRef l) st =
      Ok (r, State (heap st1) (<[KStr a := lr]> (type_registry st1))).
Proof.
  intros f st l items a r st1 Hl Ha Hne Hc.
  destruct (construct_returns_ref _ _ _ _ _ _ Hc) as [lr ->].
  exists lr. split; [reflexivity|].
  rewrite (from_dict_unfold f st l items Hl).
  unfold bind at 1. rewrite Hc. cbv beta iota.
  unfold alias_of. rewrite Ha. simpl (default _ _).
  unfold bind at 1.
  rewrite (register_alias_plain (VStr a) lr st1 I).
  unfold after_alias.
  destruct (String.eqb_spec a ""); [contradiction|reflexivity].
Qed.

Lemma parser_alias_overwrites_witness :
  exists lr,
    VRef 3 = VRef lr /\
    from_dict 1 (VRef 2)
      (State [OInst BoolType []; ODict [];
              ODict [("alias", VStr "flag"); ("type", VStr "null")]]
         {[KStr "flag" := 0]})
    = Ok (VRef 3,
          State [OInst BoolType []; ODict [];
                 ODict [("alias", VStr "flag"); ("type", VStr "null")];
                 OInst NullType
                   [("type_", VStr "null"); ("logical", VNone);
                    ("alias", VNone); ("doc", VNone); ("extra_attrs", VRef 4)];
                 ODict []]
            (<[KStr "flag" := lr]> {[KStr "flag" := 0]})).
Proof.
  refine (parser_alias_overwrites 0
            (State [OInst BoolType []; ODict [];
                    ODict [("alias", VStr "flag"); ("type", VStr "null")]]
               {[KStr "flag" := 0]})
            2 [("alias", VStr "flag"); ("type", VStr "null")] "flag"
            (VRef 3)
            (State [OInst BoolType []; ODict [];
                    ODict [("alias", VStr "flag"); ("type", VStr "null")];
                    OInst NullType
                      [("type_", VStr "null"); ("logical", VNone);
                       ("alias", VNone); ("doc", VNone);
                       ("extra_attrs", VRef 4)];
                    ODict []]
               {[KStr "flag" := 0]})
            eq_refl eq_refl _ eq_refl).
  discriminate.
Defined.

(** The mapping [{"alias": "", "type": "null"}] carries an [alias] key
    and parses, and yet the registry binds nothing to that name: the test
    [if alias:] is false for the empty string. *)
Lemma parser_empty_alias_unbound :
  dict_get "alias" [("alias", VStr ""); ("type", VStr "null")] = Some (VStr "") /\
  exists st',
    from_dict 1 (VRef 50)
      (State (heap initial_state ++
                [ODict [("alias", VStr ""); ("type", VStr "null")]])
         (type_registry initial_state))
    = Ok (VRef 51, st') /\
    type_registry st' !! KStr "" = None.
Proof.
  split; [reflexivity|].
  apply (observe_Ok (fun st => type_registry st !! KStr "")).
  vm_compute. reflexivity.
Qed.

(** ** Structural equality *)

Lemma pbind_Ok {A B} (r : pure_res A) (k : A -> pure_res B) b :
  pbind r k = Ok b <-> exists a, r = Ok a /\ k a = Ok b.
Proof.
  unfold pbind. split.
  - destruct r; try discriminate. eauto.
  - intros (a & -> & H). exact H.
Qed.

Lemma read_attrs_Ok h l c attrs names vs :
  h !! l = Some (OInst c attrs) ->
  read_attrs h l names = Ok vs <->
  Forall2 (fun n v => dict_get n attrs = Some v) names vs.
Proof.
  intros Hl. revert vs. induction names as [|n names IH]; intros vs; simpl.
  - split.
    + intros H. injection H as <-. constructor.
    + intros H. inversion H. reflexivity.
  - rewrite pbind_Ok. unfold read_attr. rewrite Hl. split.
    + intros (v & Hv & H). apply pbind_Ok in H as (vs' & Hvs & H).
      injection H as <-. constructor.
      * destruct (dict_get n attrs); [congruence|discriminate].
      * apply IH. exact Hvs.
    + intros H. inversion H as [|n0 v names0 vs' Hv Hrest]; subst.
      exists v. rewrite Hv. split; [reflexivity|].
      apply pbind_Ok. exists vs'. split; [apply IH; exact Hrest|reflexivity].
Qed.

Lemma seq_eq_true cmp xs ys :
  seq_eq cmp xs ys = Ok true <->
  Forall2 (fun x y => cmp x y = Ok true) xs ys.
Proof.
  revert ys. induction xs as [|x xs IH]; intros [|y ys]; simpl.
  - split; [constructor|reflexivity].
  - split; [discriminate|intros H; inversion H].
  - split; [discriminate|intros H; inversion H].
  - rewrite pbind_Ok. split.
    + intros (b & Hb & H). destruct b; [|discriminate].
      constructor; [exact Hb|apply IH; exact H].
    + intros H. inversion H as [|x0 y0 xs0 ys0 Hxy Hrest]; subst.
      exists true. split; [exact Hxy|apply IH; exact Hrest].
Qed.

Lemma Forall2_fields {A} (R1 R2 : string -> A -> Prop) (C : A -> A -> Prop) names :
  (exists xs ys, Forall2 R1 names xs /\ Forall2 R2 names ys /\ Forall2 C xs ys) <->
  Forall (fun n => exists a b, R1 n a /\ R2 n b /\ C a b) names.
Proof.
  induction names as [|n names IH].
  - split; [constructor|]. intros _. exists [], []. repeat constructor.
  - split.
    + intros (xs & ys & H1 & H2 & H3).
      inversion H1 as [|n1 a names1 xs' Ha H1']; subst.
      inversion H2 as [|n2 b names2 ys' Hb H2']; subst.
      inversion H3 as [|a3 b3 xs3 ys3 Hab H3']; subst.
      constructor; [eauto|]. apply IH. eauto.
    + intros H. apply Forall_cons in H as [(a & b & Ha & Hb & Hab) H].
      apply IH in H as (xs & ys & H1 & H2 & H3).
      exists (a :: xs), (b :: ys). repeat constructor; assumption.
Qed.

Lemma compare_fields cmp h l1 l2 c1 c2 attrs1 attrs2 names :
  h !! l1 = Some (OInst c1 attrs1) ->
  h !! l2 = Some (OInst c2 attrs2) ->
  pbind (read_attrs h l1 names) (fun xs =>
    pbind (read_attrs h l2 names) (fun ys => seq_eq cmp xs ys)) = Ok true <->
  fields_equal cmp attrs1 attrs2 names.
Proof.
  intros H1 H2. unfold fields_equal.
  rewrite <- (Forall2_fields (fun n v => dict_get n attrs1 = Some v)
                (fun n v => dict_get n attrs2 = Some v)
                (fun a b => cmp a b = Ok true)).
  rewrite pbind_Ok. split.
  - intros (xs & Hxs & H). apply pbind_Ok in H as (ys & Hys & H).
    exists xs, ys.
    rewrite <- (read_attrs_Ok h l1 c1 attrs1) by exact H1.
    rewrite <- (read_attrs_Ok h l2 c2 attrs2) by exact H2.
    rewrite <- seq_eq_true. auto.
  - intros (xs & ys & Hxs & Hys & H). exists xs.
    rewrite (read_attrs_Ok h l1 c1 attrs1) by exact H1. split; [exact Hxs|].
    apply pbind_Ok. exists ys.
    rewrite (read_attrs_Ok h l2 c2 attrs2) by exact H2. split; [exact Hys|].
    apply seq_eq_true. exact H.
Qed.

Lemma inst_eq_true f h l1 l2 c attrs1 attrs2 :
  h !! l1 = Some (OInst c attrs1) ->
  h !! l2 = Some (OInst c attrs2) ->
  inst_eq (py_eq f h) h c c l1 l2 = Ok true <->
  fields_equal (item_eq (py_eq f h)) attrs1 attrs2 base_fields /\
  fields_equal (own_cmp f h c) attrs1 attrs2 (own_fields c).
Proof.
  intros H1 H2. unfold inst_eq.
  rewrite bool_decide_eq_true_2 by reflexivity.
  rewrite <- (compare_fields (item_eq (py_eq f h)) h l1 l2 c c attrs1 attrs2
                base_fields H1 H2).
  rewrite <- (compare_fields (own_cmp f h c) h l1 l2 c c attrs1 attrs2
                (own_fields c) H1 H2).
  destruct (read_attrs h l1 base_fields) as [xs| | |] eqn:Ex;
    try (simpl; split; [discriminate|intros [H _]; discriminate]).
  destruct (read_attrs h l2 base_fields) as [ys| | |] eqn:Ey;
    try (simpl; split; [discriminate|intros [H _]; discriminate]).
  cbn [pbind].
  destruct (seq_eq (item_eq (py_eq f h)) xs ys) as [[|]| | |] eqn:Es;
    try (simpl; split; [discriminate|intros [H _]; discriminate]).
  cbn [pbind].
  assert (Hown : forall ns,
    match ns with
    | [] => Ok true
    | n :: ns' =>
        pbind (read_attrs h l1 (n :: ns')) (fun xs' =>
          pbind (read_attrs h l2 (n :: ns')) (fun ys' =>
            if own_tuple c then seq_eq (item_eq (py_eq f h)) xs' ys'
            else seq_eq (py_eq f h) xs' ys'))
    end =
    pbind (read_attrs h l1 ns) (fun xs' =>
      pbind (read_attrs h l2 ns) (fun ys' =>
        seq_eq (own_cmp f h c) xs' ys'))).
  { intros ns. unfold own_cmp. destruct ns; [reflexivity|].
    destruct (own_tuple c); reflexivity. }
  rewrite Hown. split; [intros H; split; [reflexivity|exact H]|intros [_ H]; exact H].
Qed.

Lemma py_eq_instances f h l1 l2 c1 c2 attrs1 attrs2 :
  h !! l1 = Some (OInst c1 attrs1) ->
  h !! l2 = Some (OInst c2 attrs2) ->
  py_eq (S f) h (VRef l1) (VRef l2) = inst_eq (py_eq f h) h c1 c2 l1 l2.
Proof. intros H1 H2. simpl. rewrite H1, H2. reflexivity. Qed.




(** ** Deep copies *)

Lemma copy_items_inv n0 cp :
  copier_inv n0 cp ->
  forall kvs memo h kvs' memo' h',
    n0 <= length h -> memo_fresh n0 memo ->
    copy_items cp memo h kvs = Ok (kvs', memo', h') ->
    length h <= length h' /\
    (forall l, l < n0 -> h' !! l = h !! l) /\
    memo_fresh n0 memo' /\ memo ⊆ memo' /\
    Forall (fun kv => fresh_value n0 (snd kv)) kvs' /\
    map fst kvs' = map fst kvs.
Proof.
  intros Hcp. induction kvs as [|[k x] kvs IH];
    intros memo h kvs' memo' h' Hn Hm H; simpl in H.
  - injection H as <- <- <-. repeat split; auto; constructor.
  - apply pbind_Ok in H as ([[y memo1] h1] & Hx & H).
    apply pbind_Ok in H as ([[ys memo2] h2] & Hrest & H).
    injection H as <- <- <-.
    destruct (Hcp _ _ _ _ _ _ Hn Hm Hx) as (L1 & F1 & M1 & S1 & V1).
    assert (Hn1 : n0 <= length h1) by lia.
    destruct (IH _ _ _ _ _ Hn1 M1 Hrest) as (L2 & F2 & M2 & S2 & V2 & K2).
    repeat split.
    + lia.
    + intros l Hl. rewrite F2 by exact Hl. apply F1, Hl.
    + exact M2.
    + etrans; eassumption.
    + constructor; [exact V1|exact V2].
    + simpl. f_equal. exact K2.
Qed.

Lemma copy_values_inv n0 cp :
  copier_inv n0 cp ->
  forall xs memo h xs' memo' h',
    n0 <= length h -> memo_fresh n0 memo ->
    copy_values cp memo h xs = Ok (xs', memo', h') ->
    length h <= length h' /\
    (forall l, l < n0 -> h' !! l = h !! l) /\
    memo_fresh n0 memo' /\ memo ⊆ memo' /\
    Forall (fresh_value n0) xs'.
Proof.
  intros Hcp. induction xs as [|x xs IH];
    intros memo h xs' memo' h' Hn Hm H; simpl in H.
  - injection H as <- <- <-. repeat split; auto.
  - apply pbind_Ok in H as ([[y memo1] h1] & Hx & H).
    apply pbind_Ok in H as ([[ys memo2] h2] & Hrest & H).
    injection H as <- <- <-.
    destruct (Hcp _ _ _ _ _ _ Hn Hm Hx) as (L1 & F1 & M1 & S1 & V1).
    assert (Hn1 : n0 <= length h1) by lia.
    destruct (IH _ _ _ _ _ Hn1 M1 Hrest) as (L2 & F2 & M2 & S2 & V2).
    repeat split.
    + lia.
    + intros l Hl. rewrite F2 by exact Hl. apply F1, Hl.
    + exact M2.
    + etrans; eassumption.
    + constructor; [exact V1|exact V2].
Qed.

Lemma memo_fresh_insert n0 memo l l' :
  memo_fresh n0 memo -> n0 <= l' -> memo_fresh n0 (<[l := l']> memo).
Proof.
  intros Hm Hl k k' Hk. apply lookup_insert_Some in Hk as [[_ <-]|[_ Hk]].
  - exact Hl.
  - eapply Hm, Hk.
Qed.

Lemma deepcopy_inv n0 f : copier_inv n0 (deepcopy f).
Proof.
  induction f as [|f IH]; intros memo h v v' memo' h' Hn Hm H.
  - destruct v as [| | | |l]; simpl in H;
      try (injection H as <- <- <-; repeat split; auto; fail).
    destruct (memo !! l) as [l'|] eqn:El; [|discriminate].
    injection H as <- <- <-. repeat split; auto. simpl. eapply Hm, El.
  - destruct v as [| | | |l]; simpl in H;
      try (injection H as <- <- <-; repeat split; auto; fail).
    destruct (memo !! l) as [l'|] eqn:El.
    { injection H as <- <- <-. repeat split; auto. simpl. eapply Hm, El. }
    assert (Hm1 : memo_fresh n0 (<[l := length h]> memo))
      by (apply memo_fresh_insert; assumption).
    assert (Hsub : memo ⊆ <[l := length h]> memo)
      by (apply insert_subseteq; exact El).
    assert (Hn1 : forall o, n0 <= length (h ++ [o]))
      by (intros o; rewrite length_app; simpl; lia).
    destruct (h !! l) as [[kvs|xs|c attrs]|] eqn:Eo; [| | |discriminate].
    + apply pbind_Ok in H as ([[kvs' memo1] h1] & Hc & H).
      injection H as <- <- <-.
      destruct (copy_items_inv n0 _ IH _ _ _ _ _ _ (Hn1 _) Hm1 Hc)
        as (L & F & M & S & _ & _).
      rewrite length_app in L. simpl in L.
      repeat split.
      * rewrite length_insert. lia.
      * intros k Hk. rewrite list_lookup_insert_ne by lia.
        rewrite F by exact Hk. apply lookup_app_l. lia.
      * exact M.
      * etrans; eassumption.
      * simpl. exact Hn.
    + apply pbind_Ok in H as ([[xs' memo1] h1] & Hc & H).
      injection H as <- <- <-.
      destruct (copy_values_inv n0 _ IH _ _ _ _ _ _ (Hn1 _) Hm1 Hc)
        as (L & F & M & S & _).
      rewrite length_app in L. simpl in L.
      repeat split.
      * rewrite length_insert. lia.
      * intros k Hk. rewrite list_lookup_insert_ne by lia.
        rewrite F by exact Hk. apply lookup_app_l. lia.
      * exact M.
      * etrans; eassumption.
      * simpl. exact Hn.
    + apply pbind_Ok in H as ([[attrs' memo1] h1] & Hc & H).
      injection H as <- <- <-.
      destruct (copy_items_inv n0 _ IH _ _ _ _ _ _ (Hn1 _) Hm1 Hc)
        as (L & F & M & S & _ & _).
      rewrite length_app in L. simpl in L.
      repeat split.
      * rewrite length_insert. lia.
      * intros k Hk. rewrite list_lookup_insert_ne by lia.
        rewrite F by exact Hk. apply lookup_app_l. lia.
      * exact M.
      * etrans; eassumption.
      * simpl. exact Hn.
Qed.

(** The copy of an instance made with an empty memo is a new instance of
    the same class with the same attribute names, holding no reference to
    an object that was there before. *)
Lemma deepcopy_root fuel h t c attrs v' memo' h' :
  h !! t = Some (OInst c attrs) ->
  deepcopy fuel ∅ h (VRef t) = Ok (v', memo', h') ->
  v' = VRef (length h) /\
  length h < length h' /\
  (forall l, l < length h -> h' !! l = h !! l) /\
  exists attrs',
    h' !! length h = Some (OInst c attrs') /\
    map fst attrs' = map fst attrs /\
    Forall (fun kv => fresh_value (length h) (snd kv)) attrs'.
Proof.
  intros Ht H. destruct fuel as [|f]; simpl in H.
  - rewrite lookup_empty in H. discriminate.
  - rewrite lookup_empty, Ht in H.
    apply pbind_Ok in H as ([[attrs' memo1] h1] & Hc & H).
    injection H as <- <- <-.
    assert (Hn : length h <= length (h ++ [OInst c []]))
      by (rewrite length_app; simpl; lia).
    assert (Hm : memo_fresh (length h) (<[t := length h]> ∅)).
    { apply memo_fresh_insert; [|lia]. intros l l' Hl.
      rewrite lookup_empty in Hl. discriminate. }
    destruct (copy_items_inv (length h) _ (deepcopy_inv (length h) f)
                _ _ _ _ _ _ Hn Hm Hc) as (L & F & _ & _ & V & K).
    rewrite length_app in L. simpl in L.
    split; [reflexivity|]. split; [rewrite length_insert; lia|].
    split.
    + intros l Hl. rewrite list_lookup_insert_ne by lia.
      rewrite F by exact Hl. apply lookup_app_l. exact Hl.
    + exists attrs'. split; [|split; assumption].
      apply list_lookup_insert_eq. lia.
Qed.

(** ** The effect of one override *)

Lemma get_attr_Ok l n st v st' :
  get_attr l n st = Ok (v, st') <-> st' = st /\ read_attr (heap st) l n = Ok v.
Proof.
  unfold get_attr, lift. destruct (read_attr (heap st) l n); split;
    try discriminate; try (intros [_ H]; discriminate).
  - intros H. injection H as <- <-. auto.
  - intros [-> H]. injection H as <-. reflexivity.
Qed.

Lemma get_attr_state l n st :
  match get_attr l n st with
  | Ok (_, st') | Raise (_, st') => st' = st
  | _ => True
  end.
Proof. unfold get_attr, lift. destruct (read_attr (heap st) l n); auto. Qed.

Lemma apply_override_effect self attr x st :
  match apply_override self attr x st with
  | Ok (_, st') => override_effect self attr x st st'
  | Raise (_, st') => st' = st
  | _ => True
  end.
Proof.
  unfold apply_override.
  unfold bind at 1. unfold get_attr at 1. unfold lift at 1.
  destruct (read_attr (heap st) self "_resolved") as [r| | |] eqn:Er; auto.
  unfold bind at 1. unfold get_state at 1.
  unfold bind at 1. unfold lift at 1.
  destruct (hasattr (heap st) r attr) as [b| | |] eqn:Eh; auto.
  destruct b.
  - unfold bind at 1. unfold get_attr at 1. unfold lift at 1. rewrite Er.
    unfold setattr. destruct r as [| | | |c]; try exact I.
    unfold bind, get_state.
    destruct (heap st !! c) as [[d|xs|cl attrs]|] eqn:Ec; try exact I.
    unfold modify, set_attr. rewrite Ec.
    eapply effect_attr; eassumption.
  - unfold bind at 1. unfold get_attr at 1. unfold lift at 1. rewrite Er.
    destruct r as [| | | |c]; try exact I.
    unfold bind at 1. unfold attr_of, get_attr. unfold lift at 1.
    destruct (read_attr (heap st) c "extra_attrs") as [ea| | |] eqn:Ea; auto.
    unfold setitem. destruct ea as [| | | |e]; try reflexivity.
    unfold bind, get_state.
    destruct (heap st !! e) as [[items|xs|cl attrs]|] eqn:Ee;
      try reflexivity; try exact I.
    unfold modify. eapply effect_item; eassumption.
Qed.

(** An override changes one object, an instance into an instance of the
    same class or a dictionary into a dictionary, and nothing else. *)
Lemma override_effect_shape self attr x st st' :
  override_effect self attr x st st' ->
  type_registry st' = type_registry st /\
  length (heap st') = length (heap st) /\
  (forall l, class_of (heap st') l = class_of (heap st) l) /\
  (forall l n,
      (read_attr (heap st) self "_resolved" = Ok (VRef l) -> False) ->
      class_of (heap st) l <> None ->
      read_attr (heap st') l n = read_attr (heap st) l n).
Proof.
  intros [ c cl attrs Hr Hh Hc | c e items Hr Hh He Hi ].
  - simpl. split; [reflexivity|]. split; [apply length_insert|]. split.
    + intros l. unfold class_of. destruct (decide (l = c)) as [->|Hne].
      * rewrite list_lookup_insert_eq by (eapply lookup_lt_Some; exact Hc).
        rewrite Hc. reflexivity.
      * rewrite list_lookup_insert_ne by congruence. reflexivity.
    + intros l n Hnot _. unfold read_attr.
      rewrite list_lookup_insert_ne; [reflexivity|].
      intros ->. apply Hnot. exact Hr.
  - simpl. split; [reflexivity|]. split; [apply length_insert|]. split.
    + intros l. unfold class_of. destruct (decide (l = e)) as [->|Hne].
      * rewrite list_lookup_insert_eq by (eapply lookup_lt_Some; exact Hi).
        rewrite Hi. reflexivity.
      * rewrite list_lookup_insert_ne by congruence. reflexivity.
    + intros l n _ Hcl. unfold read_attr.
      rewrite list_lookup_insert_ne; [reflexivity|].
      intros ->. apply Hcl. unfold class_of. rewrite Hi. reflexivity.
Qed.

Lemma read_attr_class h l n v : read_attr h l n = Ok v -> class_of h l <> None.
Proof.
  unfold read_attr, class_of.
  destruct (h !! l) as [[d|xs|c attrs]|]; discriminate.
Qed.

(** Through the loop the Proxy keeps its cache, the registry is not
    touched and no object changes class. *)
Lemma apply_overrides_cache self c items st :
  c <> self ->
  read_attr (heap st) self "_resolved" = Ok (VRef c) ->
  match apply_overrides self items st with
  | Ok (_, st') | Raise (_, st') =>
      read_attr (heap st') self "_resolved" = Ok (VRef c) /\
      type_registry st' = type_registry st /\
      length (heap st') = length (heap st) /\
      (forall l, class_of (heap st') l = class_of (heap st) l)
  | _ => True
  end.
Proof.
  intros Hne. revert st. induction items as [|[attr x] items IH]; intros st Hr.
  - simpl. auto.
  - simpl. unfold bind.
    pose proof (apply_override_effect self attr x st) as He.
    destruct (apply_override self attr x st) as [[[] st1]|[e st1]| |]; auto.
    + destruct (override_effect_shape _ _ _ _ _ He) as (R1 & L1 & C1 & A1).
      assert (Hr1 : read_attr (heap st1) self "_resolved" = Ok (VRef c)).
      { rewrite A1; [exact Hr| |eapply read_attr_class; exact Hr].
        intros Hs. rewrite Hr in Hs. injection Hs as Hs. contradiction. }
      specialize (IH st1 Hr1).
      destruct (apply_overrides self items st1) as [[[] st2]|[e st2]| |]; auto;
        destruct IH as (R2 & T2 & L2 & C2);
        (split; [exact R2|]; split; [congruence|]; split; [congruence|];
         intros l; rewrite C2; apply C1).
    + subst st1. auto.
Qed.

Lemma set_attr_read self n v st :
  class_of (heap (set_attr self n v st)) self <> None ->
  read_attr (heap (set_attr self n v st)) self n = Ok v.
Proof.
  unfold set_attr, class_of, read_attr.
  destruct (heap st !! self) as [[d|xs|c attrs]|] eqn:E; simpl;
    try (rewrite E; intros H; contradiction).
  rewrite list_lookup_insert_eq by (eapply lookup_lt_Some; exact E).
  intros _. rewrite dict_get_set_eq. reflexivity.
Qed.

Lemma from_alias_Ok alias st v st' :
  from_alias alias st = Ok (v, st') ->
  st' = st /\ exists k t, hash_key (heap st) alias = Ok k /\
                          type_registry st !! k = Some t /\ v = VRef t.
Proof.
  unfold from_alias, bind, get_state, lift.
  destruct (hash_key (heap st) alias) as [k| | |]; try discriminate.
  destruct (type_registry st !! k) as [t|] eqn:Et; try discriminate.
  intros H. injection H as <- <-. eauto 6.
Qed.

Lemma deepcopy_step_Ok fuel v st v' st' :
  deepcopy_step fuel v st = Ok (v', st') ->
  type_registry st' = type_registry st /\
  exists memo', deepcopy fuel ∅ (heap st) v = Ok (v', memo', heap st').
Proof.
  unfold deepcopy_step.
  destruct (deepcopy fuel ∅ (heap st) v) as [[[w memo'] h']| | |];
    try discriminate.
  intros H. injection H as <- <-. simpl. eauto.
Qed.

(** A run of [resolve] that finds the cache empty and returns, laid out
    step by step. *)
Lemma resolve_uncached fuel self st r st' :
  read_attr (heap st) self "_resolved" = Ok VNone ->
  resolve fuel self st = Ok (r, st') ->
  exists alias k t memo' h1 ea items,
    read_attr (heap st) self "alias" = Ok alias /\
    hash_key (heap st) alias = Ok k /\
    type_registry st !! k = Some t /\
    deepcopy fuel ∅ (heap st) (VRef t) = Ok (VRef (length (heap st)), memo', h1) /\
    let st2 := set_attr self "_resolved" (VRef (length (heap st)))
                 (State h1 (type_registry st)) in
    read_attr (heap st2) self "_resolved" = Ok (VRef (length (heap st))) /\
    read_attr (heap st2) self "extra_attrs" = Ok ea /\
    items_of ea st2 = Ok (items, st2) /\
    apply_overrides self items st2 = Ok (tt, st') /\
    r = VRef (length (heap st)) /\
    self < length (heap st).
Proof.
  intros Hc H. unfold resolve in H.
  apply bind_Ok in H as (cached & st0 & Hg & H).
  apply get_attr_Ok in Hg as [-> Hg]. rewrite Hc in Hg. injection Hg as <-.
  apply bind_Ok in H as (alias & st0 & Hg & H).
  apply get_attr_Ok in Hg as [-> Halias].
  apply bind_Ok in H as (target & st0 & Hf & H).
  apply from_alias_Ok in Hf as [-> (k & t & Hk & Ht & ->)].
  apply bind_Ok in H as (copy & st1 & Hd & H).
  apply deepcopy_step_Ok in Hd as [HR (memo' & Hd)].
  apply bind_Ok in H as (u & st2 & Hm & H).
  unfold modify in Hm. injection Hm as _ <-.
  apply bind_Ok in H as (ea & st0 & Hg & H).
  apply get_attr_Ok in Hg as [-> Hea].
  apply bind_Ok in H as (items & st3 & Hi & H).
  apply bind_Ok in H as (u' & st4 & Ho & H).
  apply get_attr_Ok in H as [-> Hfin].
  assert (Hself : self < length (heap st)).
  { unfold read_attr in Hc. destruct (heap st !! self) eqn:E; [|discriminate].
    eapply lookup_lt_Some; exact E. }
  assert (Hcopy : copy = VRef (length (heap st))).
  { destruct fuel as [|f]; simpl in Hd; rewrite lookup_empty in Hd;
      [discriminate|].
    destruct (heap st !! t) as [[d|xs|c attrs]|]; try discriminate;
      apply pbind_Ok in Hd as ([[w m1] hh] & _ & Hd); injection Hd as <- _ _;
      reflexivity. }
  subst copy.
  assert (Hst3 : st3 = set_attr self "_resolved" (VRef (length (heap st))) st1).
  { unfold items_of in Hi. destruct ea as [| | | |e]; try discriminate.
    unfold bind, get_state in Hi.
    destruct (heap _ !! e) as [[d|xs|c attrs]|]; try discriminate.
    - injection Hi as _ <-. reflexivity.
    - destruct (dict_has "items" attrs); discriminate. }
  subst st3.
  assert (Hst1 : st1 = State (heap st1) (type_registry st))
    by (destruct st1; simpl in *; congruence).
  rewrite Hst1 in Hea, Hi, Ho.
  assert (Hres : read_attr
            (heap (set_attr self "_resolved" (VRef (length (heap st)))
                     (State (heap st1) (type_registry st))))
            self "_resolved" = Ok (VRef (length (heap st)))).
  { apply set_attr_read. eapply read_attr_class. exact Hea. }
  exists alias, k, t, memo', (heap st1), ea, items.
  cbv zeta. destruct u'.
  repeat (split; [assumption|]).
  split; [|exact Hself].
  pose proof (apply_overrides_cache self (length (heap st)) items _
                  ltac:(lia) Hres) as Hinv.
  rewrite Ho in Hinv. destruct Hinv as [Hinv _].
  rewrite Hinv in Hfin. injection Hfin as <-. reflexivity.
Qed.




Lemma small_state_resolve :
  resolve 3 2 small_state = Ok (VRef 4, small_state_resolved).
Proof. vm_compute. reflexivity. Qed.

(** ** Resolution terminates *)

Lemma filter_length_le {A} (p q : A -> bool) (xs : list A) :
  (forall x, In x xs -> p x = true -> q x = true) ->
  length (List.filter p xs) <= length (List.filter q xs).
Proof.
  induction xs as [|x xs IH]; intros H; simpl; [lia|].
  assert (IH' : length (List.filter p xs) <= length (List.filter q xs)).
  { apply IH. intros y Hy. apply H. right. exact Hy. }
  destruct (p x) eqn:Ep.
  - rewrite (H x (or_introl eq_refl) Ep). simpl. lia.
  - destruct (q x); simpl; lia.
Qed.

Lemma filter_length_lt {A} (p q : A -> bool) (xs : list A) x0 :
  (forall x, In x xs -> p x = true -> q x = true) ->
  In x0 xs -> p x0 = false -> q x0 = true ->
  length (List.filter p xs) < length (List.filter q xs).
Proof.
  induction xs as [|x xs IH]; intros H Hin Hp Hq; simpl; [destruct Hin|].
  assert (Hle : length (List.filter p xs) <= length (List.filter q xs)).
  { apply filter_length_le. intros y Hy. apply H. right. exact Hy. }
  destruct Hin as [->|Hin].
  - rewrite Hp, Hq. simpl. lia.
  - assert (IH' : length (List.filter p xs) < length (List.filter q xs)).
    { apply IH; auto. intros y Hy. apply H. right. exact Hy. }
    destruct (p x) eqn:Ep.
    + rewrite (H x (or_introl eq_refl) Ep). simpl. lia.
    + destruct (q x); simpl; lia.
Qed.

Lemma unvisited_mono n0 (memo memo' : gmap nat nat) :
  memo ⊆ memo' -> unvisited n0 memo' <= unvisited n0 memo.
Proof.
  intros Hsub. apply filter_length_le. intros l _ Hl.
  apply negb_true_iff, bool_decide_eq_false in Hl.
  apply negb_true_iff, bool_decide_eq_false. intros [x Hx].
  apply Hl. exists x. eapply lookup_weaken; eassumption.
Qed.

Lemma unvisited_insert n0 (memo : gmap nat nat) l x :
  l < n0 -> memo !! l = None ->
  unvisited n0 (<[l := x]> memo) < unvisited n0 memo.
Proof.
  intros Hl Hnone. apply (filter_length_lt _ _ _ l).
  - intros k _ Hk.
    apply negb_true_iff, bool_decide_eq_false in Hk.
    apply negb_true_iff, bool_decide_eq_false. intros [y Hy].
    apply Hk. destruct (decide (l = k)) as [->|Hne].
    + rewrite lookup_insert_eq. eauto.
    + rewrite lookup_insert_ne by exact Hne. eauto.
  - apply in_seq. lia.
  - apply negb_false_iff, bool_decide_eq_true.
    rewrite lookup_insert_eq. eauto.
  - apply negb_true_iff, bool_decide_eq_false. rewrite Hnone.
    intros [y Hy]. discriminate.
Qed.

Lemma unvisited_bound n0 memo : unvisited n0 memo <= n0.
Proof.
  unfold unvisited.
  etrans; [apply (proj1 (filter_length_bound _ _))|].
  rewrite length_seq. lia.
Qed.

Lemma wf_heap_values h l o :
  wf_heap h = true -> h !! l = Some o ->
  Forall (fun v => validb (length h) v = true) (obj_values o).
Proof.
  intros Hwf Hl. unfold wf_heap in Hwf.
  rewrite forallb_forall in Hwf.
  assert (Hin : In o h).
  { apply list_elem_of_In. eapply list_elem_of_lookup_2. exact Hl. }
  specialize (Hwf o Hin). rewrite forallb_forall in Hwf.
  apply Forall_forall. intros v Hv. apply Hwf. apply list_elem_of_In. exact Hv.
Qed.

Lemma copy_items_total h0 f cp :
  copier_total h0 f cp -> copier_inv (length h0) cp ->
  forall kvs memo h,
    length h0 <= length h ->
    (forall l, l < length h0 -> h !! l = h0 !! l) ->
    memo_fresh (length h0) memo ->
    Forall (fun v => validb (length h0) v = true) (map snd kvs) ->
    unvisited (length h0) memo <= f ->
    exists r, copy_items cp memo h kvs = Ok r.
Proof.
  intros Htot Hinv. induction kvs as [|[k x] kvs IH];
    intros memo h Hlen Hsame Hm Hv Hu; simpl.
  - eauto.
  - simpl in Hv. apply Forall_cons in Hv as [Hx Hv].
    destruct (Htot memo h x Hlen Hsame Hm Hx Hu) as [[[y memo1] h1] Hy].
    rewrite Hy. simpl.
    destruct (Hinv _ _ _ _ _ _ Hlen Hm Hy) as (L & F & M & S & _).
    destruct (IH memo1 h1) as [[[ys memo2] h2] Hys]; auto.
    + lia.
    + intros l Hl. rewrite F by exact Hl. apply Hsame, Hl.
    + pose proof (unvisited_mono (length h0) _ _ S). lia.
    + rewrite Hys. simpl. eauto.
Qed.

Lemma copy_values_total h0 f cp :
  copier_total h0 f cp -> copier_inv (length h0) cp ->
  forall xs memo h,
    length h0 <= length h ->
    (forall l, l < length h0 -> h !! l = h0 !! l) ->
    memo_fresh (length h0) memo ->
    Forall (fun v => validb (length h0) v = true) xs ->
    unvisited (length h0) memo <= f ->
    exists r, copy_values cp memo h xs = Ok r.
Proof.
  intros Htot Hinv. induction xs as [|x xs IH];
    intros memo h Hlen Hsame Hm Hv Hu; simpl.
  - eauto.
  - apply Forall_cons in Hv as [Hx Hv].
    destruct (Htot memo h x Hlen Hsame Hm Hx Hu) as [[[y memo1] h1] Hy].
    rewrite Hy. simpl.
    destruct (Hinv _ _ _ _ _ _ Hlen Hm Hy) as (L & F & M & S & _).
    destruct (IH memo1 h1) as [[[ys memo2] h2] Hys]; auto.
    + lia.
    + intros l Hl. rewrite F by exact Hl. apply Hsame, Hl.
    + pose proof (unvisited_mono (length h0) _ _ S). lia.
    + rewrite Hys. simpl. eauto.
Qed.

(** On a well-formed store the copy returns as soon as the budget covers
    the objects not yet in the memo. *)
Lemma deepcopy_total h0 :
  wf_heap h0 = true -> forall f, copier_total h0 f (deepcopy f).
Proof.
  intros Hwf. induction f as [|f IH]; intros memo h v Hlen Hsame Hm Hv Hu.
  - destruct v as [| | | |l]; simpl; eauto.
    destruct (memo !! l) as [l'|] eqn:El; [eauto|].
    simpl in Hv. apply Nat.ltb_lt in Hv.
    pose proof (unvisited_insert (length h0) memo l 0 Hv El). lia.
  - destruct v as [| | | |l]; simpl; eauto.
    destruct (memo !! l) as [l'|] eqn:El; [eauto|].
    simpl in Hv. apply Nat.ltb_lt in Hv.
    pose proof (unvisited_insert (length h0) memo l (length h) Hv El) as Hdec.
    assert (Hu1 : unvisited (length h0) (<[l := length h]> memo) <= f) by lia.
    assert (Hm1 : memo_fresh (length h0) (<[l := length h]> memo))
      by (apply memo_fresh_insert; assumption).
    assert (Hlen1 : forall o, length h0 <= length (h ++ [o]))
      by (intros o; rewrite length_app; simpl; lia).
    assert (Hsame1 : forall o l0, l0 < length h0 -> (h ++ [o]) !! l0 = h0 !! l0).
    { intros o l0 Hl0. rewrite lookup_app_l by lia. apply Hsame, Hl0. }
    rewrite (Hsame l Hv).
    destruct (lookup_lt_is_Some_2 h0 l Hv) as [o Ho]. rewrite Ho.
    pose proof (wf_heap_values h0 l o Hwf Ho) as Hvals.
    destruct o as [kvs|xs|c attrs]; simpl in Hvals.
    + destruct (copy_items_total h0 f _ IH (deepcopy_inv (length h0) f)
                  kvs _ (h ++ [ODict []]) (Hlen1 _) (Hsame1 _) Hm1 Hvals Hu1)
        as [[[kvs' memo1] h1] Hc].
      rewrite Hc. simpl. eauto.
    + destruct (copy_values_total h0 f _ IH (deepcopy_inv (length h0) f)
                  xs _ (h ++ [OList []]) (Hlen1 _) (Hsame1 _) Hm1 Hvals Hu1)
        as [[[xs' memo1] h1] Hc].
      rewrite Hc. simpl. eauto.
    + destruct (copy_items_total h0 f _ IH (deepcopy_inv (length h0) f)
                  attrs _ (h ++ [OInst c []]) (Hlen1 _) (Hsame1 _) Hm1 Hvals Hu1)
        as [[[attrs' memo1] h1] Hc].
      rewrite Hc. simpl. eauto.
Qed.















(** ** One step of resolution *)

Lemma set_attr_class self n v st l :
  class_of (heap (set_attr self n v st)) l = class_of (heap st) l.
Proof.
  unfold set_attr, class_of.
  destruct (heap st !! self) as [[d|xs|c attrs]|] eqn:E; try reflexivity.
  simpl. destruct (decide (l = self)) as [->|Hne].
  - rewrite list_lookup_insert_eq by (eapply lookup_lt_Some; exact E).
    rewrite E. reflexivity.
  - rewrite list_lookup_insert_ne by congruence. reflexivity.
Qed.

(** The class of what [resolve] returns is the class of the registered
    target. *)
Lemma resolve_class fuel self st r st' alias k t c :
  read_attr (heap st) self "_resolved" = Ok VNone ->
  read_attr (heap st) self "alias" = Ok alias ->
  hash_key (heap st) alias = Ok k ->
  type_registry st !! k = Some t ->
  class_of (heap st) t = Some c ->
  resolve fuel self st = Ok (r, st') ->
  r = VRef (length (heap st)) /\
  class_of (heap st') (length (heap st)) = Some c.
Proof.
  intros Hc Ha Hk Ht Hcl H.
  destruct (resolve_uncached fuel self st r st' Hc H)
    as (alias' & k' & t' & memo' & h1 & ea & items &
        Ha' & Hk' & Ht' & Hd & Hres & _ & _ & Ho & -> & Hself).
  rewrite Ha in Ha'. injection Ha' as <-.
  rewrite Hk in Hk'. injection Hk' as <-.
  rewrite Ht in Ht'. injection Ht' as <-.
  split; [reflexivity|].
  unfold class_of in Hcl.
  destruct (heap st !! t) as [[d|xs|c0 attrs]|] eqn:Et; try discriminate.
  injection Hcl as ->.
  destruct (deepcopy_root fuel (heap st) t c attrs _ _ _ Et Hd)
    as (_ & _ & _ & attrs' & Hnew & _ & _).
  pose proof (apply_overrides_cache self (length (heap st)) items _
                ltac:(lia) Hres) as Hinv.
  rewrite Ho in Hinv. destruct Hinv as (_ & _ & _ & Hclass).
  rewrite Hclass, set_attr_class. unfold class_of. simpl.
  rewrite Hnew. reflexivity.
Qed.

(** With no overrides to apply, [resolve] returns the copy. *)
Lemma resolve_returns fuel self st alias k t c e :
  wf_heap (heap st) = true -> length (heap st) < fuel ->
  read_attr (heap st) self "_resolved" = Ok VNone ->
  read_attr (heap st) self "alias" = Ok alias ->
  read_attr (heap st) self "extra_attrs" = Ok (VRef e) ->
  heap st !! e = Some (ODict []) ->
  hash_key (heap st) alias = Ok k ->
  type_registry st !! k = Some t ->
  class_of (heap st) t = Some c ->
  exists st', resolve fuel self st = Ok (VRef (length (heap st)), st').
Proof.
  intros Hwf Hfuel Hc Ha He Hd Hk Ht Hcl.
  unfold class_of in Hcl.
  destruct (heap st !! t) as [[d|xs|c0 attrs]|] eqn:Et; try discriminate.
  assert (Htl : t < length (heap st)) by (eapply lookup_lt_Some; exact Et).
  destruct (deepcopy_total (heap st) Hwf fuel ∅ (heap st) (VRef t))
    as [[[v' memo'] h1] Hcopy]; auto.
  { intros l l' Hl. rewrite lookup_empty in Hl. discriminate. }
  { simpl. apply Nat.ltb_lt. exact Htl. }
  { pose proof (unvisited_bound (length (heap st)) ∅). lia. }
  destruct (deepcopy_root fuel (heap st) t c0 attrs _ _ _ Et Hcopy)
    as (-> & Hlen & Hframe & _).
  assert (Hself : exists cs sattrs, heap st !! self = Some (OInst cs sattrs) /\
            dict_get "extra_attrs" sattrs = Some (VRef e)).
  { unfold read_attr in He.
    destruct (heap st !! self) as [[d|xs|cs sattrs]|]; try discriminate.
    destruct (dict_get "extra_attrs" sattrs) eqn:Eg; try discriminate.
    injection He as ->. eauto. }
  destruct Hself as (cs & sattrs & Hs & Hsea).
  assert (Hsl : self < length (heap st)) by (eapply lookup_lt_Some; exact Hs).
  assert (Hel : e < length (heap st)) by (eapply lookup_lt_Some; exact Hd).
  set (st2 := set_attr self "_resolved" (VRef (length (heap st)))
                (State h1 (type_registry st))).
  assert (Hst2 : heap st2 =
            <[self := OInst cs (dict_set "_resolved" (VRef (length (heap st))) sattrs)]> h1).
  { unfold st2, set_attr. simpl. rewrite (Hframe self Hsl), Hs. reflexivity. }
  exists st2. unfold resolve.
  rewrite (bind_step _ _ st VNone st)
    by (apply get_attr_Ok; auto).
  rewrite (bind_step _ _ st alias st) by (apply get_attr_Ok; auto).
  rewrite (bind_step _ _ st (VRef t) st)
    by (unfold from_alias, bind, get_state, lift; rewrite Hk, Ht; reflexivity).
  rewrite (bind_step _ _ st (VRef (length (heap st))) (State h1 (type_registry st)))
    by (unfold deepcopy_step; rewrite Hcopy; reflexivity).
  rewrite (bind_step _ _ _ tt st2) by reflexivity.
  assert (Hs2 : heap st2 !! self =
            Some (OInst cs (dict_set "_resolved" (VRef (length (heap st))) sattrs))).
  { rewrite Hst2. apply list_lookup_insert_eq. lia. }
  rewrite (bind_step _ _ st2 (VRef e) st2).
  2:{ apply get_attr_Ok. split; [reflexivity|]. unfold read_attr.
      rewrite Hs2. rewrite dict_get_set_ne by discriminate.
      rewrite Hsea. reflexivity. }
  cbv beta.
  rewrite (bind_step (items_of (VRef e)) _ st2 [] st2).
  2:{ unfold items_of, bind, get_state. rewrite Hst2.
      rewrite list_lookup_insert_ne by (intros ->; congruence).
      rewrite (Hframe e Hel), Hd. reflexivity. }
  cbv beta.
  rewrite (bind_step _ _ st2 tt st2) by reflexivity.
  apply get_attr_Ok. split; [reflexivity|]. unfold read_attr.
  rewrite Hs2, dict_get_set_eq. reflexivity.
Qed.


Lemma cyclic_state_built :
  bind (from_dict 1 (VRef 0)) (fun _ => from_dict 1 (VRef 1))
    (State [ODict [("alias", VStr "A"); ("type", VStr "B")];
            ODict [("alias", VStr "B"); ("type", VStr "A")]] ∅)
  = Ok (VRef 4, cyclic_state).
Proof. vm_compute. reflexivity. Qed.



(** ** Overrides named like a parameter of the base class *)

Lemma bind_keywords_extra bound open kw named extra :
  bind_keywords bound open kw = Ok (named, extra) ->
  extra = List.filter (fun kv => negb (among open kv)) kw.
Proof.
  revert named extra. induction kw as [|[k v] kw IH]; intros named extra H.
  - simpl in H. injection H as <- <-. reflexivity.
  - simpl in H.
    destruct (bool_decide (k = "self") || bool_decide (k ∈ bound));
      [discriminate|].
    apply pbind_Ok in H as ([named1 extra1] & Hrest & H).
    specialize (IH _ _ Hrest). cbn [List.filter]. unfold among at 1. cbn [fst].
    destruct (bool_decide (k ∈ open)); injection H as <- <-; cbn [negb];
      rewrite IH; reflexivity.
Qed.

Lemma bind_args_extra ps pos kw named extra :
  bind_args ps pos kw = Ok (named, extra) ->
  extra = List.filter
            (fun kv => negb (among (map fst (drop (length pos) ps)) kv)) kw.
Proof.
  unfold bind_args. destruct (bool_decide (length ps < length pos));
    [discriminate|].
  intros H. apply pbind_Ok in H as ([named1 extra1] & Hk & H).
  apply pbind_Ok in H as (rest & _ & H). injection H as _ <-.
  eapply bind_keywords_extra. exact Hk.
Qed.

Lemma filter_excludes names k (kw : pydict) :
  k ∈ names ->
  dict_get k (List.filter (fun kv => negb (among names kv)) kw) = None.
Proof.
  intros Hk. induction kw as [|[k0 v0] kw IH]; [reflexivity|].
  cbn [List.filter]. unfold among at 1. cbn [fst].
  destruct (bool_decide (k0 ∈ names)) eqn:E; cbn [negb]; [exact IH|].
  cbn [dict_get]. destruct (String.eqb_spec k k0) as [->|Hne]; [|exact IH].
  apply bool_decide_eq_false in E. contradiction.
Qed.

(** The Proxy a call of [ProxyType] builds: whatever the keywords, its
    [extra_attrs] dictionary has no key [logical], [alias] or [doc],
    because [RecapType.__init__] binds those to its own parameters. *)
Lemma new_proxy_extras pos kw st p st' :
  new ProxyType pos kw st = Ok (VRef p, st') ->
  exists e items,
    read_attr (heap st') p "extra_attrs" = Ok (VRef e) /\
    heap st' !! e = Some (ODict items) /\
    dict_get "logical" items = None /\
    dict_get "alias" items = None /\
    dict_get "doc" items = None.
Proof.
  intros H.
  destruct (bind_args (init_sig ProxyType) pos kw) as [[named extra]| | |] eqn:Hb.
  2-4: (unfold new, bind, alloc, init, lift in H; rewrite Hb in H; discriminate).
  destruct (bind_args RecapType_sig [VStr "proxy"] extra)
    as [[named0 extra0]| | |] eqn:Hb0.
  2-4: (unfold new in H; apply bind_Ok in H as (s & st1 & Hal & H);
        injection Hal as <- <-;
        apply bind_Ok in H as (u & st2 & H & _);
        unfold init in H; apply bind_Ok in H as ([nm ex] & st3 & Hl & H);
        unfold lift in Hl; rewrite Hb in Hl; injection Hl as <- <- <-;
        apply bind_Ok in H as (u1 & st4 & H & _);
        unfold RecapType_init in H;
        apply bind_Ok in H as ([nm0 ex0] & st5 & Hl & _);
        unfold lift in Hl; rewrite Hb0 in Hl; discriminate).
  rewrite (new_run ProxyType pos kw st named [VStr "proxy"] extra named0 extra0)
    in H.
  - apply bind_Ok in H as (u & st1 & Hreg & H).
    assert (Hst1 : exists R1,
      st1 = State (heap st ++
                     [OInst ProxyType (base_attrs named0 (S (length (heap st))) []);
                      ODict extra0]) R1).
    { unfold register_self in Hreg.
      destruct (arg "alias" named0);
        try (injection Hreg as _ <-; eauto; fail);
        unfold bind, get_state, lift in Hreg;
        match type of Hreg with
        | context [hash_key ?hh ?v] => destruct (hash_key hh v); try discriminate
        end;
        cbn [heap type_registry] in Hreg;
        match type of Hreg with
        | context [?m !! ?k] => destruct (m !! k); try discriminate
        end;
        injection Hreg as _ <-; unfold set_registry; simpl; eauto. }
    destruct Hst1 as [R1 ->].
    unfold finish, bind, modify in H. rewrite !set_attr_fresh in H.
    unfold ret in H. injection H as <- <-. cbn [heap].
    exists (S (length (heap st))), extra0.
    pose proof (bind_args_extra _ _ _ _ _ Hb0) as Hex. simpl in Hex.
    split; [|split; [|split; [|split]]].
    + unfold read_attr. rewrite list_lookup_middle by reflexivity. reflexivity.
    + rewrite lookup_app_r by lia.
      replace (S (length (heap st)) - length (heap st)) with 1 by lia.
      reflexivity.
    + rewrite Hex. apply filter_excludes. repeat constructor.
    + rewrite Hex. apply filter_excludes. repeat constructor.
    + rewrite Hex. apply filter_excludes. repeat constructor.
  - unfold super_args. rewrite Hb. reflexivity.
  - exact Hb0.
Qed.

(** C4, where the code departs from it.  A Proxy built by the constructor
    never has [doc], [logical] or [alias] among its [extra_attrs], so
    [resolve] has no such override to apply.  Parsing
    [{"type": "uuid", "doc": "user id"}] gives a Proxy whose own [doc] is
    the string and whose [extra_attrs] is empty; resolving it gives a
    [StringType] with [bytes_ = 36], [variable = False], the UUID logical
    type and [doc = None]. *)
Theorem proxy_doc_override_lost :
  (forall pos kw st p st',
      new ProxyType pos kw st = Ok (VRef p, st') ->
      exists e items,
        read_attr (heap st') p "extra_attrs" = Ok (VRef e) /\
        heap st' !! e = Some (ODict items) /\
        dict_get "logical" items = None /\
        dict_get "alias" items = None /\
        dict_get "doc" items = None) /\
  observe (fun st => drop 51 (heap st))
    (bind (from_dict 1 (VRef 50)) (call_resolve 3) uuid_with_doc) =
  Some (VRef 53,
        [OInst ProxyType
           [("type_", VStr "proxy"); ("logical", VNone);
            ("alias", VStr "uuid"); ("doc", VStr "user id");
            ("extra_attrs", VRef 52); ("_resolved", VRef 53)];
         ODict [];
         OInst StringType
           [("type_", VStr "string"); ("logical", VStr "build.recap.UUID");
            ("alias", VNone); ("doc", VNone); ("extra_attrs", VRef 54);
            ("bytes_", VInt 36); ("variable", VBool false)];
         ODict []]).
Proof.
  split; [exact new_proxy_extras|]. vm_compute. reflexivity.
Qed.

Lemma proxy_doc_override_lost_witness :
  exists e items,
    read_attr
      [OInst ProxyType
         [("type_", VStr "proxy"); ("logical", VNone); ("alias", VStr "uuid");
          ("doc", VStr "user id"); ("extra_attrs", VRef 1);
          ("_resolved", VNone)];
       ODict []] 0 "extra_attrs" = Ok (VRef e) /\
    [OInst ProxyType
       [("type_", VStr "proxy"); ("logical", VNone); ("alias", VStr "uuid");
        ("doc", VStr "user id"); ("extra_attrs", VRef 1);
        ("_resolved", VNone)];
     ODict []] !! e = Some (ODict items) /\
    dict_get "logical" items = None /\
    dict_get "alias" items = None /\
    dict_get "doc" items = None.
Proof.
  exact (proj1 proxy_doc_override_lost [VStr "uuid"] [("doc", VStr "user id")]
           (State [] ∅) 0
           (State [OInst ProxyType
                     [("type_", VStr "proxy"); ("logical", VNone);
                      ("alias", VStr "uuid"); ("doc", VStr "user id");
                      ("extra_attrs", VRef 1); ("_resolved", VNone)];
                   ODict []] ∅)
           eq_refl).
Defined.

(** C5, where the code departs from it.  For the mapping
    [{"alias": "A", "type": "A", "extra_attrs": {}, "zzz": 1}] the
    registry's entry for the target alias [A] is the same object before
    and after [resolve], equal to the record taken before the call and
    unequal to it after: the override [extra_attrs] rebinds the copy's
    attribute to the dictionary the Proxy itself holds, and the next
    override, [zzz], is merged into that dictionary. *)
Theorem resolve_mutates_registry_entry :
  observe (fun st => (heap self_proxy_input !! 50, heap st !! 50))
    (entry_before_and_after self_proxy_input) =
  Some ((VRef 52, VRef 52, Ok true, Ok false),
        (Some (ODict []), Some (ODict [("zzz", VInt 1)]))).
Proof. vm_compute. reflexivity. Qed.

(** ** What the overrides do, and what they leave alone *)

(** The rule of the loop on the resolved copy [c]: an attribute the copy
    answers [hasattr] for is overwritten, any other entry is merged into
    the dictionary that the copy's [extra_attrs] refers to. *)
Lemma apply_override_semantics self attr x st st' c :
  read_attr (heap st) self "_resolved" = Ok (VRef c) ->
  apply_override self attr x st = Ok (tt, st') ->
  (hasattr (heap st) (VRef c) attr = Ok true /\
   read_attr (heap st') c attr = Ok x) \/
  (hasattr (heap st) (VRef c) attr = Ok false /\
   exists e items,
     read_attr (heap st) c "extra_attrs" = Ok (VRef e) /\
     heap st' !! e = Some (ODict items) /\
     dict_get attr items = Some x).
Proof.
  intros Hr H. pose proof (apply_override_effect self attr x st) as He.
  rewrite H in He.
  destruct He as [ c' cl attrs Hr' Hh Hc | c' e items Hr' Hh Hea Hi ];
    rewrite Hr in Hr'; injection Hr' as <-.
  - left. split; [exact Hh|]. unfold read_attr. simpl.
    rewrite list_lookup_insert_eq by (eapply lookup_lt_Some; exact Hc).
    rewrite dict_get_set_eq. reflexivity.
  - right. split; [exact Hh|]. exists e, (dict_set attr x items).
    split; [exact Hea|]. split; [|apply dict_get_set_eq]. simpl.
    apply list_lookup_insert_eq. eapply lookup_lt_Some. exact Hi.
Qed.

Lemma apply_override_frame h0 self c attr x st st' :
  attr <> "extra_attrs" ->
  loop_inv h0 self c st ->
  apply_override self attr x st = Ok (tt, st') ->
  loop_inv h0 self c st' /\ type_registry st' = type_registry st.
Proof.
  intros Hattr (Hr & Hc & Hs & Hea & Hframe) H.
  pose proof (apply_override_effect self attr x st) as He.
  rewrite H in He.
  destruct He as [ c' cl attrs Hr' Hh Hcl | c' e items Hr' Hh Hea' Hi ];
    rewrite Hr in Hr'; injection Hr' as <-.
  - split; [|reflexivity]. unfold loop_inv. simpl.
    split; [|split; [exact Hc|split; [exact Hs|split]]].
    + unfold read_attr. rewrite list_lookup_insert_ne by lia. exact Hr.
    + intros ea. unfold read_attr.
      rewrite list_lookup_insert_eq by (eapply lookup_lt_Some; exact Hcl).
      rewrite dict_get_set_ne by congruence.
      intros Hx. apply Hea. unfold read_attr. rewrite Hcl. exact Hx.
    + intros l Hl Hne. rewrite list_lookup_insert_ne by lia.
      apply Hframe; assumption.
  - pose proof (Hea _ Hea') as Hfresh. simpl in Hfresh.
    assert (Hec : e <> c).
    { intros ->. unfold read_attr in Hea'. rewrite Hi in Hea'. discriminate. }
    split; [|reflexivity]. unfold loop_inv. simpl.
    split; [|split; [exact Hc|split; [exact Hs|split]]].
    + unfold read_attr. rewrite list_lookup_insert_ne by lia. exact Hr.
    + intros ea. unfold read_attr.
      rewrite list_lookup_insert_ne by exact Hec.
      intros Hx. apply Hea. exact Hx.
    + intros l Hl Hne. rewrite list_lookup_insert_ne by lia.
      apply Hframe; assumption.
Qed.

Lemma apply_overrides_frame h0 self c items st st' :
  Forall (fun kv => fst kv <> "extra_attrs") items ->
  loop_inv h0 self c st ->
  apply_overrides self items st = Ok (tt, st') ->
  loop_inv h0 self c st' /\ type_registry st' = type_registry st.
Proof.
  intros Hk. revert st. induction Hk as [|[attr x] items Hne _ IH];
    intros st Hinv H; simpl in H.
  - injection H as <-. auto.
  - apply bind_Ok in H as ([] & st1 & H1 & H).
    destruct (apply_override_frame h0 self c attr x st st1 Hne Hinv H1)
      as [Hinv1 HR1].
    destruct (IH st1 Hinv1 H) as [Hinv2 HR2].
    split; [exact Hinv2|congruence].
Qed.

Lemma no_key_Forall k (items : pydict) :
  dict_get k items = None -> Forall (fun kv => fst kv <> k) items.
Proof.
  induction items as [|[k0 v0] items IH]; simpl; [constructor|].
  destruct (String.eqb_spec k k0) as [->|Hne]; [discriminate|].
  intros H. constructor; [simpl; congruence|apply IH, H].
Qed.

(** When the Proxy has no override named [extra_attrs], a [resolve] that
    returns leaves the registry as it was and every object that existed
    before the call as it was, the Proxy itself apart (it gains its
    cache). *)
Lemma resolve_frame fuel self st r st' e items :
  read_attr (heap st) self "extra_attrs" = Ok (VRef e) ->
  heap st !! e = Some (ODict items) ->
  dict_get "extra_attrs" items = None ->
  resolve fuel self st = Ok (r, st') ->
  type_registry st' = type_registry st /\
  forall l, l < length (heap st) -> l <> self -> heap st' !! l = heap st !! l.
Proof.
  intros He Hd Hno H.
  destruct (read_attr (heap st) self "_resolved") as [cached| | |] eqn:Ec;
    try (unfold resolve, bind, get_attr, lift in H; rewrite Ec in H;
         discriminate).
  destruct (decide (cached = VNone)) as [->|Hne].
  2:{ unfold resolve, bind, get_attr, lift in H. rewrite Ec in H.
      destruct cached; [congruence| | | |]; rewrite Ec in H;
        injection H as Hx <-; auto. }
  destruct (resolve_uncached fuel self st r st' Ec H)
    as (alias & k & t & memo' & h1 & ea & items' &
        _ & _ & Ht & Hcopy & Hres & Hea & Hit & Ho & -> & Hself).
  set (n0 := length (heap st)) in *.
  set (st2 := set_attr self "_resolved" (VRef n0)
                (State h1 (type_registry st))) in *.
  assert (Hm0 : memo_fresh n0 ∅).
  { intros l l' Hl. rewrite lookup_empty in Hl. discriminate. }
  destruct (deepcopy_inv n0 fuel ∅ (heap st) (VRef t) _ _ _ (le_n _) Hm0 Hcopy)
    as (Hlen & Hframe & _ & _ & _).
  assert (Hs : exists cs sattrs, heap st !! self = Some (OInst cs sattrs) /\
            dict_get "extra_attrs" sattrs = Some (VRef e)).
  { unfold read_attr in He.
    destruct (heap st !! self) as [[d|xs|cs sattrs]|]; try discriminate.
    destruct (dict_get "extra_attrs" sattrs) eqn:Eg; try discriminate.
    injection He as ->. eauto. }
  destruct Hs as (cs & sattrs & Hs & Hsea).
  assert (Hel : e < n0) by (eapply lookup_lt_Some; exact Hd).
  assert (Hst2 : heap st2 =
            <[self := OInst cs (dict_set "_resolved" (VRef n0) sattrs)]> h1).
  { unfold st2, set_attr. simpl. rewrite (Hframe self Hself), Hs. reflexivity. }
  assert (Hframe2 : forall l, l < n0 -> l <> self -> heap st2 !! l = heap st !! l).
  { intros l Hl Hls. rewrite Hst2. rewrite list_lookup_insert_ne by congruence.
    apply Hframe, Hl. }
  assert (Hea2 : ea = VRef e).
  { unfold read_attr in Hea. rewrite Hst2 in Hea.
    rewrite list_lookup_insert_eq in Hea by lia.
    rewrite dict_get_set_ne in Hea by discriminate.
    rewrite Hsea in Hea. injection Hea as <-. reflexivity. }
  subst ea.
  assert (Hitems : items' = items).
  { unfold items_of, bind, get_state in Hit.
    rewrite (Hframe2 e Hel) in Hit by (intros ->; congruence).
    rewrite Hd in Hit. injection Hit as <-. reflexivity. }
  subst items'.
  assert (Hinv : loop_inv (heap st) self n0 st2).
  { unfold loop_inv. split; [exact Hres|]. split; [apply le_n|].
    split; [exact Hself|]. split; [|exact Hframe2].
    intros ea Hx.
    destruct (class_of (heap st) t) as [c|] eqn:Ecl.
    - unfold class_of in Ecl.
      destruct (heap st !! t) as [[d|xs|c0 attrs]|] eqn:Et; try discriminate.
      destruct (deepcopy_root fuel (heap st) t c0 attrs _ _ _ Et Hcopy)
        as (_ & _ & _ & attrs' & Hnew & _ & Hfresh).
      unfold read_attr in Hx. rewrite Hst2 in Hx.
      rewrite list_lookup_insert_ne in Hx by (fold n0; lia).
      fold n0 in Hnew. rewrite Hnew in Hx.
      destruct (dict_get "extra_attrs" attrs') as [w|] eqn:Ew; try discriminate.
      injection Hx as <-.
      clear -Hfresh Ew. induction attrs' as [|[k0 v0] attrs' IH];
        cbn [dict_get] in Ew; [discriminate|].
      apply Forall_cons in Hfresh as [Hv Hfresh].
      destruct (String.eqb "extra_attrs" k0); [injection Ew as <-; exact Hv|].
      apply IH; assumption.
    - exfalso. unfold read_attr in Hx. rewrite Hst2 in Hx.
      rewrite list_lookup_insert_ne in Hx by lia.
      destruct fuel as [|f]; simpl in Hcopy; rewrite lookup_empty in Hcopy;
        [discriminate|].
      unfold class_of in Ecl.
      destruct (heap st !! t) as [[d|xs|c0 attrs]|] eqn:Et; try discriminate.
      + apply pbind_Ok in Hcopy as ([[kvs' memo1] hh] & Hci & Hcopy).
        injection Hcopy as <- <-.
        assert (Hn1 : n0 <= length (heap st ++ [ODict []]))
          by (rewrite length_app; simpl; unfold n0; lia).
        destruct (copy_items_inv n0 _ (deepcopy_inv n0 f) _ _ _ _ _ _ Hn1
                    (memo_fresh_insert n0 ∅ t n0 Hm0 (le_n _)) Hci)
          as (L & _). rewrite length_app in L. simpl in L.
        rewrite list_lookup_insert_eq in Hx by (unfold n0 in *; lia).
        discriminate.
      + apply pbind_Ok in Hcopy as ([[xs' memo1] hh] & Hci & Hcopy).
        injection Hcopy as <- <-.
        assert (Hn1 : n0 <= length (heap st ++ [OList []]))
          by (rewrite length_app; simpl; unfold n0; lia).
        destruct (copy_values_inv n0 _ (deepcopy_inv n0 f) _ _ _ _ _ _ Hn1
                    (memo_fresh_insert n0 ∅ t n0 Hm0 (le_n _)) Hci)
          as (L & _). rewrite length_app in L. simpl in L.
        rewrite list_lookup_insert_eq in Hx by (unfold n0 in *; lia).
        discriminate. }
  destruct (apply_overrides_frame (heap st) self n0 items st2 st'
              (no_key_Forall _ _ Hno) Hinv Ho) as [(_ & _ & _ & _ & Hf) HR].
  split; [|intros l Hl Hls; apply Hf; assumption].
  rewrite HR. unfold st2, set_attr. simpl.
  destruct (h1 !! self) as [[d|xs|c attrs]|]; reflexivity.
Qed.

(** * Lemmas for the further properties *)

Lemma finish_exact c h R named named0 extra0 :
  finish c (length h) named
    (State (h ++ [OInst c (base_attrs named0 (S (length h)) []); ODict extra0]) R)
  = Ok (tt, State (h ++ OInst c (instance_attrs c named named0 (length h))
                     :: ODict extra0 :: new_tail c named) R).
Proof.
  destruct c; unfold finish, instance_attrs, new_tail;
    try (unfold modify; rewrite assign_fields_fresh; reflexivity).
  - reflexivity.
  - destruct (arg "fields" named) eqn:E;
      try (unfold modify; rewrite set_attr_fresh; reflexivity).
    unfold bind, alloc, modify. cbn [heap type_registry].
    rewrite <- app_assoc. cbn [app]. rewrite set_attr_fresh.
    rewrite length_app. cbn [length].
    replace (length h + 2) with (S (S (length h))) by lia. reflexivity.
  - unfold bind, modify. rewrite !set_attr_fresh. reflexivity.
Qed.

Lemma super_args_cases c pos kw :
  super_args c pos kw =
  match c with
  | RecapType => Ok ([], pos, kw)
  | _ => pbind (bind_args (init_sig c) pos kw) (fun '(named, extra) =>
           Ok (named, [VStr (type_tag c)], extra))
  end.
Proof. destruct c; reflexivity. Qed.

(** Every way a constructor call can go. *)
Lemma new_cases c pos kw st :
  new c pos kw st =
  let blank := State (heap st ++ [OInst c []]) (type_registry st) in
  match super_args c pos kw with
  | Ok (named, pos0, kw0) =>
      match bind_args RecapType_sig pos0 kw0 with
      | Ok (named0, extra0) =>
          bind (register_self (length (heap st)) (arg "alias" named0))
            (fun _ =>
               bind (finish c (length (heap st)) named)
                 (fun _ => ret (VRef (length (heap st)))))
            (State (heap st ++ [OInst c (base_attrs named0 (S (length (heap st))) []);
                                ODict extra0]) (type_registry st))
      | Raise e => Raise (e, blank)
      | OutOfFuel => OutOfFuel
      | Unmodelled => Unmodelled
      end
  | Raise e => Raise (e, blank)
  | OutOfFuel => OutOfFuel
  | Unmodelled => Unmodelled
  end.
Proof.
  cbv zeta.
  destruct (super_args c pos kw) as [[[named pos0] kw0]|e| |] eqn:Hs.
  - destruct (bind_args RecapType_sig pos0 kw0) as [[named0 extra0]|e| |] eqn:Hb0.
    + apply (new_run _ _ _ _ _ _ _ _ _ Hs Hb0).
    + destruct c; unfold super_args in Hs;
        try (destruct (bind_args _ pos kw) as [[nm ex]| | |] eqn:Hb;
             simpl in Hs; try discriminate; injection Hs as <- <- <-;
             unfold new, bind, alloc, init, bind, lift; rewrite Hb;
             unfold RecapType_init, bind, lift; cbn [type_tag]; rewrite Hb0; reflexivity).
      injection Hs as <- <- <-.
      unfold new, bind, alloc, init, RecapType_init, bind, lift.
      rewrite Hb0. reflexivity.
    + destruct c; unfold super_args in Hs;
        try (destruct (bind_args _ pos kw) as [[nm ex]| | |] eqn:Hb;
             simpl in Hs; try discriminate; injection Hs as <- <- <-;
             unfold new, bind, alloc, init, bind, lift; rewrite Hb;
             unfold RecapType_init, bind, lift; cbn [type_tag]; rewrite Hb0; reflexivity).
      injection Hs as <- <- <-.
      unfold new, bind, alloc, init, RecapType_init, bind, lift.
      rewrite Hb0. reflexivity.
    + destruct c; unfold super_args in Hs;
        try (destruct (bind_args _ pos kw) as [[nm ex]| | |] eqn:Hb;
             simpl in Hs; try discriminate; injection Hs as <- <- <-;
             unfold new, bind, alloc, init, bind, lift; rewrite Hb;
             unfold RecapType_init, bind, lift; cbn [type_tag]; rewrite Hb0; reflexivity).
      injection Hs as <- <- <-.
      unfold new, bind, alloc, init, RecapType_init, bind, lift.
      rewrite Hb0. reflexivity.
  - destruct c; unfold super_args in Hs; try discriminate;
      (destruct (bind_args _ pos kw) as [[nm ex]| | |] eqn:Hb;
       simpl in Hs; try discriminate; injection Hs as <-;
       unfold new, bind, alloc, init, bind, lift; rewrite Hb; reflexivity).
  - destruct c; unfold super_args in Hs; try discriminate;
      (destruct (bind_args _ pos kw) as [[nm ex]| | |] eqn:Hb;
       simpl in Hs; try discriminate;
       unfold new, bind, alloc, init, bind, lift; rewrite Hb; reflexivity).
  - destruct c; unfold super_args in Hs; try discriminate;
      (destruct (bind_args _ pos kw) as [[nm ex]| | |] eqn:Hb;
       simpl in Hs; try discriminate;
       unfold new, bind, alloc, init, bind, lift; rewrite Hb; reflexivity).
Qed.

Lemma register_self_Ok self alias st u st1 :
  register_self self alias st = Ok (u, st1) ->
  heap st1 = heap st /\
  (alias = VNone /\ type_registry st1 = type_registry st \/
   exists k, hash_key (heap st) alias = Ok k /\
             type_registry st !! k = None /\
             type_registry st1 = <[k := self]> (type_registry st)).
Proof.
  unfold register_self. intros H.
  destruct alias;
    try (injection H as _ <-; split; [reflexivity|left; split; reflexivity]);
    unfold bind, get_state, lift in H;
    match type of H with
    | context [hash_key ?hh ?v] => destruct (hash_key hh v) as [k| | |] eqn:Hk;
                                   try discriminate
    end;
    destruct (type_registry st !! k) eqn:HR; try discriminate;
    injection H as _ <-; (split; [reflexivity|right; exists k; auto]).
Qed.

Lemma register_self_Raise self alias st e st1 :
  register_self self alias st = Raise (e, st1) -> st1 = st.
Proof.
  unfold register_self. intros H.
  destruct alias; try discriminate;
    unfold bind, get_state, lift in H;
    match type of H with
    | context [hash_key ?hh ?v] => destruct (hash_key hh v) as [k| | |] eqn:Hk;
                                   try discriminate
    end;
    try (injection H as _ <-; reflexivity);
    destruct (type_registry st !! k) eqn:HR; try discriminate;
    injection H as _ <-; reflexivity.
Qed.

(** What a constructor call that returns has done. *)
Lemma new_Ok c pos kw st r st' :
  new c pos kw st = Ok (r, st') ->
  exists named pos0 kw0 named0 extra0,
    super_args c pos kw = Ok (named, pos0, kw0) /\
    bind_args RecapType_sig pos0 kw0 = Ok (named0, extra0) /\
    r = VRef (length (heap st)) /\
    heap st' = heap st ++
                 OInst c (instance_attrs c named named0 (length (heap st)))
                 :: ODict extra0 :: new_tail c named /\
    (arg "alias" named0 = VNone /\ type_registry st' = type_registry st \/
     exists k, (forall h, hash_key h (arg "alias" named0) = Ok k) /\
               type_registry st !! k = None /\
               type_registry st' = <[k := length (heap st)]> (type_registry st)).
Proof.
  rewrite new_cases. cbv zeta.
  destruct (super_args c pos kw) as [[[named pos0] kw0]| | |] eqn:Hs;
    try discriminate.
  destruct (bind_args RecapType_sig pos0 kw0) as [[named0 extra0]| | |] eqn:Hb0;
    try discriminate.
  intros H. apply bind_Ok in H as (u & st1 & Hreg & H).
  apply register_self_Ok in Hreg as [Hh HR]. cbn [heap type_registry] in Hh, HR.
  destruct st1 as [h1 R1]. cbn [heap type_registry] in Hh, HR. subst h1.
  apply bind_Ok in H as (u' & st2 & Hfin & H).
  rewrite finish_exact in Hfin. injection Hfin as _ <-.
  injection H as <- <-.
  exists named, pos0, kw0, named0, extra0.
  split; [first [reflexivity|assumption]|].
  split; [first [reflexivity|assumption]|]. split; [reflexivity|].
  split; [reflexivity|]. cbn [type_registry].
  destruct HR as [[Ha HR]|(k & Hk & Hnone & HR)].
  - left. auto.
  - right. exists k. split; [|auto].
    intros h. destruct (arg "alias" named0); simpl in Hk |- *; try exact Hk.
    destruct (_ !! l) in Hk; discriminate.
Qed.

(** ** Outcomes of argument binding *)

Lemma bind_keywords_outcome bound open kw :
  match bind_keywords bound open kw with
  | Ok _ => no_clash bound kw
  | Raise (TypeError _) => True
  | _ => False
  end.
Proof.
  induction kw as [|[k v] kw IH]; simpl.
  - constructor.
  - destruct (bool_decide (k = "self")) eqn:E1; simpl; [exact I|].
    destruct (bool_decide (k ∈ bound)) eqn:E2; simpl; [exact I|].
    apply bool_decide_eq_false in E1, E2.
    destruct (bind_keywords bound open kw) as [[named extra]|[]| |];
      simpl; try exact IH.
    destruct (bool_decide (k ∈ open)); constructor; auto.
Qed.

Lemma fill_defaults_outcome ps named :
  match fill_defaults ps named with
  | Ok _ | Raise (TypeError _) => True
  | _ => False
  end.
Proof.
  induction ps as [|[p d] ps IH]; simpl; [exact I|].
  destruct (fill_defaults ps named) as [rest|[]| |]; simpl; try exact IH.
  destruct (dict_get p named); [exact I|]. destruct d; exact I.
Qed.

Lemma bind_args_outcome ps pos kw :
  match bind_args ps pos kw with
  | Ok _ | Raise (TypeError _) => True
  | _ => False
  end.
Proof.
  unfold bind_args. destruct (bool_decide (length ps < length pos)); [exact I|].
  cbv zeta.
  pose proof (bind_keywords_outcome
                (map fst (zip (take (length pos) (map fst ps)) pos))
                (map fst (drop (length pos) ps)) kw) as Hk.
  destruct (bind_keywords _ _ kw) as [[named extra]|[]| |]; simpl; try exact Hk.
  pose proof (fill_defaults_outcome (drop (length pos) ps) named) as Hf.
  destruct (fill_defaults _ named) as [rest|[]| |]; simpl; exact Hf.
Qed.

Lemma bind_args_no_clash ps pos kw named extra :
  bind_args ps pos kw = Ok (named, extra) ->
  no_clash (map fst (zip (take (length pos) (map fst ps)) pos)) kw.
Proof.
  unfold bind_args. destruct (bool_decide (length ps < length pos));
    [discriminate|].
  cbv zeta. intros H.
  pose proof (bind_keywords_outcome
                (map fst (zip (take (length pos) (map fst ps)) pos))
                (map fst (drop (length pos) ps)) kw) as Hk.
  destruct (bind_keywords _ _ kw) as [[nm ex]| | |]; try discriminate.
  exact Hk.
Qed.

Lemma filter_keeps names k (kw : pydict) :
  k ∉ names ->
  dict_get k (List.filter (fun kv => negb (among names kv)) kw) = dict_get k kw.
Proof.
  intros Hk. induction kw as [|[k0 v0] kw IH]; [reflexivity|].
  cbn [List.filter dict_get]. unfold among at 1. cbn [fst].
  destruct (String.eqb_spec k k0) as [->|Hne].
  - rewrite bool_decide_eq_false_2 by exact Hk. cbn [negb dict_get].
    rewrite String.eqb_refl. reflexivity.
  - destruct (bool_decide (k0 ∈ names)); cbn [negb dict_get]; [exact IH|].
    destruct (String.eqb_spec k k0); [congruence|exact IH].
Qed.

Lemma no_clash_key bound kw k v :
  no_clash bound kw -> dict_get k kw = Some v -> k <> "self" /\ k ∉ bound.
Proof.
  induction 1 as [|[k0 v0] kw [H1 H2] _ IH]; simpl; [discriminate|].
  destruct (String.eqb_spec k k0) as [->|Hne]; [auto|exact IH].
Qed.

(** The base initialiser as a subclass calls it. *)
Lemma bind_base_Ok tag kw named0 extra0 :
  bind_args RecapType_sig [VStr tag] kw = Ok (named0, extra0) ->
  named0 = base_named tag kw /\ extra0 = extras kw /\
  dict_get "type_" kw = None /\ dict_get "self" kw = None.
Proof.
  intros H. pose proof (bind_args_no_clash _ _ _ _ _ H) as Hc.
  change (map fst (zip (take (length [VStr tag]) (map fst RecapType_sig))
                     [VStr tag])) with ["type_"] in Hc.
  rewrite (bind_base tag kw Hc) in H. injection H as <- <-.
  split; [reflexivity|]. split; [reflexivity|].
  split.
  - destruct (dict_get "type_" kw) eqn:E; [|reflexivity].
    destruct (no_clash_key _ _ _ _ Hc E) as [_ Hn]. exfalso. apply Hn. left.
  - destruct (dict_get "self" kw) eqn:E; [|reflexivity].
    destruct (no_clash_key _ _ _ _ Hc E) as [Hn _]. congruence.
Qed.

Lemma super_args_Ok c pos kw named pos0 kw0 :
  c <> RecapType ->
  super_args c pos kw = Ok (named, pos0, kw0) ->
  bind_args (init_sig c) pos kw = Ok (named, kw0) /\
  pos0 = [VStr (type_tag c)].
Proof.
  intros Hc. rewrite super_args_cases.
  destruct c; try congruence;
    (destruct (bind_args _ pos kw) as [[nm ex]| | |]; simpl; try discriminate;
     intros H; injection H as <- <- <-; auto).
Qed.

(** ** Attributes of a new instance *)

Lemma instance_attrs_base c named tag ex n :
  c <> RecapType ->
  let a := instance_attrs c named (base_named tag ex) n in
  dict_get "type_" a = Some (VStr tag) /\
  dict_get "logical" a = Some (default VNone (dict_get "logical" ex)) /\
  dict_get "doc" a = Some (default VNone (dict_get "doc" ex)) /\
  dict_get "extra_attrs" a = Some (VRef (S n)) /\
  (c <> ProxyType ->
   dict_get "alias" a = Some (default VNone (dict_get "alias" ex))) /\
  (c = ProxyType ->
   dict_get "alias" a = Some (arg "alias" named) /\
   dict_get "_resolved" a = Some VNone).
Proof.
  intros Hc. destruct c; try congruence; cbn;
    repeat split; try congruence; try discriminate.
Qed.

Lemma instance_attrs_own c named named0 n x :
  In x (own_fields c) ->
  (c = StructType -> arg x named <> VNone) ->
  dict_get x (instance_attrs c named named0 n) = Some (arg x named).
Proof.
  intros Hin Hs. destruct c; simpl in Hin;
    repeat (destruct Hin as [<-|Hin]; [try reflexivity|]); try contradiction.
  unfold instance_attrs.
  destruct (arg "fields" named) eqn:E; try reflexivity.
  exfalso. apply Hs; reflexivity.
Qed.

Lemma among_app l1 l2 kv : among (l1 ++ l2) kv = among l1 kv || among l2 kv.
Proof.
  unfold among. destruct (bool_decide (fst kv ∈ l1)) eqn:E1; simpl.
  - apply bool_decide_eq_true. apply bool_decide_eq_true in E1.
    apply elem_of_app. auto.
  - apply bool_decide_eq_false in E1. apply bool_decide_ext.
    rewrite elem_of_app. tauto.
Qed.

Lemma filter_filter_and {A} (p q : A -> bool) (xs : list A) :
  List.filter p (List.filter q xs) = List.filter (fun x => q x && p x) xs.
Proof.
  induction xs as [|x xs IH]; [reflexivity|]. cbn [List.filter].
  destruct (q x); cbn [List.filter andb]; [|exact IH].
  destruct (p x); rewrite IH; reflexivity.
Qed.

Lemma zip_take_fst (names : list string) (pos : list value) :
  length pos <= length names ->
  map fst (zip (take (length pos) names) pos) = take (length pos) names.
Proof.
  intros H. apply fst_zip. rewrite length_take. lia.
Qed.

(** The keywords a call leaves for [extra_attrs]. *)
Lemma extras_leftover c pos kw named extra :
  bind_args (init_sig c) pos kw = Ok (named, extra) ->
  extras extra = leftover c kw.
Proof.
  intros H. pose proof (bind_args_extra _ _ _ _ _ H) as Hex.
  pose proof (bind_args_no_clash _ _ _ _ _ H) as Hc.
  assert (Hlen : length pos <= length (map fst (init_sig c))).
  { unfold bind_args in H.
    destruct (bool_decide (length (init_sig c) < length pos)) eqn:E;
      [discriminate|].
    apply bool_decide_eq_false in E. rewrite length_map. lia. }
  rewrite zip_take_fst in Hc by exact Hlen.
  subst extra. unfold extras, leftover, params.
  rewrite filter_filter_and. apply List.filter_ext_in.
  intros [k v] Hin. rewrite among_app. rewrite negb_orb. f_equal. f_equal.
  unfold among. cbn [fst]. apply bool_decide_ext.
  rewrite <- List.skipn_map.
  split.
  { intros Ho. rewrite <- (take_drop (length pos) (map fst (init_sig c))).
    apply elem_of_app. auto. }
  rewrite <- (take_drop (length pos) (map fst (init_sig c))) at 1.
  rewrite elem_of_app.
  intros [Hb|Ho]; [|exact Ho]. exfalso.
  unfold no_clash in Hc. rewrite Forall_forall in Hc.
  apply (proj2 (Hc (k, v) ltac:(apply list_elem_of_In; exact Hin))). exact Hb.
Qed.

Lemma keyword_passed c pos kw named extra k :
  bind_args (init_sig c) pos kw = Ok (named, extra) ->
  k ∉ map fst (init_sig c) ->
  dict_get k extra = dict_get k kw.
Proof.
  intros H Hk. rewrite (bind_args_extra _ _ _ _ _ H).
  apply filter_keeps. intros Hin. apply Hk.
  rewrite <- List.skipn_map in Hin.
  apply (subseteq_drop (length pos) (map fst (init_sig c))). exact Hin.
Qed.

Lemma base_keyword_free c k :
  c <> RecapType -> c <> ProxyType ->
  k ∈ ["logical"; "alias"; "doc"] -> k ∉ map fst (init_sig c).
Proof.
  intros H1 H2 Hk Hin.
  destruct c; try congruence; simpl in Hin;
    repeat (apply elem_of_cons in Hk as [->|Hk]);
    try (apply elem_of_nil in Hk; contradiction);
    repeat (apply elem_of_cons in Hin as [Hin|Hin]; [discriminate|]);
    apply elem_of_nil in Hin; contradiction.
Qed.

(** What a constructor call that returns has built. *)
Lemma new_built :
  forall c pos kw st r st',
    c <> RecapType ->
    new c pos kw st = Ok (r, st') ->
    let self := length (heap st) in
    exists named extra,
      bind_args (init_sig c) pos kw = Ok (named, extra) /\
      r = VRef self /\
      class_of (heap st') self = Some c /\
      read_attr (heap st') self "type_" = Ok (VStr (type_tag c)) /\
      read_attr (heap st') self "logical" =
        Ok (default VNone (dict_get "logical" kw)) /\
      read_attr (heap st') self "doc" = Ok (default VNone (dict_get "doc" kw)) /\
      read_attr (heap st') self "alias" =
        Ok (if decide (c = ProxyType) then arg "alias" named
            else default VNone (dict_get "alias" kw)) /\
      (forall x, In x (own_fields c) ->
                 (c = StructType -> arg x named <> VNone) ->
                 read_attr (heap st') self x = Ok (arg x named)) /\
      (c = StructType -> arg "fields" named = VNone ->
       read_attr (heap st') self "fields" = Ok (VRef (S (S self))) /\
       heap st' !! S (S self) = Some (OList [])) /\
      read_attr (heap st') self "extra_attrs" = Ok (VRef (S self)) /\
      heap st' !! S self = Some (ODict (leftover c kw)).
Proof.
  intros c pos kw st r st' Hc H self.
  destruct (new_Ok _ _ _ _ _ _ H)
    as (named & pos0 & kw0 & named0 & extra0 & Hs & Hb0 & -> & Hheap & _).
  destruct (super_args_Ok _ _ _ _ _ _ Hc Hs) as [Hb ->].
  destruct (bind_base_Ok _ _ _ _ Hb0) as (-> & -> & _ & _).
  exists named, kw0. split; [exact Hb|]. split; [reflexivity|].
  fold self in Hheap.
  assert (Hself : heap st' !! self =
            Some (OInst c (instance_attrs c named
                             (base_named (type_tag c) kw0) self))).
  { rewrite Hheap. apply list_lookup_middle. reflexivity. }
  destruct (instance_attrs_base c named (type_tag c) kw0 self Hc)
    as (Ht & Hl & Hd & He & Ha & Hp).
  unfold class_of, read_attr. rewrite Hself.
  split; [reflexivity|]. rewrite Ht, Hl, Hd, He.
  split; [reflexivity|].
  assert (Hkw : forall k, k ∈ ["logical"; "doc"] ->
            dict_get k kw0 = dict_get k kw).
  { intros k Hk. apply (keyword_passed _ _ _ _ _ _ Hb).
    destruct (decide (c = ProxyType)) as [->|Hnp].
    - simpl. intros Hin. apply list_elem_of_singleton in Hin. subst k.
      repeat (apply elem_of_cons in Hk as [Hk|Hk]; [discriminate|]).
      apply elem_of_nil in Hk. contradiction.
    - apply base_keyword_free; try assumption.
      repeat (apply elem_of_cons in Hk as [->|Hk]; [repeat constructor|]).
      apply elem_of_nil in Hk. contradiction. }
  rewrite (Hkw "logical") by (repeat constructor).
  rewrite (Hkw "doc") by (repeat constructor).
  split; [reflexivity|]. split; [reflexivity|].
  split.
  { destruct (decide (c = ProxyType)) as [Hpx|Hnp].
    - destruct (Hp Hpx) as [-> _]. reflexivity.
    - rewrite (Ha Hnp).
      rewrite (keyword_passed _ _ _ _ _ "alias" Hb); [reflexivity|].
      apply base_keyword_free; try assumption. repeat constructor. }
  split.
  { intros x Hx Hsx. rewrite (instance_attrs_own _ _ _ _ _ Hx Hsx). reflexivity. }
  split.
  { intros -> Hnone. unfold instance_attrs. rewrite Hnone.
    rewrite dict_get_set_eq. split; [reflexivity|].
    rewrite Hheap. unfold new_tail. rewrite Hnone.
    rewrite lookup_app_r by (unfold self; lia).
    replace (S (S self) - length (heap st)) with 2 by (unfold self; lia).
    reflexivity. }
  split; [reflexivity|].
  rewrite Hheap. rewrite lookup_app_r by (unfold self; lia).
  replace (S self - length (heap st)) with 1 by (unfold self; lia).
  cbn [lookup list_lookup]. rewrite (extras_leftover _ _ _ _ _ Hb). reflexivity.
Qed.


(** ** Keywords that clash with a bound parameter *)

Lemma dict_has_get k d : dict_has k d = true <-> exists v, dict_get k d = Some v.
Proof.
  unfold dict_has. destruct (dict_get k d); split; eauto; try discriminate.
  intros [v H]. discriminate.
Qed.

Lemma new_reserved c pos kw st k :
  reserved_key c k -> dict_has k kw = true ->
  exists msg st',
    new c pos kw st = Raise (TypeError msg, st') /\
    type_registry st' = type_registry st /\
    forall l, l < length (heap st) -> heap st' !! l = heap st !! l.
Proof.
  intros Hk Hhas. apply dict_has_get in Hhas as [v Hv].
  assert (Hraise : exists msg,
    new c pos kw st =
    Raise (TypeError msg, State (heap st ++ [OInst c []]) (type_registry st))).
  { rewrite new_cases. cbv zeta.
    destruct (decide (c = RecapType)) as [->|Hc].
    - destruct Hk as [->|[_ Hk]]; [|congruence].
      rewrite super_args_cases.
      pose proof (bind_args_outcome RecapType_sig pos kw) as Ho.
      destruct (bind_args RecapType_sig pos kw) as [[nm ex]|[]| |] eqn:Hb;
        try contradiction; eauto.
      destruct (no_clash_key _ _ _ _ (bind_args_no_clash _ _ _ _ _ Hb) Hv).
      congruence.
    - pose proof (bind_args_outcome (init_sig c) pos kw) as Ho.
      destruct (super_args c pos kw) as [[[named pos0] kw0]|e| |] eqn:Hs.
      + destruct (super_args_Ok _ _ _ _ _ _ Hc Hs) as [Hb ->].
        destruct Hk as [->|[-> _]].
        { destruct (no_clash_key _ _ _ _ (bind_args_no_clash _ _ _ _ _ Hb) Hv).
          congruence. }
        assert (Hv0 : dict_get "type_" kw0 = Some v).
        { rewrite (keyword_passed _ _ _ _ _ "type_" Hb); [exact Hv|].
          destruct c; try congruence; simpl; intros Hin;
            repeat (apply elem_of_cons in Hin as [Hin|Hin]; [discriminate|]);
            apply elem_of_nil in Hin; contradiction. }
        pose proof (bind_args_outcome RecapType_sig [VStr (type_tag c)] kw0)
          as Ho0.
        destruct (bind_args RecapType_sig [VStr (type_tag c)] kw0)
          as [[nm0 ex0]|[]| |] eqn:Hb0; try contradiction; eauto.
        destruct (bind_base_Ok _ _ _ _ Hb0) as (_ & _ & Hn & _). congruence.
      + rewrite super_args_cases in Hs.
        destruct c; try congruence;
          (destruct (bind_args _ pos kw) as [[nm ex]|[]| |];
           simpl in Hs; try discriminate; try contradiction;
           injection Hs as <-; eauto).
      + rewrite super_args_cases in Hs.
        destruct c; try congruence;
          (destruct (bind_args _ pos kw) as [[nm ex]|[]| |];
           simpl in Hs; try discriminate; contradiction).
      + rewrite super_args_cases in Hs.
        destruct c; try congruence;
          (destruct (bind_args _ pos kw) as [[nm ex]|[]| |];
           simpl in Hs; try discriminate; contradiction). }
  destruct Hraise as [msg Hr]. eexists msg, _. split; [exact Hr|].
  split; [reflexivity|]. intros l Hl. cbn [heap]. apply lookup_app_l. exact Hl.
Qed.

(** ** Postconditions *)

Ltac elem_in := repeat constructor.

Ltac elem_out :=
  let H := fresh in
  intros H;
  repeat (apply elem_of_cons in H as [H|H]; [discriminate|]);
  apply elem_of_nil in H; contradiction.

Lemma ensures_bind n {A B} (m : M A) (k : A -> M B) Q :
  preserves n m -> (forall a, ensures n (k a) Q) -> ensures n (bind m k) Q.
Proof.
  intros Hm Hk st b st' Hn H. apply bind_Ok in H as (a & st1 & H1 & H).
  pose proof (Hm st Hn) as Hp. rewrite H1 in Hp.
  apply (Hk a st1 b st'); [lia|exact H].
Qed.

Lemma ensures_raise n {A} e (Q : A -> state -> Prop) : ensures n (raise e) Q.
Proof. intros st a st' _ H. discriminate. Qed.

Lemma ensures_unmodelled n {A} (Q : A -> state -> Prop) : ensures n unmodelled Q.
Proof. intros st a st' _ H. discriminate. Qed.

Lemma ensures_impl n {A} (m : M A) (Q Q' : A -> state -> Prop) :
  (forall a st, Q a st -> Q' a st) -> ensures n m Q -> ensures n m Q'.
Proof. intros HQ H st a st' Hn Hm. apply HQ. exact (H st a st' Hn Hm). Qed.

(** The [match] statement ends in a constructor call in every case that
    returns: a postcondition that every such call establishes holds of
    [dispatch]. *)
Lemma ensures_dispatch n parse s td (Q : value -> state -> Prop) :
  (forall v, preserves n (parse v)) ->
  (forall pos kw,
      (forall k, k ∉ ["bytes"; "bytes_"; "values"; "keys"; "fields"; "types"] ->
                 dict_get k kw = dict_get k td) ->
      (tag_class s = ProxyType -> pos = [VStr s]) ->
      ensures n (new (tag_class s) pos kw) Q) ->
  ensures n (dispatch parse s td) Q.
Proof.
  intros Hp Hnew. unfold dispatch. unfold tag_class in Hnew.
  assert (Hdel : forall k x d,
    k ∉ ["bytes"; "bytes_"; "values"; "keys"; "fields"; "types"] ->
    x ∈ ["bytes"; "bytes_"; "values"; "keys"; "fields"; "types"] ->
    dict_get k (dict_del x d) = dict_get k d).
  { intros k x d Hk Hx. apply dict_get_del_ne. intros ->. contradiction. }
  assert (Hset : forall k x v d,
    k ∉ ["bytes"; "bytes_"; "values"; "keys"; "fields"; "types"] ->
    x ∈ ["bytes"; "bytes_"; "values"; "keys"; "fields"; "types"] ->
    dict_get k (dict_set x v d) = dict_get k d).
  { intros k x v d Hk Hx. apply dict_get_set_ne. intros ->. contradiction. }
  rewrite !dict_pop_eq.
  repeat match goal with
         | |- context [String.eqb s ?t] => destruct (String.eqb s t)
         end;
    repeat match goal with
           | |- ensures _ (if ?b then _ else _) _ => destruct b
           | |- ensures _ (raise _) _ => apply ensures_raise
           | |- ensures _ (new _ _ _) _ =>
               apply Hnew;
               [ intros k Hk;
                 repeat first [ rewrite Hset by (first [exact Hk|elem_in])
                              | rewrite Hdel by (first [exact Hk|elem_in]) ];
                 reflexivity
               | first [discriminate | reflexivity] ]
           | |- ensures _ (bind (parse _) _) _ =>
               apply ensures_bind; [apply Hp|intros ?]
           | |- ensures _ (bind (mapM _ _) _) _ =>
               apply ensures_bind; [apply preserves_mapM; exact Hp|intros ?]
           | |- ensures _ (bind (py_iter _) _) _ =>
               apply ensures_bind; [apply preserves_py_iter|intros ?]
           | |- ensures _ (bind (alloc _) _) _ =>
               apply ensures_bind; [apply preserves_alloc|intros ?]
           | |- ensures _ (bind (match ?x with Some _ => _ | None => _ end) _) _ =>
               apply ensures_bind;
               [destruct x; [apply preserves_py_iter|apply preserves_ret]
               |intros ?]
           | |- ensures _ (let '(_, _) := ?x in _) _ => rewrite !dict_pop_eq
           end.
Qed.

Lemma ensures_construct n parse tn td (Q : value -> state -> Prop) :
  (forall v, preserves n (parse v)) ->
  (forall s, tn = VStr s -> ensures n (dispatch parse s td) Q) ->
  (forall pos, (exists l, tn = VRef l) -> ensures n (new UnionType pos td) Q) ->
  ensures n (construct parse tn td) Q.
Proof.
  intros Hp Hd Hu. unfold construct. destruct tn; try apply ensures_raise.
  - apply Hd. reflexivity.
  - apply ensures_bind; [apply preserves_get_state|]. intros st0.
    destruct (heap st0 !! l) as [[d|xs|c attrs]|];
      try apply ensures_raise; try apply ensures_unmodelled.
    apply ensures_bind; [apply preserves_union_loop; exact Hp|]. intros us.
    apply ensures_bind; [apply preserves_alloc|]. intros ul.
    apply Hu. eauto.
Qed.

Lemma register_alias_Ok alias r st u st1 :
  register_alias alias r st = Ok (u, st1) ->
  heap st1 = heap st /\
  (truthy (heap st) alias = Ok false /\ type_registry st1 = type_registry st \/
   exists k l, truthy (heap st) alias = Ok true /\
               hash_key (heap st) alias = Ok k /\ r = VRef l /\
               type_registry st1 = <[k := l]> (type_registry st)).
Proof.
  unfold register_alias. intros H.
  apply bind_Ok in H as (st0 & st2 & Hg & H). injection Hg as <- <-.
  apply bind_Ok in H as (b & st2 & Hb & H). unfold lift in Hb.
  destruct (truthy (heap st) alias) as [b'| | |] eqn:Et; try discriminate.
  injection Hb as <- <-. destruct b'.
  - apply bind_Ok in H as (k & st2 & Hk & H). unfold lift in Hk.
    destruct (hash_key (heap st) alias) as [k'| | |] eqn:Ek; try discriminate.
    injection Hk as <- <-. destruct r; try discriminate.
    injection H as _ <-. split; [reflexivity|]. right. exists k', l. auto.
  - injection H as _ <-. split; [reflexivity|]. left. auto.
Qed.

Lemma from_dict_Ok f st l items r st' :
  heap st !! l = Some (ODict items) ->
  from_dict (S f) (VRef l) st = Ok (r, st') ->
  exists st1,
    construct (from_dict f) (type_of items) (rest_of items) st = Ok (r, st1) /\
    register_alias (alias_of items) r st1 = Ok (tt, st').
Proof.
  intros Hl H. rewrite (from_dict_unfold f st l items Hl) in H.
  apply bind_Ok in H as (r0 & st1 & Hc & H).
  apply bind_Ok in H as ([] & st2 & Hr & H). injection H as <- <-.
  eauto.
Qed.

Lemma tag_class_derived s : tag_class s <> RecapType.
Proof.
  unfold tag_class.
  repeat match goal with
         | |- context [String.eqb s ?t] => destruct (String.eqb s t)
         end; discriminate.
Qed.

(** The postcondition every constructor call of the parser establishes. *)
Lemma ensures_from_dict f st l items r st' (Q : value -> list obj -> Prop) :
  heap st !! l = Some (ODict items) ->
  from_dict (S f) (VRef l) st = Ok (r, st') ->
  (forall pos kw,
      (forall k, k ∉ ["bytes"; "bytes_"; "values"; "keys"; "fields"; "types";
                      "alias"; "type"] ->
                 dict_get k kw = dict_get k items) ->
      dict_get "alias" kw = None ->
      match type_of items with
      | VStr s => tag_class s = ProxyType -> pos = [VStr s]
      | _ => True
      end ->
      ensures (length (heap st))
        (new (match type_of items with
              | VStr s => tag_class s
              | _ => UnionType
              end) pos kw)
        (fun r st => Q r (heap st))) ->
  Q r (heap st').
Proof.
  intros Hl H Hnew.
  destruct (from_dict_Ok _ _ _ _ _ _ Hl H) as (st1 & Hc & Hr).
  apply register_alias_Ok in Hr as [-> _].
  assert (Hrest : forall kw,
    (forall k, k ∉ ["bytes"; "bytes_"; "values"; "keys"; "fields"; "types"] ->
               dict_get k kw = dict_get k (rest_of items)) ->
    (forall k, k ∉ ["bytes"; "bytes_"; "values"; "keys"; "fields"; "types";
                    "alias"; "type"] ->
               dict_get k kw = dict_get k items) /\
    dict_get "alias" kw = None).
  { intros kw Hkw. split.
    - intros k Hk. rewrite Hkw.
      + unfold rest_of.
        rewrite !dict_get_del_ne by (intros ->; apply Hk; elem_in).
        reflexivity.
      + intros Hin. apply Hk.
        repeat (apply elem_of_cons in Hin as [->|Hin]; [elem_in|]).
        apply elem_of_nil in Hin. contradiction.
    - rewrite Hkw by elem_out. apply rest_no_alias. }
  refine (ensures_construct (length (heap st)) (from_dict f) (type_of items)
            (rest_of items) (fun r st => Q r (heap st)) _ _ _ st r st1
            (le_n _) Hc).
  - intros v. apply preserves_from_dict.
  - intros s Hs. apply ensures_dispatch; [intros v; apply preserves_from_dict|].
    intros pos kw Hkw Hpx. rewrite Hs in Hnew.
    destruct (Hrest kw Hkw) as [H1 H2]. apply Hnew; assumption.
  - intros pos [l0 Hs]. rewrite Hs in Hnew.
    destruct (Hrest (rest_of items) (fun _ _ => eq_refl)) as [H1 H2].
    apply Hnew; auto.
Qed.

(** ** What the parser's constructor calls build *)

Lemma proxy_named a kw named extra :
  bind_args (init_sig ProxyType) [a] kw = Ok (named, extra) ->
  arg "alias" named = a.
Proof.
  unfold bind_args. simpl. intros H.
  apply pbind_Ok in H as ([nm ex] & _ & H). simpl in H.
  injection H as <- _. reflexivity.
Qed.

Lemma new_instance n c pos kw :
  c <> RecapType ->
  dict_get "alias" kw = None ->
  (c = ProxyType -> exists a, pos = [a]) ->
  ensures n (new c pos kw)
    (fun r st =>
       exists l, r = VRef l /\ n <= l /\
         class_of (heap st) l = Some c /\
         read_attr (heap st) l "type_" = Ok (VStr (type_tag c)) /\
         read_attr (heap st) l "alias" =
           Ok (match c, pos with ProxyType, a :: _ => a | _, _ => VNone end)).
Proof.
  intros Hc Ha Hpx st r st' Hn H.
  destruct (new_built c pos kw st r st' Hc H)
    as (named & extra & Hb & -> & Hcl & Ht & _ & _ & Hal & _).
  exists (length (heap st)). split; [reflexivity|]. split; [exact Hn|].
  split; [exact Hcl|]. split; [exact Ht|]. rewrite Hal.
  destruct (decide (c = ProxyType)) as [->|Hnp].
  - destruct (Hpx eq_refl) as [a ->]. rewrite (proxy_named _ _ _ _ Hb).
    reflexivity.
  - rewrite Ha. destruct c; try reflexivity. congruence.
Qed.

Lemma from_dict_instance f st l items r st' :
  heap st !! l = Some (ODict items) ->
  from_dict (S f) (VRef l) st = Ok (r, st') ->
  exists lr,
    r = VRef lr /\ length (heap st) <= lr /\
    class_of (heap st') lr =
      Some (match type_of items with VStr s => tag_class s | _ => UnionType end) /\
    read_attr (heap st') lr "type_" =
      Ok (VStr (type_tag (match type_of items with
                          | VStr s => tag_class s
                          | _ => UnionType
                          end))) /\
    read_attr (heap st') lr "alias" =
      Ok (match type_of items with
          | VStr s => if decide (tag_class s = ProxyType) then VStr s else VNone
          | _ => VNone
          end).
Proof.
  intros Hl H.
  apply (ensures_from_dict f st l items r st'
           (fun r h =>
              exists lr,
                r = VRef lr /\ length (heap st) <= lr /\
                class_of h lr =
                  Some (match type_of items with
                        | VStr s => tag_class s
                        | _ => UnionType
                        end) /\
                read_attr h lr "type_" =
                  Ok (VStr (type_tag (match type_of items with
                                      | VStr s => tag_class s
                                      | _ => UnionType
                                      end))) /\
                read_attr h lr "alias" =
                  Ok (match type_of items with
                      | VStr s =>
                          if decide (tag_class s = ProxyType) then VStr s
                          else VNone
                      | _ => VNone
                      end)) Hl H).
  intros pos kw _ Ha Hpx.
  eapply ensures_impl; [|apply new_instance].
  - intros a st0 (lr & -> & Hn & Hcl & Ht & Hal).
    exists lr. split; [reflexivity|]. split; [exact Hn|]. split; [exact Hcl|].
    split; [exact Ht|]. rewrite Hal.
    destruct (type_of items) as [|b|z|s|l0]; try reflexivity.
    destruct (decide (tag_class s = ProxyType)) as [E|E].
    + rewrite E. rewrite (Hpx E). reflexivity.
    + destruct (tag_class s); try reflexivity. congruence.
  - destruct (type_of items); try discriminate. apply tag_class_derived.
  - exact Ha.
  - destruct (type_of items) as [|b|z|s|l0]; try discriminate.
    intros E. eauto.
Qed.

(** ** Relations every run respects *)

Section Respects.
Variable R : state -> state -> Prop.
Hypothesis R_refl : forall st, R st st.
Hypothesis R_trans : forall a b c, R a b -> R b c -> R a c.
Hypothesis R_extend :
  forall st h',
    length (heap st) <= length h' ->
    (forall l, l < length (heap st) -> h' !! l = heap st !! l) ->
    R st (State h' (type_registry st)).
Hypothesis R_set_attr : forall st l n v, R st (set_attr l n v st).
Hypothesis R_set_dict :
  forall st l d d',
    heap st !! l = Some (ODict d) -> R st (set_obj l (ODict d') st).
Hypothesis R_bind_alias : forall st k l, R st (set_registry k l st).

Lemma respects_ret {A} (a : A) : respects R (ret a).
Proof. intros st. apply R_refl. Qed.

Lemma respects_raise {A} e : respects R (@raise A e).
Proof. intros st. apply R_refl. Qed.

Lemma respects_unmodelled {A} : respects R (@unmodelled A).
Proof. intros st. exact I. Qed.

Lemma respects_out_of_fuel {A} : respects R (@out_of_fuel A).
Proof. intros st. exact I. Qed.

Lemma respects_lift {A} (r : pure_res A) : respects R (lift r).
Proof. intros st. unfold lift. destruct r; simpl; auto. Qed.

Lemma respects_get_state : respects R get_state.
Proof. intros st. apply R_refl. Qed.

Lemma respects_bind {A B} (m : M A) (k : A -> M B) :
  respects R m -> (forall a, respects R (k a)) -> respects R (bind m k).
Proof.
  intros Hm Hk st. unfold bind. specialize (Hm st).
  destruct (m st) as [[a st1]|[e st1]| |]; try exact I; try exact Hm.
  specialize (Hk a st1).
  destruct (k a st1) as [[b st2]|[e st2]| |]; try exact I;
    eapply R_trans; eassumption.
Qed.

Lemma respects_modify (f : state -> state) :
  (forall st, R st (f st)) -> respects R (modify f).
Proof. intros Hf st. apply Hf. Qed.

Lemma respects_alloc o : respects R (alloc o).
Proof.
  intros st. simpl. apply R_extend.
  - rewrite length_app. lia.
  - intros l Hl. apply lookup_app_l. exact Hl.
Qed.

Lemma respects_get_attr l n : respects R (get_attr l n).
Proof. intros st. unfold get_attr. apply respects_lift. Qed.

Lemma R_assign_fields self names named st :
  R st (assign_fields self names named st).
Proof.
  revert st. induction names as [|x names IH]; intros st; simpl.
  - apply R_refl.
  - eapply R_trans; [apply R_set_attr|apply IH].
Qed.

Ltac respects_step :=
  first
    [ apply respects_ret | apply respects_raise | apply respects_unmodelled
    | apply respects_out_of_fuel | apply respects_lift
    | apply respects_get_state | apply respects_alloc
    | apply respects_get_attr
    | apply respects_modify; intros ?; apply R_set_attr
    | apply respects_modify; intros ?; apply R_bind_alias
    | apply respects_modify; intros ?; apply R_assign_fields
    | apply respects_bind; [|intros ?] ].

Lemma respects_RecapType_init self pos kw :
  respects R (RecapType_init self pos kw).
Proof.
  unfold RecapType_init.
  apply respects_bind; [respects_step|]. intros [named extra].
  repeat respects_step.
  destruct (arg "alias" named); repeat respects_step;
    match goal with
    | |- respects _ (match ?x with _ => _ end) => destruct x
    end; repeat respects_step.
Qed.

Lemma respects_init c self pos kw : respects R (init c self pos kw).
Proof.
  destruct c; unfold init; try apply respects_RecapType_init;
    (apply respects_bind; [respects_step|]; intros [named extra];
     apply respects_bind; [apply respects_RecapType_init|];
     intros _; repeat respects_step).
  destruct (arg "fields" named); repeat respects_step.
Qed.

Lemma respects_new c pos kw : respects R (new c pos kw).
Proof.
  unfold new. apply respects_bind; [apply respects_alloc|]. intros self.
  apply respects_bind; [apply respects_init|]. intros _. apply respects_ret.
Qed.

Lemma respects_dict_copy v : respects R (dict_copy v).
Proof.
  unfold dict_copy. destruct v; repeat respects_step.
  destruct (heap a !! l) as [[d|xs|c attrs]|]; repeat respects_step.
  destruct (dict_has "copy" attrs); respects_step.
Qed.

Lemma respects_py_iter v : respects R (py_iter v).
Proof.
  unfold py_iter. destruct v; repeat respects_step.
  destruct (heap a !! l) as [[d|xs|c attrs]|]; repeat respects_step.
Qed.

Lemma respects_mapM {A B} (f : A -> M B) xs :
  (forall x, respects R (f x)) -> respects R (mapM f xs).
Proof.
  intros Hf. induction xs as [|x xs IH]; simpl.
  - apply respects_ret.
  - apply respects_bind; [apply Hf|]. intros y.
    apply respects_bind; [exact IH|]. intros ys. apply respects_ret.
Qed.

Lemma respects_union_loop parse elems :
  (forall v, respects R (parse v)) -> respects R (union_loop parse elems).
Proof.
  intros Hp. induction elems as [|t elems IH]; simpl.
  - apply respects_ret.
  - apply respects_bind; [apply respects_get_state|]. intros st.
    destruct t; try exact IH.
    + apply respects_bind; [apply respects_alloc|]. intros d.
      apply respects_bind; [apply Hp|]. intros r.
      apply respects_bind; [exact IH|]. intros rest. apply respects_ret.
    + destruct (heap st !! l) as [[d|xs|c attrs]|]; try exact IH.
      * apply respects_bind; [apply Hp|]. intros r.
        apply respects_bind; [exact IH|]. intros rest. apply respects_ret.
      * apply respects_unmodelled.
Qed.

Lemma respects_dispatch parse s td :
  (forall v, respects R (parse v)) -> respects R (dispatch parse s td).
Proof.
  intros Hp. unfold dispatch.
  repeat match goal with
         | |- respects _ (if ?b then _ else _) => destruct b
         | |- respects _ (let '(_, _) := ?x in _) => destruct x
         | |- respects _ (new _ _ _) => apply respects_new
         | |- respects _ (parse _) => apply Hp
         | |- respects _ (mapM _ _) => apply respects_mapM; exact Hp
         | |- respects _ (py_iter _) => apply respects_py_iter
         | |- respects _ (match ?x with Some _ => _ | None => _ end) =>
             destruct x
         | |- _ => respects_step
         end.
Qed.

Lemma respects_construct parse type_name td :
  (forall v, respects R (parse v)) ->
  respects R (construct parse type_name td).
Proof.
  intros Hp. unfold construct. destruct type_name; try apply respects_raise.
  - apply respects_dispatch. exact Hp.
  - apply respects_bind; [apply respects_get_state|]. intros st.
    destruct (heap st !! l) as [[d|xs|c attrs]|];
      try apply respects_raise; try apply respects_unmodelled.
    apply respects_bind; [apply respects_union_loop; exact Hp|].
    intros us. apply respects_bind; [apply respects_alloc|].
    intros ul. apply respects_new.
Qed.

Lemma respects_register_alias alias r : respects R (register_alias alias r).
Proof.
  unfold register_alias. repeat respects_step.
  destruct a0; repeat respects_step.
  destruct r; repeat respects_step.
Qed.

Lemma respects_from_dict f v : respects R (from_dict f v).
Proof.
  revert v. induction f as [|f IH]; intros v; simpl.
  - apply respects_out_of_fuel.
  - apply respects_bind; [apply respects_dict_copy|]. intros td.
    destruct (dict_pop "alias" td) as [alias td1].
    destruct (dict_pop "type" td1) as [type_name td2].
    apply respects_bind; [apply respects_construct; exact IH|].
    intros r. apply respects_bind; [apply respects_register_alias|].
    intros _. apply respects_ret.
Qed.

Lemma respects_from_alias alias : respects R (from_alias alias).
Proof.
  unfold from_alias. repeat respects_step.
  destruct (type_registry a !! a0); respects_step.
Qed.

Lemma respects_deepcopy_step fuel v : respects R (deepcopy_step fuel v).
Proof.
  intros st. unfold deepcopy_step.
  destruct (deepcopy fuel ∅ (heap st) v) as [[[v' memo'] h']|e| |] eqn:E;
    try exact I; [|apply R_refl].
  assert (Hm0 : memo_fresh (length (heap st)) ∅).
  { intros l l' Hl. rewrite lookup_empty in Hl. discriminate. }
  destruct (deepcopy_inv (length (heap st)) fuel ∅ (heap st) v _ _ _
              (le_n _) Hm0 E) as (Hlen & Hframe & _).
  apply R_extend; assumption.
Qed.

Lemma respects_setattr v n x : respects R (setattr v n x).
Proof.
  unfold setattr. destruct v; repeat respects_step.
  destruct (heap a !! l) as [[d|xs|c attrs]|]; repeat respects_step.
Qed.

Lemma respects_setitem v n x : respects R (setitem v n x).
Proof.
  unfold setitem. destruct v; try apply respects_raise.
  intros st. unfold bind, get_state.
  destruct (heap st !! l) as [[d|xs|c attrs]|] eqn:E; try exact I;
    try apply R_refl.
  simpl. eapply R_set_dict. exact E.
Qed.

Lemma respects_items_of v : respects R (items_of v).
Proof.
  unfold items_of. destruct v; repeat respects_step.
  destruct (heap a !! l) as [[d|xs|c attrs]|]; repeat respects_step.
  destruct (dict_has "items" attrs); respects_step.
Qed.

Lemma respects_attr_of v n : respects R (attr_of v n).
Proof. unfold attr_of. destruct v; repeat respects_step. Qed.

Lemma respects_apply_override self attr x :
  respects R (apply_override self attr x).
Proof.
  unfold apply_override. repeat respects_step.
  destruct a1; repeat respects_step;
    first [apply respects_setattr | apply respects_attr_of
          | apply respects_setitem].
Qed.

Lemma respects_apply_overrides self items :
  respects R (apply_overrides self items).
Proof.
  induction items as [|[attr x] items IH]; simpl.
  - apply respects_ret.
  - apply respects_bind; [apply respects_apply_override|]. intros _. exact IH.
Qed.

Lemma respects_resolve fuel self : respects R (resolve fuel self).
Proof.
  unfold resolve. apply respects_bind; [apply respects_get_attr|].
  intros cached.
  destruct cached; try apply respects_get_attr.
  apply respects_bind; [apply respects_get_attr|]. intros alias.
  apply respects_bind; [apply respects_from_alias|]. intros target.
  apply respects_bind; [apply respects_deepcopy_step|]. intros copy.
  apply respects_bind; [apply respects_modify; intros ?; apply R_set_attr|].
  intros _.
  apply respects_bind; [apply respects_get_attr|]. intros ea.
  apply respects_bind; [apply respects_items_of|]. intros items.
  apply respects_bind; [apply respects_apply_overrides|]. intros _.
  apply respects_get_attr.
Qed.
End Respects.

Lemma respects_final R {A} (m : M A) st st' :
  respects R m -> final_state (m st) = Some st' -> R st st'.
Proof.
  intros Hm H. specialize (Hm st).
  destruct (m st) as [[a st1]|[e st1]| |]; simpl in H; try discriminate;
    injection H as <-; exact Hm.
Qed.

(** ** Resolution and the registry *)

Lemma resolve_same_registry fuel self :
  respects same_registry (resolve fuel self).
Proof.
  apply respects_resolve; unfold same_registry.
  - reflexivity.
  - intros a b c H1 H2. congruence.
  - reflexivity.
  - intros st l n v. unfold set_attr.
    destruct (heap st !! l) as [[d|xs|c attrs]|]; reflexivity.
  - reflexivity.
Qed.

(** ** What no call undoes *)

Lemma grows_refl st : grows st st.
Proof. unfold grows. auto. Qed.

Lemma grows_trans a b c : grows a b -> grows b c -> grows a c.
Proof.
  intros (L1 & C1 & K1) (L2 & C2 & K2). unfold grows.
  split; [lia|]. split; auto.
Qed.

Lemma grows_extend st h' :
  length (heap st) <= length h' ->
  (forall l, l < length (heap st) -> h' !! l = heap st !! l) ->
  grows st (State h' (type_registry st)).
Proof.
  intros Hlen Hframe. unfold grows. cbn [heap type_registry].
  split; [exact Hlen|]. split; [|auto].
  intros l c Hc. unfold class_of in *.
  destruct (heap st !! l) as [o|] eqn:E; [|discriminate].
  rewrite Hframe by (eapply lookup_lt_Some; exact E). rewrite E. exact Hc.
Qed.

Lemma grows_set_attr st l n v : grows st (set_attr l n v st).
Proof.
  unfold grows. destruct (set_attr_heap l n v st) as [Hlen _].
  split; [lia|]. split.
  - intros l0 c Hc. rewrite set_attr_class. exact Hc.
  - unfold set_attr. destruct (heap st !! l) as [[d|xs|c attrs]|]; auto.
Qed.

Lemma grows_set_dict st l d d' :
  heap st !! l = Some (ODict d) -> grows st (set_obj l (ODict d') st).
Proof.
  intros Hl. unfold grows, set_obj. cbn [heap type_registry].
  split; [rewrite length_insert; lia|]. split; [|auto].
  intros l0 c Hc. unfold class_of in *.
  destruct (decide (l0 = l)) as [->|Hne].
  - rewrite Hl in Hc. discriminate.
  - rewrite list_lookup_insert_ne by congruence. exact Hc.
Qed.

Lemma grows_bind_alias st k l : grows st (set_registry k l st).
Proof.
  unfold grows, set_registry. cbn [heap type_registry].
  split; [lia|]. split; [auto|].
  intros k0 Hk. apply lookup_insert_is_Some.
  destruct (decide (k = k0)); auto.
Qed.

Lemma api_call_grows st st' : api_call st st' -> grows st st'.
Proof.
  destruct 1 as [c pos kw st' H | f v st' H | a st' H | fuel self st' H];
    (eapply respects_final; [|exact H]);
    [ apply respects_new | apply respects_from_dict | apply respects_from_alias
    | apply respects_resolve ];
    first [ exact grows_refl | exact grows_trans | exact grows_extend
          | exact grows_set_attr | exact grows_set_dict
          | exact grows_bind_alias ].
Qed.

(** ** Looking an alias up *)

Lemma from_alias_found st a l :
  type_registry st !! KStr a = Some l ->
  from_alias (VStr a) st = Ok (VRef l, st).
Proof.
  intros H. unfold from_alias, bind, get_state, lift, hash_key.
  rewrite H. reflexivity.
Qed.

Lemma from_alias_missing st a :
  type_registry st !! KStr a = None ->
  from_alias (VStr a) st =
  Raise (TypeError "No RecapType with alias found.", st).
Proof.
  intros H. unfold from_alias, bind, get_state, lift, hash_key.
  rewrite H. reflexivity.
Qed.

Lemma new_then_from_alias c pos kw st a r st' :
  passed_alias c pos kw = Ok (VStr a) ->
  new c pos kw st = Ok (r, st') ->
  from_alias (VStr a) st' = Ok (r, st').
Proof.
  intros Hpa H.
  destruct (new_Ok _ _ _ _ _ _ H)
    as (named & pos0 & kw0 & named0 & extra0 & Hs & Hb0 & -> & _ & HR).
  unfold passed_alias in Hpa. rewrite Hs in Hpa. simpl in Hpa.
  rewrite Hb0 in Hpa. simpl in Hpa. injection Hpa as Ha.
  rewrite Ha in HR. destruct HR as [[HR _]|(k & Hk & _ & HR)]; [discriminate|].
  specialize (Hk []). simpl in Hk. injection Hk as <-.
  apply from_alias_found. rewrite HR. apply lookup_insert_eq.
Qed.

Lemma from_dict_then_from_alias f st l items a r st' :
  heap st !! l = Some (ODict items) ->
  dict_get "alias" items = Some (VStr a) ->
  a <> "" ->
  from_dict (S f) (VRef l) st = Ok (r, st') ->
  from_alias (VStr a) st' = Ok (r, st').
Proof.
  intros Hl Ha Hne H.
  destruct (from_dict_Ok _ _ _ _ _ _ Hl H) as (st1 & _ & Hr).
  unfold alias_of in Hr. rewrite Ha in Hr. simpl in Hr.
  apply register_alias_Ok in Hr as [_ [[Ht _]|(k & lr & _ & Hk & -> & HR)]].
  - simpl in Ht. injection Ht as Ht.
    destruct (String.eqb_spec a ""); [contradiction|discriminate].
  - simpl in Hk. injection Hk as <-.
    apply from_alias_found. rewrite HR. apply lookup_insert_eq.
Qed.

(** ** A reference to an alias that is not registered *)

Lemma resolve_unregistered fuel self st a :
  read_attr (heap st) self "_resolved" = Ok VNone ->
  read_attr (heap st) self "alias" = Ok (VStr a) ->
  type_registry st !! KStr a = None ->
  resolve fuel self st =
  Raise (TypeError "No RecapType with alias found.", st).
Proof.
  intros Hr Ha Hreg. unfold resolve.
  unfold bind at 1. unfold get_attr at 1, lift. rewrite Hr.
  unfold bind at 1. unfold get_attr at 1, lift. rewrite Ha.
  unfold bind at 1. rewrite (from_alias_missing _ _ Hreg). reflexivity.
Qed.

Lemma dispatch_proxy parse s td :
  tag_class s = ProxyType ->
  dispatch parse s td = new ProxyType [VStr s] td.
Proof.
  unfold tag_class, dispatch.
  repeat match goal with
         | |- context [String.eqb s ?t] => destruct (String.eqb s t)
         end; try discriminate.
  reflexivity.
Qed.

Lemma new_bare_proxy a st :
  new ProxyType [VStr a] [] st =
  Ok (VRef (length (heap st)),
      State (heap st ++
               [OInst ProxyType
                  [("type_", VStr "proxy"); ("logical", VNone);
                   ("alias", VStr a); ("doc", VNone);
                   ("extra_attrs", VRef (S (length (heap st))));
                   ("_resolved", VNone)];
                ODict []]) (type_registry st)).
Proof.
  rewrite new_cases. cbv zeta.
  change (super_args ProxyType [VStr a] [])
    with (Ok ([("alias", VStr a)], [VStr "proxy"], @nil (string * value))
          : pure_res (pydict * list value * pydict)).
  cbv beta iota.
  change (bind_args RecapType_sig [VStr "proxy"] [])
    with (Ok ([("type_", VStr "proxy"); ("logical", VNone); ("alias", VNone);
               ("doc", VNone)], @nil (string * value))
          : pure_res (pydict * pydict)).
  cbv beta iota.
  change (arg "alias" [("type_", VStr "proxy"); ("logical", VNone);
                       ("alias", VNone); ("doc", VNone)]) with VNone.
  unfold register_self. unfold bind at 1. unfold ret at 1.
  unfold bind at 1. rewrite finish_exact. reflexivity.
Qed.

Lemma from_dict_bare_proxy f st l a :
  heap st !! l = Some (ODict [("type", VStr a)]) ->
  tag_class a = ProxyType ->
  from_dict (S f) (VRef l) st = new ProxyType [VStr a] [] st.
Proof.
  intros Hl Ht. rewrite (from_dict_unfold f st l _ Hl).
  change (type_of [("type", VStr a)]) with (VStr a).
  change (rest_of [("type", VStr a)]) with (@nil (string * value)).
  change (alias_of [("type", VStr a)]) with VNone.
  unfold construct. rewrite (dispatch_proxy _ _ _ Ht).
  unfold bind at 1. rewrite !new_bare_proxy. reflexivity.
Qed.

(** ** The overrides, end to end *)

Lemma dict_has_set_ne k k' v d :
  k <> k' -> dict_has k (dict_set k' v d) = dict_has k d.
Proof. intros H. unfold dict_has. rewrite dict_get_set_ne by exact H. reflexivity. Qed.

(** What one override leaves alone on the resolved copy [c]. *)
Lemma override_effect_keeps self c attr x st st1 :
  c <> self ->
  read_attr (heap st) self "_resolved" = Ok (VRef c) ->
  override_effect self attr x st st1 ->
  read_attr (heap st1) self "_resolved" = Ok (VRef c) /\
  (forall k, k <> attr ->
             hasattr (heap st1) (VRef c) k = hasattr (heap st) (VRef c) k /\
             read_attr (heap st1) c k = read_attr (heap st) c k) /\
  (forall d items,
      attr <> "extra_attrs" ->
      read_attr (heap st) c "extra_attrs" = Ok (VRef d) ->
      heap st !! d = Some (ODict items) ->
      exists items',
        heap st1 !! d = Some (ODict items') /\
        forall k, k <> attr -> dict_get k items' = dict_get k items).
Proof.
  intros Hne Hr He.
  destruct He as [ c' cl attrs Hr' Hh Hc | c' e items0 Hr' Hh Hea Hi ];
    rewrite Hr in Hr'; injection Hr' as <-; cbn [heap set_obj].
  - split; [|split].
    + unfold read_attr. rewrite list_lookup_insert_ne by congruence. exact Hr.
    + intros k Hk. unfold hasattr, read_attr.
      rewrite list_lookup_insert_eq by (eapply lookup_lt_Some; exact Hc).
      rewrite Hc. rewrite dict_has_set_ne, dict_get_set_ne by exact Hk.
      split; reflexivity.
    + intros d items Hx Hd Hdi. exists items. split; [|reflexivity].
      rewrite list_lookup_insert_ne; [exact Hdi|].
      intros ->. rewrite Hc in Hdi. discriminate.
  - assert (Hec : e <> c).
    { intros ->. unfold read_attr in Hea. rewrite Hi in Hea. discriminate. }
    assert (Hes : e <> self).
    { intros ->. unfold read_attr in Hr. rewrite Hi in Hr. discriminate. }
    split; [|split].
    + unfold read_attr. rewrite list_lookup_insert_ne by congruence. exact Hr.
    + intros k Hk. unfold hasattr, read_attr.
      rewrite list_lookup_insert_ne by congruence. split; reflexivity.
    + intros d items Hx Hd Hdi. rewrite Hea in Hd. injection Hd as <-.
      rewrite Hi in Hdi. injection Hdi as <-.
      exists (dict_set attr x items0). split.
      * apply list_lookup_insert_eq. eapply lookup_lt_Some. exact Hi.
      * intros k Hk. apply dict_get_set_ne. exact Hk.
Qed.

(** An attribute or an [extra_attrs] entry of the copy that no later
    override names is still there when the loop ends. *)
Lemma apply_overrides_keeps self c k items :
  c <> self ->
  k ∉ map fst items ->
  Forall (fun kv => fst kv <> "extra_attrs") items ->
  forall st st',
    read_attr (heap st) self "_resolved" = Ok (VRef c) ->
    apply_overrides self items st = Ok (tt, st') ->
    hasattr (heap st') (VRef c) k = hasattr (heap st) (VRef c) k /\
    read_attr (heap st') c k = read_attr (heap st) c k /\
    (forall d x v,
        read_attr (heap st) c "extra_attrs" = Ok (VRef d) ->
        heap st !! d = Some (ODict x) ->
        dict_get k x = Some v ->
        exists x',
          read_attr (heap st') c "extra_attrs" = Ok (VRef d) /\
          heap st' !! d = Some (ODict x') /\
          dict_get k x' = Some v).
Proof.
  intros Hne. induction items as [|[attr y] items IH];
    intros Hk Hall st st' Hr H; simpl in H.
  - injection H as <-. split; [reflexivity|]. split; [reflexivity|]. eauto.
  - apply Forall_cons in Hall as [Hattr Hall]. simpl in Hattr.
    assert (Hka : k <> attr).
    { intros ->. apply Hk. simpl. left. }
    assert (Hk' : k ∉ map fst items).
    { intros Hin. apply Hk. simpl. right. exact Hin. }
    apply bind_Ok in H as ([] & st1 & H1 & H).
    pose proof (apply_override_effect self attr y st) as He. rewrite H1 in He.
    destruct (override_effect_keeps self c attr y st st1 Hne Hr He)
      as (Hr1 & Hsame & Hdict).
    destruct (IH Hk' Hall st1 st' Hr1 H) as (Hh & Ha & Hd).
    destruct (Hsame k Hka) as [Hh1 Ha1].
    split; [congruence|]. split; [congruence|].
    intros d x v Hea Hdx Hv.
    destruct (Hdict d x Hattr Hea Hdx) as (x1 & Hdx1 & Hx1).
    apply (Hd d x1 v).
    + destruct (Hsame "extra_attrs" ltac:(congruence)) as [_ ->]. exact Hea.
    + exact Hdx1.
    + rewrite Hx1 by exact Hka. exact Hv.
Qed.

(** Every entry of the Proxy's [extra_attrs] has been applied when the
    loop ends: as an attribute of the copy when the copy had one of that
    name, as an entry of the copy's [extra_attrs] otherwise. *)
Lemma apply_overrides_sets self c items :
  c <> self ->
  NoDup (map fst items) ->
  Forall (fun kv => fst kv <> "extra_attrs") items ->
  forall st st',
    read_attr (heap st) self "_resolved" = Ok (VRef c) ->
    apply_overrides self items st = Ok (tt, st') ->
    forall k v,
      dict_get k items = Some v ->
      (hasattr (heap st) (VRef c) k = Ok true /\
       read_attr (heap st') c k = Ok v) \/
      (hasattr (heap st) (VRef c) k = Ok false /\
       exists d x,
         read_attr (heap st') c "extra_attrs" = Ok (VRef d) /\
         heap st' !! d = Some (ODict x) /\
         dict_get k x = Some v).
Proof.
  intros Hne. induction items as [|[attr y] items IH];
    intros Hnd Hall st st' Hr H k v Hk; simpl in H, Hk; [discriminate|].
  apply Forall_cons in Hall as [Hattr Hall]. simpl in Hattr.
  apply NoDup_cons in Hnd as [Hfresh Hnd]. simpl in Hfresh.
  apply bind_Ok in H as ([] & st1 & H1 & H).
  pose proof (apply_override_effect self attr y st) as He. rewrite H1 in He.
  destruct (override_effect_keeps self c attr y st st1 Hne Hr He)
    as (Hr1 & Hsame & Hdict).
  destruct (String.eqb_spec k attr) as [->|Hka].
  - injection Hk as <-.
    destruct (apply_overrides_keeps self c attr items Hne Hfresh Hall st1 st'
                Hr1 H) as (_ & Ha & Hd).
    destruct (apply_override_semantics self attr y st st1 c Hr H1)
      as [[Hh Hset]|(Hh & e & x & Hea & Hex & Hx)].
    + left. split; [exact Hh|]. rewrite Ha. exact Hset.
    + right. split; [exact Hh|].
      assert (Hea1 : read_attr (heap st1) c "extra_attrs" = Ok (VRef e)).
      { destruct (Hsame "extra_attrs" ltac:(congruence)) as [_ ->]. exact Hea. }
      destruct (Hd e x y Hea1 Hex Hx) as (x' & H1' & H2' & H3').
      exists e, x'. auto.
  - destruct (Hsame k Hka) as [Hh1 _]. rewrite <- Hh1.
    apply (IH Hnd Hall st1 st' Hr1 H k v Hk).
Qed.

Lemma same_keys_has (a b : pydict) k :
  map fst a = map fst b -> dict_has k a = dict_has k b.
Proof.
  revert b. induction a as [|[k0 v0] a IH]; intros [|[k1 v1] b] H;
    try discriminate; [reflexivity|].
  simpl in H. injection H as -> H. unfold dict_has in *. simpl.
  destruct (String.eqb k k1); [reflexivity|]. apply IH. exact H.
Qed.

(** ** Keyword arguments and defaults *)

Lemma bind_keywords_Ok bound open kw named extra :
  bind_keywords bound open kw = Ok (named, extra) ->
  no_clash bound kw /\
  named = List.filter (among open) kw /\
  extra = List.filter (fun kv => negb (among open kv)) kw.
Proof.
  intros H. pose proof (bind_keywords_outcome bound open kw) as Hc.
  rewrite H in Hc. rewrite (bind_keywords_ok _ _ _ Hc) in H.
  injection H as <- <-. auto.
Qed.

Lemma fill_defaults_Ok ps nm rest :
  fill_defaults ps nm = Ok rest ->
  rest = map (fun pd => (fst pd,
                         default (default VNone (snd pd)) (dict_get (fst pd) nm)))
           ps.
Proof.
  revert rest. induction ps as [|[p d] ps IH]; intros rest H; simpl in H.
  - injection H as <-. reflexivity.
  - apply pbind_Ok in H as (rest0 & H0 & H). rewrite (IH _ H0) in H.
    simpl. destruct (dict_get p nm) as [v|].
    + injection H as <-. reflexivity.
    + destruct d as [v|]; [|discriminate]. injection H as <-. reflexivity.
Qed.

(** A call with keywords only. *)
Lemma bind_args_keywords ps kw named extra :
  bind_args ps [] kw = Ok (named, extra) ->
  named = map (fun pd => (fst pd,
                          default (default VNone (snd pd))
                            (dict_get (fst pd)
                               (List.filter (among (map fst ps)) kw)))) ps.
Proof.
  unfold bind_args. simpl. intros H.
  apply pbind_Ok in H as ([nm ex] & Hk & H).
  apply pbind_Ok in H as (rest & Hf & H). injection H as <- _.
  apply bind_keywords_Ok in Hk as (_ & -> & _).
  rewrite drop_0 in *. apply fill_defaults_Ok. exact Hf.
Qed.

Lemma dict_get_filter_none (p : string * value -> bool) k (kw : pydict) :
  dict_get k kw = None -> dict_get k (List.filter p kw) = None.
Proof.
  induction kw as [|[k0 v0] kw IH]; [reflexivity|]. cbn [dict_get List.filter].
  destruct (String.eqb_spec k k0) as [->|Hne]; [discriminate|].
  intros H. destruct (p (k0, v0)); cbn [dict_get]; [|exact (IH H)].
  destruct (String.eqb_spec k k0); [congruence|exact (IH H)].
Qed.

(** ** The tags that rename or parse a key *)

Lemma mapM_length {A B} (f : A -> M B) xs st ys st' :
  mapM f xs st = Ok (ys, st') -> length ys = length xs.
Proof.
  revert st ys st'. induction xs as [|x xs IH]; intros st ys st' H; simpl in H.
  - injection H as <- _. reflexivity.
  - apply bind_Ok in H as (y & st1 & _ & H).
    apply bind_Ok in H as (ys0 & st2 & H & H2). injection H2 as <- _.
    simpl. f_equal. eapply IH. exact H.
Qed.

(** ** Calls that return *)

Lemma no_clash_absent bound kw :
  dict_get "self" kw = None ->
  (forall k, k ∈ bound -> dict_get k kw = None) ->
  no_clash bound kw.
Proof.
  intros Hself Hb. unfold no_clash. apply Forall_forall. intros [k v] Hin.
  cbn [fst].
  assert (Hsome : exists w, dict_get k kw = Some w).
  { clear -Hin. induction kw as [|[k0 v0] kw IH].
    - apply elem_of_nil in Hin. contradiction.
    - cbn [dict_get]. destruct (String.eqb_spec k k0); [eauto|].
      apply elem_of_cons in Hin as [Hin|Hin]; [congruence|]. apply IH, Hin. }
  destruct Hsome as [w Hw]. split.
  - intros ->. congruence.
  - intros Hk. rewrite (Hb k Hk) in Hw. discriminate.
Qed.

Lemma no_clash_filter bound (p : string * value -> bool) kw :
  no_clash bound kw -> no_clash bound (List.filter p kw).
Proof.
  unfold no_clash. induction 1 as [|kv kw Hkv _ IH]; cbn [List.filter].
  - constructor.
  - destruct (p kv); [constructor; assumption|exact IH].
Qed.

Lemma fill_defaults_total ps named :
  (forall p, In (p, None) ps -> dict_has p named = true) ->
  exists rest, fill_defaults ps named = Ok rest.
Proof.
  induction ps as [|[p d] ps IH]; intros Hreq; simpl; [eauto|].
  destruct IH as [rest ->]; [intros q Hq; apply Hreq; right; exact Hq|].
  simpl. destruct (dict_get p named) as [v|] eqn:E; [eauto|].
  destruct d as [v|]; [eauto|].
  specialize (Hreq p (or_introl eq_refl)). unfold dict_has in Hreq.
  rewrite E in Hreq. discriminate.
Qed.

(** A constructor call returns when no keyword clashes with a bound
    parameter, every required parameter is given, and no alias is to be
    registered. *)
Lemma new_returns c pos kw st :
  c <> RecapType ->
  length pos <= length (init_sig c) ->
  no_clash (take (length pos) (map fst (init_sig c)) ++ ["type_"]) kw ->
  (forall p, In (p, None) (drop (length pos) (init_sig c)) ->
             dict_has p kw = true) ->
  dict_get "alias" kw = None \/ c = ProxyType ->
  exists st',
    new c pos kw st = Ok (VRef (length (heap st)), st') /\
    type_registry st' = type_registry st.
Proof.
  intros Hc Hlen Hclash Hreq Halias.
  set (names := map fst (init_sig c)) in *.
  set (open := map fst (drop (length pos) (init_sig c))).
  assert (Hc1 : no_clash (take (length pos) names) kw).
  { eapply no_clash_weaken; [|exact Hclash]. intros k Hk.
    apply elem_of_app. auto. }
  assert (Hc2 : no_clash ["type_"] kw).
  { eapply no_clash_weaken; [|exact Hclash]. intros k Hk.
    apply elem_of_app. auto. }
  destruct (fill_defaults_total (drop (length pos) (init_sig c))
              (List.filter (among open) kw)) as [rest Hrest].
  { intros p Hp. specialize (Hreq p Hp). unfold dict_has in *.
    rewrite dict_get_filter_among; [exact Hreq|].
    unfold open. apply list_elem_of_In.
    apply (in_map fst) in Hp. exact Hp. }
  assert (Hb : bind_args (init_sig c) pos kw =
               Ok (zip (take (length pos) names) pos ++ rest,
                   List.filter (fun kv => negb (among open kv)) kw)).
  { unfold bind_args.
    rewrite bool_decide_eq_false_2 by lia. cbv zeta. fold names. fold open.
    rewrite zip_take_fst by (unfold names; rewrite length_map; exact Hlen).
    rewrite (bind_keywords_ok _ open kw Hc1). cbn [pbind].
    rewrite Hrest. reflexivity. }
  set (extra := List.filter (fun kv => negb (among open kv)) kw) in *.
  assert (Hb0 : bind_args RecapType_sig [VStr (type_tag c)] extra =
                Ok (base_named (type_tag c) extra, extras extra)).
  { apply bind_base. apply no_clash_filter. exact Hc2. }
  assert (Hnoalias : dict_get "alias" extra = None).
  { destruct Halias as [Ha| ->].
    - apply dict_get_filter_none. exact Ha.
    - destruct pos as [|a pos].
      + apply filter_excludes. elem_in.
      + apply dict_get_filter_none.
        destruct (dict_get "alias" kw) as [v|] eqn:E; [|reflexivity].
        destruct (no_clash_key _ _ _ _ Hc1 E) as [_ Hn]. exfalso. apply Hn.
        simpl. left. }
  assert (Hs : super_args c pos kw =
               Ok (zip (take (length pos) names) pos ++ rest,
                   [VStr (type_tag c)], extra)).
  { rewrite super_args_cases.
    destruct c; try congruence; rewrite Hb; reflexivity. }
  rewrite new_cases. cbv zeta. rewrite Hs. rewrite Hb0.
  assert (Ha0 : arg "alias" (base_named (type_tag c) extra) = VNone).
  { unfold base_named, arg. cbn [dict_get String.eqb Ascii.eqb Bool.eqb].
    rewrite Hnoalias. reflexivity. }
  rewrite Ha0. unfold register_self. unfold bind at 1. unfold ret at 1.
  unfold bind at 1. rewrite finish_exact. eexists. split; reflexivity.
Qed.

Lemma scalar_dispatch parse s td st :
  scalar_tag s = true ->
  (forall k, In k (required_keys s) -> dict_has k td = true) ->
  dict_get "self" td = None ->
  dict_get "type_" td = None ->
  dict_get "alias" td = None ->
  exists st',
    dispatch parse s td st = Ok (VRef (length (heap st)), st') /\
    type_registry st' = type_registry st.
Proof.
  intros Hsc Hreq Hself Htype Halias.
  assert (Hplain : forall c kw,
    c <> RecapType -> c <> ProxyType ->
    dict_get "self" kw = None -> dict_get "type_" kw = None ->
    dict_get "alias" kw = None ->
    (forall p, In (p, None) (init_sig c) -> dict_has p kw = true) ->
    exists st',
      new c [] kw st = Ok (VRef (length (heap st)), st') /\
      type_registry st' = type_registry st).
  { intros c kw H1 H2 Hs Ht Ha Hr.
    apply new_returns; [exact H1 | simpl; lia | | exact Hr | left; exact Ha].
    apply no_clash_absent; [exact Hs|]. intros k Hk.
    apply list_elem_of_singleton in Hk. subst k. exact Ht. }
  unfold dispatch. unfold scalar_tag, tag_class in Hsc.
  unfold required_keys in Hreq.
  destruct (String.eqb s "null") eqn:E1.
  { apply Hplain; try discriminate; auto; intros p []. }
  destruct (String.eqb s "bool") eqn:E2.
  { apply Hplain; try discriminate; auto; intros p []. }
  destruct (String.eqb s "int") eqn:E3.
  { rewrite (Hreq "bits") by (left; reflexivity). cbn [negb].
    apply Hplain; try discriminate; auto.
    intros p [Hp|[Hp|[]]]; inversion Hp; subst. apply Hreq. left. reflexivity. }
  destruct (String.eqb s "float") eqn:E4.
  { rewrite (Hreq "bits") by (left; reflexivity). cbn [negb].
    apply Hplain; try discriminate; auto.
    intros p [Hp|[]]; inversion Hp; subst. apply Hreq. left. reflexivity. }
  destruct (String.eqb s "string") eqn:E5.
  { rewrite (Hreq "bytes") by (left; reflexivity). cbn [negb].
    rewrite dict_pop_eq.
    apply Hplain; try discriminate;
      try (rewrite dict_get_set_ne, dict_get_del_ne by discriminate; assumption).
    intros p [Hp|[Hp|[]]]; inversion Hp; subst.
    unfold dict_has. rewrite dict_get_set_eq. reflexivity. }
  destruct (String.eqb s "bytes") eqn:E6.
  { rewrite (Hreq "bytes") by (left; reflexivity). cbn [negb].
    rewrite dict_pop_eq.
    apply Hplain; try discriminate;
      try (rewrite dict_get_set_ne, dict_get_del_ne by discriminate; assumption).
    intros p [Hp|[Hp|[]]]; inversion Hp; subst.
    unfold dict_has. rewrite dict_get_set_eq. reflexivity. }
  destruct (String.eqb s "list") eqn:E7; [discriminate|].
  destruct (String.eqb s "map") eqn:E8; [discriminate|].
  destruct (String.eqb s "struct") eqn:E9; [discriminate|].
  destruct (String.eqb s "enum") eqn:E10.
  { rewrite (Hreq "symbols") by (left; reflexivity). cbn [negb].
    apply Hplain; try discriminate; auto.
    intros p [Hp|[]]; inversion Hp; subst. apply Hreq. left. reflexivity. }
  destruct (String.eqb s "union") eqn:E11; [discriminate|].
  apply new_returns;
    [discriminate | simpl; lia | | intros p [] | right; reflexivity].
  apply no_clash_absent; [exact Hself|]. intros k Hk.
  apply elem_of_cons in Hk as [->|Hk]; [exact Halias|].
  apply list_elem_of_singleton in Hk. subst k. exact Htype.
Qed.

(** ** The built-in aliases *)

Lemma builtins_checked :
  forallb (builtin_entry initial_state) builtin_aliases = true /\
  size (type_registry initial_state) = length builtin_aliases.
Proof. split; vm_compute; reflexivity. Qed.

Lemma builtin_entry_spec st name c pos kw :
  builtin_entry st (name, (c, pos, kw)) = true ->
  exists l,
    type_registry st !! KStr name = Some l /\
    class_of (heap st) l = Some c /\
    read_attr (heap st) l "alias" = Ok VNone /\
    exists r st',
      new c pos kw st = Ok (r, st') /\
      py_eq 3 (heap st') (VRef l) r = Ok true.
Proof.
  unfold builtin_entry. intros Hall.
  destruct (type_registry st !! KStr name) as [l|]; [|discriminate].
  exists l. split; [reflexivity|].
  apply andb_prop in Hall as [Hall Heq]. apply andb_prop in Hall as [Hc Ha].
  apply bool_decide_eq_true in Hc. split; [exact Hc|]. split.
  - destruct (read_attr (heap st) l "alias") as [[]| | |];
      try discriminate. reflexivity.
  - destruct (new c pos kw st) as [[r st']| | |]; try discriminate.
    exists r, st'. split; [reflexivity|].
    destruct (py_eq 3 (heap st') (VRef l) r) as [[]| | |]; try discriminate.
    reflexivity.
Qed.

(** ** Equal arguments, equal instances *)

Lemma seq_eq_same cmp xs : seq_eq (item_eq cmp) xs xs = Ok true.
Proof.
  induction xs as [|x xs IH]; simpl; [reflexivity|].
  unfold item_eq at 1. rewrite bool_decide_eq_true_2 by reflexivity.
  simpl. exact IH.
Qed.

Lemma dict_eq_same_aux cmp (d1 d2 : pydict) :
  (forall k v, (k, v) ∈ d1 -> dict_get k d2 = Some v) ->
  dict_eq (item_eq cmp) d1 d2 = Ok true.
Proof.
  induction d1 as [|[k v] d1 IH]; intros H; simpl; [reflexivity|].
  rewrite (H k v) by left.
  unfold item_eq at 1. rewrite bool_decide_eq_true_2 by reflexivity.
  simpl. apply IH. intros k' v' Hin. apply H. right. exact Hin.
Qed.

Lemma dict_get_NoDup (d : pydict) k v :
  NoDup (map fst d) -> (k, v) ∈ d -> dict_get k d = Some v.
Proof.
  induction d as [|[k0 v0] d IH]; intros Hnd Hin.
  - apply elem_of_nil in Hin. contradiction.
  - simpl in Hnd. apply NoDup_cons in Hnd as [Hk0 Hnd].
    apply elem_of_cons in Hin as [Heq|Hin].
    + injection Heq as -> ->. simpl. rewrite String.eqb_refl. reflexivity.
    + simpl. destruct (String.eqb_spec k k0) as [->|Hne].
      * exfalso. apply Hk0. apply list_elem_of_fmap. exists (k0, v). auto.
      * apply IH; assumption.
Qed.

Lemma dict_eq_same cmp (d : pydict) :
  NoDup (map fst d) -> dict_eq (item_eq cmp) d d = Ok true.
Proof.
  intros Hnd. apply dict_eq_same_aux. intros k v Hin.
  apply dict_get_NoDup; assumption.
Qed.

Lemma py_eq_dicts f h l1 l2 d :
  h !! l1 = Some (ODict d) -> h !! l2 = Some (ODict d) ->
  NoDup (map fst d) ->
  py_eq (S f) h (VRef l1) (VRef l2) = Ok true.
Proof.
  intros H1 H2 Hnd. simpl. rewrite H1, H2.
  rewrite bool_decide_eq_true_2 by reflexivity. apply dict_eq_same. exact Hnd.
Qed.

Lemma py_eq_lists f h l1 l2 xs :
  h !! l1 = Some (OList xs) -> h !! l2 = Some (OList xs) ->
  py_eq (S f) h (VRef l1) (VRef l2) = Ok true.
Proof.
  intros H1 H2. simpl. rewrite H1, H2.
  rewrite bool_decide_eq_true_2 by reflexivity. apply seq_eq_same.
Qed.

Lemma atom_eq_same v : (forall l, v <> VRef l) -> atom_eq v v = true.
Proof.
  intros Hv. destruct v as [|b|z|s|l]; simpl.
  - reflexivity.
  - destruct b; reflexivity.
  - apply Z.eqb_refl.
  - apply String.eqb_refl.
  - exfalso. apply (Hv l). reflexivity.
Qed.

Lemma py_eq_comparable f h v :
  comparable h v -> py_eq (S f) h v v = Ok true.
Proof.
  intros Hc. destruct v as [|b|z|s|l].
  - reflexivity.
  - destruct b; reflexivity.
  - simpl. rewrite Z.eqb_refl. reflexivity.
  - simpl. rewrite String.eqb_refl. reflexivity.
  - destruct Hc as [xs Hl]. eapply py_eq_lists; exact Hl.
Qed.

Lemma filter_NoDup_keys (p : string * value -> bool) (d : pydict) :
  NoDup (map fst d) -> NoDup (map fst (List.filter p d)).
Proof.
  induction d as [|[k v] d IH]; intros Hnd; cbn [List.filter map];
    [constructor|].
  simpl in Hnd. apply NoDup_cons in Hnd as [Hk Hnd].
  destruct (p (k, v)); [|apply IH, Hnd].
  simpl. apply NoDup_cons. split; [|apply IH, Hnd].
  intros Hin. apply Hk. apply list_elem_of_fmap in Hin as ([k' v'] & -> & Hin).
  apply list_elem_of_fmap. exists (k', v'). split; [reflexivity|].
  apply list_elem_of_In. apply list_elem_of_In in Hin.
  apply List.filter_In in Hin. apply Hin.
Qed.

Lemma read_attr_get h l c attrs n v :
  h !! l = Some (OInst c attrs) ->
  read_attr h l n = Ok v -> dict_get n attrs = Some v.
Proof.
  intros Hl. unfold read_attr. rewrite Hl.
  destruct (dict_get n attrs); [|discriminate]. intros H. injection H as <-.
  reflexivity.
Qed.

Lemma class_of_inst h l c :
  class_of h l = Some c -> exists attrs, h !! l = Some (OInst c attrs).
Proof.
  unfold class_of. destruct (h !! l) as [[d|xs|c0 attrs]|]; try discriminate.
  intros H. injection H as <-. eauto.
Qed.

(** ** A deep copy is equal to its original *)

Lemma val_copied_mono memo memo' x y :
  memo ⊆ memo' -> val_copied memo x y -> val_copied memo' x y.
Proof.
  intros Hs. destruct x as [| | | |m]; simpl; auto.
  intros (m' & -> & Hm). exists m'. split; [reflexivity|].
  eapply lookup_weaken; eassumption.
Qed.

Lemma item_copied_mono memo memo' kv kv' :
  memo ⊆ memo' -> item_copied memo kv kv' -> item_copied memo' kv kv'.
Proof.
  intros Hs [Hk Hv]. split; [exact Hk|]. eapply val_copied_mono; eassumption.
Qed.

Lemma obj_copied_mono memo memo' o o' :
  memo ⊆ memo' -> obj_copied memo o o' -> obj_copied memo' o o'.
Proof.
  intros Hs. destruct o as [d|xs|c a], o' as [d'|ys|c' a']; simpl; auto.
  - intros H. eapply Forall2_impl; [exact H|].
    intros kv kv'. apply item_copied_mono, Hs.
  - intros H. eapply Forall2_impl; [exact H|].
    intros x y. apply val_copied_mono, Hs.
  - intros [-> H]. split; [reflexivity|]. eapply Forall2_impl; [exact H|].
    intros kv kv'. apply item_copied_mono, Hs.
Qed.

Lemma copy_post_refl n0 P memo h :
  copied_heap P n0 memo h -> copy_post n0 P memo h memo h.
Proof.
  intros H. refine (conj _ (conj _ (conj _ (conj _ H)))); auto.
Qed.

Lemma copy_post_trans n0 P memo h memo1 h1 memo2 h2 :
  copy_post n0 P memo h memo1 h1 ->
  copy_post n0 P memo1 h1 memo2 h2 ->
  copy_post n0 P memo h memo2 h2.
Proof.
  intros (L1 & F1 & S1 & N1 & C1) (L2 & F2 & S2 & N2 & C2).
  refine (conj _ (conj _ (conj _ (conj _ C2)))).
  - lia.
  - intros k Hk. rewrite F2 by lia. apply F1, Hk.
  - etrans; eassumption.
  - intros k k' Hk. destruct (N2 k k' Hk) as [H|H]; [|right; lia].
    destruct (N1 k k' H) as [H'|H']; [left; exact H'|right; exact H'].
Qed.

Lemma copy_pre_post h0 P memo h memo' h' :
  copy_pre h0 P memo h -> copy_post (length h0) P memo h memo' h' ->
  copy_pre h0 P memo' h'.
Proof.
  intros (L & F & C) (L1 & F1 & S1 & N1 & C1).
  refine (conj _ (conj _ C1)).
  - lia.
  - intros l Hl. rewrite F1 by lia. apply F, Hl.
Qed.

Lemma copy_items_copies h0 cp :
  copier_copies h0 cp ->
  forall kvs P memo h kvs' memo' h',
    copy_pre h0 P memo h ->
    Forall (fun v => validb (length h0) v = true) (map snd kvs) ->
    copy_items cp memo h kvs = Ok (kvs', memo', h') ->
    copy_post (length h0) P memo h memo' h' /\
    Forall2 (item_copied memo') kvs kvs'.
Proof.
  intros Hcp. induction kvs as [|[k x] kvs IH];
    intros P memo h kvs' memo' h' Hpre Hv H; simpl in H.
  - injection H as <- <- <-. split; [|constructor].
    apply copy_post_refl, Hpre.
  - simpl in Hv. apply Forall_cons in Hv as [Hx Hv].
    apply pbind_Ok in H as ([[y memo1] h1] & Hy & H).
    apply pbind_Ok in H as ([[ys memo2] h2] & Hrest & H).
    injection H as <- <- <-.
    destruct (Hcp _ _ _ _ _ _ _ Hpre Hx Hy) as [Hp1 Hc1].
    pose proof (copy_pre_post _ _ _ _ _ _ Hpre Hp1) as Hpre1.
    destruct (IH _ _ _ _ _ _ Hpre1 Hv Hrest) as [Hp2 Hc2].
    split; [eapply copy_post_trans; eassumption|].
    constructor; [|exact Hc2]. split; [reflexivity|]. simpl.
    eapply val_copied_mono; [|exact Hc1]. apply Hp2.
Qed.

Lemma copy_values_copies h0 cp :
  copier_copies h0 cp ->
  forall xs P memo h xs' memo' h',
    copy_pre h0 P memo h ->
    Forall (fun v => validb (length h0) v = true) xs ->
    copy_values cp memo h xs = Ok (xs', memo', h') ->
    copy_post (length h0) P memo h memo' h' /\
    Forall2 (val_copied memo') xs xs'.
Proof.
  intros Hcp. induction xs as [|x xs IH];
    intros P memo h xs' memo' h' Hpre Hv H; simpl in H.
  - injection H as <- <- <-. split; [|constructor].
    apply copy_post_refl, Hpre.
  - apply Forall_cons in Hv as [Hx Hv].
    apply pbind_Ok in H as ([[y memo1] h1] & Hy & H).
    apply pbind_Ok in H as ([[ys memo2] h2] & Hrest & H).
    injection H as <- <- <-.
    destruct (Hcp _ _ _ _ _ _ _ Hpre Hx Hy) as [Hp1 Hc1].
    pose proof (copy_pre_post _ _ _ _ _ _ Hpre Hp1) as Hpre1.
    destruct (IH _ _ _ _ _ _ Hpre1 Hv Hrest) as [Hp2 Hc2].
    split; [eapply copy_post_trans; eassumption|].
    constructor; [|exact Hc2].
    eapply val_copied_mono; [|exact Hc1]. apply Hp2.
Qed.

(** Entering an object: the memo gets its entry and the store a
    placeholder before the parts are copied. *)
Lemma copy_enter h0 P memo h l p :
  copy_pre h0 P memo h -> l < length h0 -> memo !! l = None ->
  copy_pre h0 (fun k => P k \/ k = l) (<[l := length h]> memo) (h ++ [p]).
Proof.
  intros (L & F & C) Hl Hnone.
  assert (Hsub : memo ⊆ <[l := length h]> memo)
    by (apply insert_subseteq; exact Hnone).
  refine (conj _ (conj _ _)).
  - rewrite length_app. simpl. lia.
  - intros k Hk. rewrite lookup_app_l by lia. apply F, Hk.
  - intros k k' H. rewrite length_app. simpl.
    apply lookup_insert_Some in H as [[<- <-]|[Hne H]].
    { split; [lia|]. intros HnP. exfalso. apply HnP. right. reflexivity. }
    destruct (C _ _ H) as [[Hl0 [Hge Hlt]] Hdone].
    split; [lia|]. intros HnP.
    destruct Hdone as (o & o' & Ho & Ho' & Hc).
    { intros HP. apply HnP. left. exact HP. }
    exists o, o'. split; [|split].
    + rewrite lookup_app_l by lia. exact Ho.
    + rewrite lookup_app_l by lia. exact Ho'.
    + eapply obj_copied_mono; eassumption.
Qed.

(** Leaving an object: the placeholder is replaced by the finished
    copy. *)
Lemma copy_place h0 P memo h l o o' p memo2 h2 :
  copy_pre h0 P memo h -> l < length h0 -> memo !! l = None ->
  h !! l = Some o ->
  copy_post (length h0) (fun k => P k \/ k = l)
    (<[l := length h]> memo) (h ++ [p]) memo2 h2 ->
  obj_copied memo2 o o' ->
  copy_post (length h0) P memo h memo2 (<[length h := o']> h2) /\
  val_copied memo2 (VRef l) (VRef (length h)).
Proof.
  intros (L & F & C) Hl Hnone Ho (L2 & F2 & S2 & N2 & C2) Hoo.
  rewrite length_app in L2, F2, N2. simpl in L2, F2, N2.
  assert (Hsub : memo ⊆ <[l := length h]> memo)
    by (apply insert_subseteq; exact Hnone).
  assert (Hml : memo2 !! l = Some (length h)).
  { eapply lookup_weaken; [|exact S2]. apply lookup_insert_eq. }
  assert (Hnew : forall k k', memo2 !! k = Some k' ->
                   (k = l /\ k' = length h) \/
                   (k <> l /\ (memo !! k = Some k' \/ length h < k'))).
  { intros k k' Hk. destruct (decide (k = l)) as [->|Hne].
    - left. split; [reflexivity|]. congruence.
    - right. split; [exact Hne|]. destruct (N2 k k' Hk) as [H|H].
      + left. rewrite lookup_insert_ne in H by congruence. exact H.
      + right. lia. }
  split; [|exists (length h); auto].
  refine (conj _ (conj _ (conj _ (conj _ _)))).
  - rewrite length_insert. lia.
  - intros k Hk. rewrite list_lookup_insert_ne by lia.
    rewrite F2 by lia. apply lookup_app_l. exact Hk.
  - etrans; eassumption.
  - intros k k' Hk. destruct (Hnew k k' Hk) as [[-> ->]|[_ [H|H]]];
      [right; lia|left; exact H|right; lia].
  - intros k k' H. rewrite length_insert.
    split; [destruct (C2 _ _ H) as [Hb _]; lia|].
    intros HnP. destruct (Hnew _ _ H) as [[-> ->]|[Hne Hold]].
    + exists o, o'. split; [|split].
      * rewrite list_lookup_insert_ne by lia. rewrite F2 by lia.
        rewrite lookup_app_l by lia. exact Ho.
      * apply list_lookup_insert_eq. lia.
      * exact Hoo.
    + destruct (C2 _ _ H) as [[Hl0 _] Hdone].
      destruct Hdone as (o1 & o1' & Ho1 & Ho1' & Hc1).
      { intros [HP|Heq]; [apply HnP, HP|contradiction]. }
      assert (Hl' : k' <> length h).
      { destruct Hold as [Hold|Hold]; [|lia].
        destruct (C _ _ Hold) as [[_ [_ Hlt]] _]. lia. }
      exists o1, o1'. split; [|split].
      * rewrite list_lookup_insert_ne by lia. exact Ho1.
      * rewrite list_lookup_insert_ne by congruence. exact Ho1'.
      * exact Hc1.
Qed.

Lemma deepcopy_copies h0 :
  wf_heap h0 = true -> forall f, copier_copies h0 (deepcopy f).
Proof.
  intros Hwf. induction f as [|f IH];
    intros P memo h v v' memo' h' Hpre Hv H.
  - destruct v as [| | | |l]; simpl in H;
      try (injection H as <- <- <-; split;
           [apply copy_post_refl, Hpre|reflexivity]).
    destruct (memo !! l) as [l'|] eqn:El; [|discriminate].
    injection H as <- <- <-. split; [apply copy_post_refl, Hpre|].
    exists l'. auto.
  - destruct v as [| | | |l]; simpl in H;
      try (injection H as <- <- <-; split;
           [apply copy_post_refl, Hpre|reflexivity]).
    destruct (memo !! l) as [l'|] eqn:El.
    { injection H as <- <- <-. split; [apply copy_post_refl, Hpre|].
      exists l'. auto. }
    simpl in Hv. apply Nat.ltb_lt in Hv.
    destruct (h !! l) as [o|] eqn:Eo; [|discriminate].
    assert (Ho0 : h0 !! l = Some o).
    { destruct Hpre as (_ & F & _). rewrite <- (F l Hv). exact Eo. }
    pose proof (wf_heap_values h0 l o Hwf Ho0) as Hvals.
    destruct o as [kvs|xs|c attrs]; simpl in Hvals.
    + apply pbind_Ok in H as ([[kvs' memo1] h1] & Hc & H).
      injection H as <- <- <-.
      destruct (copy_items_copies h0 _ IH _ _ _ _ _ _ _
                  (copy_enter h0 P memo h l (ODict []) Hpre Hv El) Hvals Hc)
        as [Hp Hf].
      exact (copy_place h0 P memo h l (ODict kvs) (ODict kvs') _ _ _
               Hpre Hv El Eo Hp Hf).
    + apply pbind_Ok in H as ([[xs' memo1] h1] & Hc & H).
      injection H as <- <- <-.
      destruct (copy_values_copies h0 _ IH _ _ _ _ _ _ _
                  (copy_enter h0 P memo h l (OList []) Hpre Hv El) Hvals Hc)
        as [Hp Hf].
      exact (copy_place h0 P memo h l (OList xs) (OList xs') _ _ _
               Hpre Hv El Eo Hp Hf).
    + apply pbind_Ok in H as ([[attrs' memo1] h1] & Hc & H).
      injection H as <- <- <-.
      destruct (copy_items_copies h0 _ IH _ _ _ _ _ _ _
                  (copy_enter h0 P memo h l (OInst c []) Hpre Hv El) Hvals Hc)
        as [Hp Hf].
      exact (copy_place h0 P memo h l (OInst c attrs) (OInst c attrs') _ _ _
               Hpre Hv El Eo Hp (conj eq_refl Hf)).
Qed.

(** A copy started with an empty memo ends with every entry finished. *)
Lemma deepcopy_linked fuel h0 t v' memo' h1 :
  wf_heap h0 = true -> t < length h0 ->
  deepcopy fuel ∅ h0 (VRef t) = Ok (v', memo', h1) ->
  linked memo' h1 /\ val_copied memo' (VRef t) v' /\
  forall k, k < length h0 -> h1 !! k = h0 !! k.
Proof.
  intros Hwf Ht H.
  assert (Hpre : copy_pre h0 (fun _ => False) ∅ h0).
  { refine (conj _ (conj _ _)); auto.
    intros l l' Hl. rewrite lookup_empty in Hl. discriminate. }
  destruct (deepcopy_copies h0 Hwf fuel (fun _ => False) ∅ h0 (VRef t)
              v' memo' h1 Hpre) as [(L & F & S & N & C) Hc]; auto.
  { simpl. apply Nat.ltb_lt. exact Ht. }
  split; [|split; [exact Hc|exact F]].
  intros l l' Hl. apply (C l l' Hl). tauto.
Qed.

Lemma keyed_get_l memo d d' k x :
  Forall2 (item_copied memo) d d' -> dict_get k d = Some x ->
  exists y, dict_get k d' = Some y /\ val_copied memo x y.
Proof.
  induction 1 as [|[k1 x1] [k2 y1] d d' [Hk Hv] _ IH]; simpl; [discriminate|].
  simpl in Hk, Hv. subst k2. destruct (String.eqb k k1).
  - intros H. injection H as <-. eauto.
  - exact IH.
Qed.

Lemma keyed_get_r memo d d' k y :
  Forall2 (item_copied memo) d d' -> dict_get k d' = Some y ->
  exists x, dict_get k d = Some x /\ val_copied memo x y.
Proof.
  induction 1 as [|[k1 x1] [k2 y1] d d' [Hk Hv] _ IH]; simpl; [discriminate|].
  simpl in Hk, Hv. subst k2. destruct (String.eqb k k1).
  - intros H. injection H as <-. eauto.
  - exact IH.
Qed.

Lemma keyed_keys memo d d' :
  Forall2 (item_copied memo) d d' -> map fst d' = map fst d.
Proof.
  induction 1 as [|[k1 x1] [k2 y1] d d' [Hk Hv] _ IH]; simpl; [reflexivity|].
  simpl in Hk. subst k2. f_equal. exact IH.
Qed.

Lemma dict_get_In k x (d : pydict) : dict_get k d = Some x -> In (k, x) d.
Proof.
  induction d as [|[k0 x0] d IH]; simpl; [discriminate|].
  destruct (String.eqb_spec k k0) as [->|Hne].
  - intros H. injection H as <-. left. reflexivity.
  - intros H. right. apply IH, H.
Qed.

Lemma seq_eq_all cmp (T : value -> value -> Prop) xs ys :
  (forall x y, T x y -> cmp x y = Ok true) ->
  Forall2 T xs ys -> seq_eq cmp xs ys = Ok true.
Proof.
  intros Hcmp. induction 1 as [|x y xs ys Hxy _ IH]; simpl; [reflexivity|].
  rewrite (Hcmp x y Hxy). simpl. exact IH.
Qed.

Lemma dict_eq_all cmp (T : value -> value -> Prop) (d1 d2 : pydict) :
  (forall x y, T x y -> cmp x y = Ok true) ->
  (forall k x, In (k, x) d1 -> exists y, dict_get k d2 = Some y /\ T x y) ->
  dict_eq cmp d1 d2 = Ok true.
Proof.
  intros Hcmp. induction d1 as [|[k x] d1 IH]; intros H; simpl; [reflexivity|].
  destruct (H k x) as (y & -> & Hxy); [left; reflexivity|].
  rewrite (Hcmp x y Hxy). simpl. apply IH.
  intros k' x' Hin. apply H. right. exact Hin.
Qed.

Lemma py_eq_dict_objs f h l1 l2 d1 d2 :
  h !! l1 = Some (ODict d1) -> h !! l2 = Some (ODict d2) ->
  py_eq (S f) h (VRef l1) (VRef l2) =
  if bool_decide (length d1 = length d2)
  then dict_eq (item_eq (py_eq f h)) d1 d2 else Ok false.
Proof. intros H1 H2. simpl. rewrite H1, H2. reflexivity. Qed.

Lemma py_eq_list_objs f h l1 l2 xs ys :
  h !! l1 = Some (OList xs) -> h !! l2 = Some (OList ys) ->
  py_eq (S f) h (VRef l1) (VRef l2) =
  if bool_decide (length xs = length ys)
  then seq_eq (item_eq (py_eq f h)) xs ys else Ok false.
Proof. intros H1 H2. simpl. rewrite H1, H2. reflexivity. Qed.

Lemma twins_l memo h n xs ys :
  Forall2 (val_copied memo) xs ys ->
  forallb (well_built n h) xs = true ->
  Forall2 (twin memo h n) xs ys.
Proof.
  induction 1 as [|x y xs ys Hxy _ IH]; simpl; intros Hw; constructor.
  - apply andb_prop in Hw as [Hx _]. left. auto.
  - apply andb_prop in Hw as [_ Hw]. apply IH, Hw.
Qed.

Lemma twins_r memo h n xs ys :
  Forall2 (val_copied memo) xs ys ->
  forallb (well_built n h) xs = true ->
  Forall2 (twin memo h n) ys xs.
Proof.
  induction 1 as [|x y xs ys Hxy _ IH]; simpl; intros Hw; constructor.
  - apply andb_prop in Hw as [Hx _]. right. auto.
  - apply andb_prop in Hw as [_ Hw]. apply IH, Hw.
Qed.

Lemma fields_copied memo h n a a' names :
  forallb (fun k => match dict_get k a with
                    | Some x => well_built n h x
                    | None => false
                    end) names = true ->
  Forall2 (item_copied memo) a a' ->
  Forall (fun k => exists x y,
            dict_get k a = Some x /\ dict_get k a' = Some y /\
            val_copied memo x y /\ well_built n h x = true) names.
Proof.
  intros Hw Hf. apply Forall_forall. intros k Hk.
  rewrite forallb_forall in Hw. apply list_elem_of_In in Hk.
  specialize (Hw k Hk). destruct (dict_get k a) as [x|] eqn:Ex; [|discriminate].
  destruct (keyed_get_l _ _ _ _ _ Hf Ex) as (y & Ey & Hxy).
  exists x, y. auto.
Qed.

Lemma copy_equal memo h :
  linked memo h ->
  forall n f v w,
    n <= f -> twin memo h n v w -> py_eq (S f) h v w = Ok true.
Proof.
  intros Hlink n. induction n as [n IH] using lt_wf_ind.
  intros f v w Hf [[Hc Hw]|[Hc Hw]].
  - destruct v as [| | | |l];
      try (simpl in Hc; subst w; apply py_eq_comparable; exact I).
    destruct Hc as (l' & -> & Hm).
    destruct (Hlink _ _ Hm) as (o & o' & Ho & Ho' & Hoo).
    destruct n as [|n]; [discriminate|]. cbn [well_built] in Hw.
    rewrite Ho in Hw. destruct f as [|f]; [lia|].
    assert (Hitem : forall x y, twin memo h n x y ->
                      item_eq (py_eq (S f) h) x y = Ok true).
    { intros x y Hxy. unfold item_eq. destruct (bool_decide (x = y));
        [reflexivity|]. apply (IH n); [lia|lia|exact Hxy]. }
    destruct o as [d|xs|c a], o' as [d'|ys|c' a']; simpl in Hoo;
      try contradiction.
    + rewrite (py_eq_dict_objs _ _ _ _ _ _ Ho Ho').
      rewrite bool_decide_eq_true_2 by (eapply Forall2_length; exact Hoo).
      apply andb_prop in Hw as [Hnd Hall].
      apply bool_decide_eq_true_1 in Hnd. rewrite forallb_forall in Hall.
      apply (dict_eq_all _ (twin memo h n)); [exact Hitem|].
      intros k x Hin.
      assert (Hg : dict_get k d = Some x).
      { apply dict_get_NoDup; [exact Hnd|]. apply list_elem_of_In, Hin. }
      destruct (keyed_get_l _ _ _ _ _ Hoo Hg) as (y & Hy & Hxy).
      exists y. split; [exact Hy|]. left. split; [exact Hxy|].
      apply (Hall (k, x) Hin).
    + rewrite (py_eq_list_objs _ _ _ _ _ _ Ho Ho').
      rewrite bool_decide_eq_true_2 by (eapply Forall2_length; exact Hoo).
      apply (seq_eq_all _ (twin memo h n)); [exact Hitem|].
      apply twins_l; assumption.
    + destruct Hoo as [<- Hoo].
      rewrite (py_eq_instances _ _ _ _ _ _ _ _ Ho Ho').
      apply (inst_eq_true _ _ _ _ _ _ _ Ho Ho').
      rewrite forallb_app in Hw. apply andb_prop in Hw as [Hb Hown].
      split; unfold fields_equal.
      * eapply Forall_impl; [exact (fields_copied _ _ _ _ _ _ Hb Hoo)|].
        intros k (x & y & Hx & Hy & Hxy & Hwx). exists x, y.
        split; [exact Hx|]. split; [exact Hy|]. apply Hitem. left. auto.
      * eapply Forall_impl; [exact (fields_copied _ _ _ _ _ _ Hown Hoo)|].
        intros k (x & y & Hx & Hy & Hxy & Hwx). exists x, y.
        split; [exact Hx|]. split; [exact Hy|]. unfold own_cmp.
        destruct (own_tuple c); [apply Hitem; left; auto|].
        apply (IH n); [lia|lia|left; auto].
  - destruct w as [| | | |l];
      try (simpl in Hc; subst v; apply py_eq_comparable; exact I).
    destruct Hc as (l' & -> & Hm).
    destruct (Hlink _ _ Hm) as (o & o' & Ho & Ho' & Hoo).
    destruct n as [|n]; [discriminate|]. cbn [well_built] in Hw.
    rewrite Ho in Hw. destruct f as [|f]; [lia|].
    assert (Hitem : forall x y, twin memo h n x y ->
                      item_eq (py_eq (S f) h) x y = Ok true).
    { intros x y Hxy. unfold item_eq. destruct (bool_decide (x = y));
        [reflexivity|]. apply (IH n); [lia|lia|exact Hxy]. }
    destruct o as [d|xs|c a], o' as [d'|ys|c' a']; simpl in Hoo;
      try contradiction.
    + rewrite (py_eq_dict_objs _ _ _ _ _ _ Ho' Ho).
      rewrite bool_decide_eq_true_2
        by (symmetry; eapply Forall2_length; exact Hoo).
      apply andb_prop in Hw as [Hnd Hall].
      apply bool_decide_eq_true_1 in Hnd. rewrite forallb_forall in Hall.
      apply (dict_eq_all _ (twin memo h n)); [exact Hitem|].
      intros k y Hin.
      assert (Hg : dict_get k d' = Some y).
      { apply dict_get_NoDup; [|apply list_elem_of_In, Hin].
        rewrite (keyed_keys _ _ _ Hoo). exact Hnd. }
      destruct (keyed_get_r _ _ _ _ _ Hoo Hg) as (x & Hx & Hxy).
      exists x. split; [exact Hx|]. right. split; [exact Hxy|].
      apply (Hall (k, x)). apply dict_get_In, Hx.
    + rewrite (py_eq_list_objs _ _ _ _ _ _ Ho' Ho).
      rewrite bool_decide_eq_true_2
        by (symmetry; eapply Forall2_length; exact Hoo).
      apply (seq_eq_all _ (twin memo h n)); [exact Hitem|].
      apply twins_r; assumption.
    + destruct Hoo as [<- Hoo].
      rewrite (py_eq_instances _ _ _ _ _ _ _ _ Ho' Ho).
      apply (inst_eq_true _ _ _ _ _ _ _ Ho' Ho).
      rewrite forallb_app in Hw. apply andb_prop in Hw as [Hb Hown].
      split; unfold fields_equal.
      * eapply Forall_impl; [exact (fields_copied _ _ _ _ _ _ Hb Hoo)|].
        intros k (x & y & Hx & Hy & Hxy & Hwx). exists y, x.
        split; [exact Hy|]. split; [exact Hx|]. apply Hitem. right. auto.
      * eapply Forall_impl; [exact (fields_copied _ _ _ _ _ _ Hown Hoo)|].
        intros k (x & y & Hx & Hy & Hxy & Hwx). exists y, x.
        split; [exact Hy|]. split; [exact Hx|]. unfold own_cmp.
        destruct (own_tuple c); [apply Hitem; right; auto|].
        apply (IH n); [lia|lia|right; auto].
Qed.

(** ** Attributes that no comparison reads *)

Lemma seq_eq_ext cmp cmp' xs ys :
  (forall x y, cmp x y = cmp' x y) -> seq_eq cmp xs ys = seq_eq cmp' xs ys.
Proof.
  intros Hc. revert ys. induction xs as [|x xs IH]; intros [|y ys]; simpl;
    try reflexivity.
  rewrite Hc. destruct (cmp' x y) as [[|]| | |]; simpl; auto.
Qed.

Lemma dict_eq_ext cmp cmp' (d1 d2 : pydict) :
  (forall x y, cmp x y = cmp' x y) -> dict_eq cmp d1 d2 = dict_eq cmp' d1 d2.
Proof.
  intros Hc. induction d1 as [|[k x] d1 IH]; simpl; [reflexivity|].
  destruct (dict_get k d2) as [y|]; [|reflexivity].
  rewrite Hc. destruct (cmp' x y) as [[|]| | |]; simpl; auto.
Qed.

Lemma item_eq_ext cmp cmp' x y :
  (forall x y, cmp x y = cmp' x y) -> item_eq cmp x y = item_eq cmp' x y.
Proof. intros Hc. unfold item_eq. rewrite Hc. reflexivity. Qed.

Lemma read_attr_same_but name h h' l k :
  same_but name h h' -> k <> name -> read_attr h' l k = read_attr h l k.
Proof.
  intros H Hk. specialize (H l). unfold read_attr.
  destruct (h !! l) as [[d|xs|c a]|].
  - rewrite H. reflexivity.
  - rewrite H. reflexivity.
  - destruct H as (a' & -> & Ha). rewrite (Ha k Hk). reflexivity.
  - rewrite H. reflexivity.
Qed.

Lemma read_attrs_same_but name h h' l names :
  same_but name h h' -> ~ In name names ->
  read_attrs h' l names = read_attrs h l names.
Proof.
  intros H. induction names as [|k names IH]; intros Hn; simpl; [reflexivity|].
  rewrite (read_attr_same_but name h h' l k H)
    by (intros ->; apply Hn; left; reflexivity).
  rewrite IH by (intros Hin; apply Hn; right; exact Hin). reflexivity.
Qed.

Lemma inst_eq_same_but name cmp cmp' h h' c1 c2 l1 l2 :
  (forall x y, cmp' x y = cmp x y) ->
  same_but name h h' ->
  ~ In name (base_fields ++ own_fields c1) ->
  inst_eq cmp' h' c1 c2 l1 l2 = inst_eq cmp h c1 c2 l1 l2.
Proof.
  intros Hc H Hn. unfold inst_eq.
  destruct (bool_decide (c1 = c2)); [|reflexivity].
  assert (Hb : ~ In name base_fields)
    by (intros Hin; apply Hn, in_or_app; left; exact Hin).
  assert (Ho : ~ In name (own_fields c1))
    by (intros Hin; apply Hn, in_or_app; right; exact Hin).
  rewrite !(read_attrs_same_but name h h' _ base_fields H Hb).
  destruct (read_attrs h l1 base_fields) as [xs| | |]; try reflexivity.
  destruct (read_attrs h l2 base_fields) as [ys| | |]; try reflexivity.
  cbn [pbind].
  rewrite (seq_eq_ext (item_eq cmp') (item_eq cmp))
    by (intros x y; apply item_eq_ext, Hc).
  destruct (seq_eq (item_eq cmp) xs ys) as [[|]| | |]; try reflexivity.
  cbn [pbind]. destruct (own_fields c1) as [|k ks] eqn:Eo; [reflexivity|].
  rewrite !(read_attrs_same_but name h h' _ (k :: ks) H Ho).
  destruct (read_attrs h l1 (k :: ks)) as [xs'| | |]; try reflexivity.
  destruct (read_attrs h l2 (k :: ks)) as [ys'| | |]; try reflexivity.
  cbn [pbind]. destruct (own_tuple c1).
  - apply seq_eq_ext. intros x y. apply item_eq_ext, Hc.
  - apply seq_eq_ext, Hc.
Qed.

Lemma py_eq_same_but name h h' :
  (forall c, ~ In name (base_fields ++ own_fields c)) ->
  same_but name h h' ->
  forall f a b, py_eq f h' a b = py_eq f h a b.
Proof.
  intros Hn H. induction f as [|f IH]; intros a b; [reflexivity|].
  assert (Hsome : forall l,
            match h' !! l with Some _ => Ok false | None => Unmodelled end =
            (match h !! l with Some _ => Ok false | None => Unmodelled end
             : pure_res bool)).
  { intros l. specialize (H l). destruct (h !! l) as [[d|xs|c a0]|].
    - rewrite H. reflexivity.
    - rewrite H. reflexivity.
    - destruct H as (a' & -> & _). reflexivity.
    - rewrite H. reflexivity. }
  destruct a as [| | | |la], b as [| | | |lb]; simpl; try reflexivity;
    try apply Hsome.
  pose proof (H la) as Ha. pose proof (H lb) as Hb.
  destruct (h !! la) as [[d1|xs|c1 a1]|];
    [| |destruct Ha as (a1' & Ha & _)|]; rewrite Ha;
    (destruct (h !! lb) as [[d2|ys|c2 a2]|];
       [| |destruct Hb as (a2' & Hb & _)|]; try rewrite Hb); try reflexivity.
  - destruct (bool_decide (length d1 = length d2)); [|reflexivity].
    apply dict_eq_ext. intros x y. apply item_eq_ext, IH.
  - destruct (bool_decide (length xs = length ys)); [|reflexivity].
    apply seq_eq_ext. intros x y. apply item_eq_ext, IH.
  - apply (inst_eq_same_but name); [exact IH|exact H|apply Hn].
Qed.

Lemma set_attr_same_but l name x st :
  same_but name (heap st) (heap (set_attr l name x st)).
Proof.
  assert (Hrefl : same_but name (heap st) (heap st)).
  { intros k. destruct (heap st !! k) as [[d|xs|c a]|]; eauto. }
  unfold set_attr. destruct (heap st !! l) as [[d|xs|c a]|] eqn:E;
    try exact Hrefl.
  intros k. simpl. destruct (decide (k = l)) as [->|Hne].
  - rewrite E. exists (dict_set name x a). split.
    + apply list_lookup_insert_eq. eapply lookup_lt_Some. exact E.
    + intros k Hk. apply dict_get_set_ne. exact Hk.
  - rewrite list_lookup_insert_ne by congruence. apply Hrefl.
Qed.

Lemma well_built_frame h h' :
  wf_heap h = true ->
  (forall k, k < length h -> h' !! k = h !! k) ->
  forall n v, validb (length h) v = true ->
              well_built n h v = true -> well_built n h' v = true.
Proof.
  intros Hwf F. induction n as [|n IH]; intros v Hv Hw;
    destruct v as [| | | |l]; try reflexivity; [discriminate|].
  simpl in Hv. apply Nat.ltb_lt in Hv. cbn [well_built] in *.
  rewrite (F l Hv). destruct (h !! l) as [o|] eqn:Eo; [|discriminate].
  pose proof (wf_heap_values h l o Hwf Eo) as Hvals.
  rewrite Forall_forall in Hvals.
  destruct o as [d|xs|c a]; simpl in Hvals.
  - apply andb_prop in Hw as [Hnd Hall]. rewrite Hnd. simpl.
    rewrite forallb_forall in Hall. apply forallb_forall. intros kv Hin.
    apply IH; [|apply Hall, Hin]. apply Hvals. apply list_elem_of_In.
    apply in_map. exact Hin.
  - rewrite forallb_forall in Hw. apply forallb_forall. intros x Hin.
    apply IH; [|apply Hw, Hin]. apply Hvals. apply list_elem_of_In. exact Hin.
  - rewrite forallb_forall in Hw. apply forallb_forall. intros k Hin.
    specialize (Hw k Hin). destruct (dict_get k a) as [x|] eqn:Ex;
      [|discriminate].
    apply IH; [|exact Hw]. apply Hvals. apply list_elem_of_In.
    apply (in_map snd _ (k, x)). apply dict_get_In, Ex.
Qed.

Lemma resolved_not_compared c :
  ~ In "_resolved" (base_fields ++ own_fields c).
Proof.
  destruct c; simpl; intros H;
    repeat (destruct H as [H|H]; [discriminate|]); exact H.
Qed.

(** ** The first call of [resolve] returns *)

Lemma apply_override_returns self c attr x st cl attrs d items :
  reserved attr = false ->
  read_attr (heap st) self "_resolved" = Ok (VRef c) ->
  heap st !! c = Some (OInst cl attrs) ->
  read_attr (heap st) c "extra_attrs" = Ok (VRef d) ->
  heap st !! d = Some (ODict items) ->
  exists st', apply_override self attr x st = Ok (tt, st').
Proof.
  intros Hres Hr Hc Hea Hd. unfold apply_override.
  rewrite (bind_step _ _ st (VRef c) st) by (apply get_attr_Ok; auto).
  rewrite (bind_step _ _ st st st) by reflexivity.
  assert (Hh : hasattr (heap st) (VRef c) attr =
               Ok (dict_has attr attrs || bool_decide (attr ∈ class_attrs cl))).
  { unfold hasattr. rewrite Hres, Hc. reflexivity. }
  rewrite (bind_step _ _ st _ st) by (unfold lift; rewrite Hh; reflexivity).
  destruct (dict_has attr attrs || bool_decide (attr ∈ class_attrs cl)).
  - rewrite (bind_step _ _ st (VRef c) st) by (apply get_attr_Ok; auto).
    unfold setattr, bind, get_state. rewrite Hc. unfold modify. eauto.
  - rewrite (bind_step _ _ st (VRef c) st) by (apply get_attr_Ok; auto).
    rewrite (bind_step _ _ st (VRef d) st)
      by (unfold attr_of; apply get_attr_Ok; auto).
    unfold setitem, bind, get_state. rewrite Hd. unfold modify. eauto.
Qed.

(** The loop over the overrides returns when no name is one of the
    interpreter's and none is [extra_attrs]: the copy stays an instance
    and its [extra_attrs] stays a dictionary. *)
Lemma apply_overrides_returns self c items :
  c <> self ->
  Forall (fun kv => reserved (fst kv) = false) items ->
  Forall (fun kv => fst kv <> "extra_attrs") items ->
  forall st cl attrs d x,
    read_attr (heap st) self "_resolved" = Ok (VRef c) ->
    heap st !! c = Some (OInst cl attrs) ->
    read_attr (heap st) c "extra_attrs" = Ok (VRef d) ->
    heap st !! d = Some (ODict x) ->
    exists st', apply_overrides self items st = Ok (tt, st').
Proof.
  intros Hne. induction items as [|[attr y] items IH];
    intros Hres Hall st cl attrs d x Hr Hc Hea Hd; simpl; [eauto|].
  apply Forall_cons in Hres as [Hra Hres]. simpl in Hra.
  apply Forall_cons in Hall as [Hattr Hall]. simpl in Hattr.
  destruct (apply_override_returns self c attr y st cl attrs d x
              Hra Hr Hc Hea Hd) as [st1 H1].
  rewrite (bind_step _ _ st tt st1) by exact H1.
  pose proof (apply_override_effect self attr y st) as He. rewrite H1 in He.
  destruct (override_effect_keeps self c attr y st st1 Hne Hr He)
    as (Hr1 & Hsame & Hdict).
  destruct (override_effect_shape _ _ _ _ _ He) as (_ & _ & Hcl & _).
  assert (Hc1 : exists attrs1, heap st1 !! c = Some (OInst cl attrs1)).
  { apply class_of_inst. rewrite Hcl. unfold class_of. rewrite Hc. reflexivity. }
  destruct Hc1 as [attrs1 Hc1].
  destruct (Hdict d x Hattr Hea Hd) as (x1 & Hd1 & _).
  apply (IH Hres Hall st1 cl attrs1 d x1); try assumption.
  destruct (Hsame "extra_attrs" ltac:(congruence)) as [_ ->]. exact Hea.
Qed.

(** The first call on an unresolved Proxy returns the new copy, whatever
    overrides the Proxy carries under names that are neither the
    interpreter's nor [extra_attrs]; the run is laid out up to the loop,
    with the copy and its [extra_attrs] as the deep copy left them. *)
Lemma resolve_first_call fuel self st alias k t c te tx e items :
  wf_heap (heap st) = true -> length (heap st) < fuel ->
  read_attr (heap st) self "_resolved" = Ok VNone ->
  read_attr (heap st) self "alias" = Ok alias ->
  hash_key (heap st) alias = Ok k ->
  type_registry st !! k = Some t ->
  class_of (heap st) t = Some c ->
  read_attr (heap st) t "extra_attrs" = Ok (VRef te) ->
  heap st !! te = Some (ODict tx) ->
  read_attr (heap st) self "extra_attrs" = Ok (VRef e) ->
  heap st !! e = Some (ODict items) ->
  Forall (fun kv => reserved (fst kv) = false) items ->
  dict_get "extra_attrs" items = None ->
  exists st' memo' h1 attrs attrs2 d' tx',
    resolve fuel self st = Ok (VRef (length (heap st)), st') /\
    let st2 := set_attr self "_resolved" (VRef (length (heap st)))
                 (State h1 (type_registry st)) in
    apply_overrides self items st2 = Ok (tt, st') /\
    read_attr (heap st2) self "_resolved" = Ok (VRef (length (heap st))) /\
    self < length (heap st) /\
    heap st !! t = Some (OInst c attrs) /\
    heap st2 !! length (heap st) = Some (OInst c attrs2) /\
    Forall2 (item_copied memo') attrs attrs2 /\
    dict_get "extra_attrs" attrs2 = Some (VRef d') /\
    heap st2 !! d' = Some (ODict tx') /\
    Forall2 (item_copied memo') tx tx'.
Proof.
  intros Hwf Hfuel Hc Ha Hk Ht Hcl Htea Hte He Hd Hres Hno.
  destruct (class_of_inst _ _ _ Hcl) as [attrs Et].
  assert (Htl : t < length (heap st)) by (eapply lookup_lt_Some; exact Et).
  destruct (deepcopy_total (heap st) Hwf fuel ∅ (heap st) (VRef t))
    as [[[v' memo'] h1] Hcopy]; auto.
  { intros l l' Hl. rewrite lookup_empty in Hl. discriminate. }
  { simpl. apply Nat.ltb_lt. exact Htl. }
  { pose proof (unvisited_bound (length (heap st)) ∅). lia. }
  destruct (deepcopy_root fuel (heap st) t c attrs _ _ _ Et Hcopy)
    as (-> & Hlen & Hframe & _).
  destruct (deepcopy_linked fuel (heap st) t _ memo' h1 Hwf Htl Hcopy)
    as (Hlink & Hcp & _).
  set (n0 := length (heap st)) in *.
  destruct Hcp as (n0' & Hn0 & Hmt). injection Hn0 as <-.
  destruct (Hlink _ _ Hmt) as (o & o' & Ho & Ho' & Hoo).
  rewrite (Hframe t Htl), Et in Ho. injection Ho as <-.
  destruct o' as [?|?|c' attrs2]; simpl in Hoo; try contradiction.
  destruct Hoo as [<- Hoo].
  assert (Hgt : dict_get "extra_attrs" attrs = Some (VRef te))
    by (eapply read_attr_get; eassumption).
  destruct (keyed_get_l _ _ _ _ _ Hoo Hgt) as (y & Hy & (d' & -> & Hmte)).
  destruct (Hlink _ _ Hmte) as (o1 & o1' & Ho1 & Ho1' & Hoo1).
  assert (Htel : te < n0) by (eapply lookup_lt_Some; exact Hte).
  rewrite (Hframe te Htel), Hte in Ho1. injection Ho1 as <-.
  destruct o1' as [tx'|?|? ?]; simpl in Hoo1; try contradiction.
  assert (Hself : exists cs sattrs, heap st !! self = Some (OInst cs sattrs) /\
            dict_get "extra_attrs" sattrs = Some (VRef e)).
  { unfold read_attr in He.
    destruct (heap st !! self) as [[?|?|cs sattrs]|]; try discriminate.
    destruct (dict_get "extra_attrs" sattrs) eqn:Eg; try discriminate.
    injection He as ->. eauto. }
  destruct Hself as (cs & sattrs & Hs & Hsea).
  assert (Hsl : self < n0) by (eapply lookup_lt_Some; exact Hs).
  assert (Hel : e < n0) by (eapply lookup_lt_Some; exact Hd).
  set (st2 := set_attr self "_resolved" (VRef n0)
                (State h1 (type_registry st))).
  assert (Hst2 : heap st2 =
            <[self := OInst cs (dict_set "_resolved" (VRef n0) sattrs)]> h1).
  { unfold st2, set_attr. simpl. rewrite (Hframe self Hsl), Hs. reflexivity. }
  assert (Hs2 : heap st2 !! self =
            Some (OInst cs (dict_set "_resolved" (VRef n0) sattrs))).
  { rewrite Hst2. apply list_lookup_insert_eq. lia. }
  assert (Hother : forall l, l <> self -> heap st2 !! l = h1 !! l).
  { intros l Hl. rewrite Hst2. apply list_lookup_insert_ne. congruence. }
  assert (Hd's : d' <> self).
  { intros ->. rewrite (Hframe self Hsl), Hs in Ho1'. discriminate. }
  assert (Hres2 : read_attr (heap st2) self "_resolved" = Ok (VRef n0)).
  { unfold read_attr. rewrite Hs2, dict_get_set_eq. reflexivity. }
  destruct (apply_overrides_returns self n0 items ltac:(lia) Hres
              (no_key_Forall _ _ Hno) st2 c attrs2 d' tx') as [st' Hloop].
  { exact Hres2. }
  { rewrite Hother by lia. exact Ho'. }
  { unfold read_attr. rewrite Hother by lia. rewrite Ho', Hy. reflexivity. }
  { rewrite Hother by exact Hd's. exact Ho1'. }
  exists st', memo', h1, attrs, attrs2, d', tx'. cbv zeta. fold st2.
  split; [|split; [exact Hloop|]; split; [exact Hres2|]; split; [exact Hsl|];
           split; [exact Et|]; split; [rewrite Hother by lia; exact Ho'|];
           split; [exact Hoo|]; split; [exact Hy|];
           split; [rewrite Hother by exact Hd's; exact Ho1'|exact Hoo1]].
  unfold resolve.
  rewrite (bind_step _ _ st VNone st) by (apply get_attr_Ok; auto).
  rewrite (bind_step _ _ st alias st) by (apply get_attr_Ok; auto).
  rewrite (bind_step _ _ st (VRef t) st)
    by (unfold from_alias, bind, get_state, lift; rewrite Hk, Ht; reflexivity).
  rewrite (bind_step _ _ st (VRef n0) (State h1 (type_registry st)))
    by (unfold deepcopy_step; rewrite Hcopy; reflexivity).
  rewrite (bind_step _ _ _ tt st2) by reflexivity.
  rewrite (bind_step _ _ st2 (VRef e) st2).
  2:{ apply get_attr_Ok. split; [reflexivity|]. unfold read_attr.
      rewrite Hs2. rewrite dict_get_set_ne by discriminate.
      rewrite Hsea. reflexivity. }
  cbv beta.
  rewrite (bind_step (items_of (VRef e)) _ st2 items st2).
  2:{ unfold items_of, bind, get_state.
      rewrite Hother by (intros ->; congruence).
      rewrite (Hframe e Hel), Hd. reflexivity. }
  cbv beta.
  rewrite (bind_step _ _ st2 tt st') by exact Hloop.
  apply get_attr_Ok. split; [reflexivity|].
  pose proof (apply_overrides_cache self n0 items st2 ltac:(lia) Hres2) as Hinv.
  rewrite Hloop in Hinv. apply Hinv.
Qed.

Lemma dict_get_None_notin k (d : pydict) :
  dict_get k d = None -> k ∉ map fst d.
Proof.
  intros H Hin. apply list_elem_of_fmap in Hin as ([k' v] & -> & Hin).
  pose proof (no_key_Forall _ _ H) as Hall. rewrite Forall_forall in Hall.
  apply (Hall _ Hin). reflexivity.
Qed.

Lemma val_copied_atom memo v y :
  (forall l, v <> VRef l) -> val_copied memo v y -> y = v.
Proof.
  intros Hv. destruct v as [| | | |l]; simpl; auto.
  exfalso. apply (Hv l). reflexivity.
Qed.

(** * Resolution is memoized *)



(** * Further properties of the module *)

(** X1.  [from_dict] only adds to the store: whether it returns or
    raises, every object that existed before the call, the input mapping
    and the mappings nested in it included, is what it was, and the store
    has not shrunk. *)
Theorem from_dict_keeps_store :
  forall f v st st',
    final_state (from_dict f v st) = Some st' ->
    length (heap st) <= length (heap st') /\
    forall l o, heap st !! l = Some o -> heap st' !! l = Some o.
Proof.
  intros f v st st' H.
  pose proof (preserves_from_dict (length (heap st)) f v st (le_n _)) as Hp.
  destruct (from_dict f v st) as [[r s1]|[e s1]| |]; simpl in H;
    try discriminate; injection H as <-; destruct Hp as [Hlen Hsame];
    (split; [exact Hlen|]); intros l o Hl;
    (rewrite Hsame; [exact Hl|eapply lookup_lt_Some; exact Hl]).
Qed.

Lemma from_dict_keeps_store_witness :
  1 <= 3 /\
  forall l o,
    [ODict [("type", VStr "null")]] !! l = Some o ->
    [ODict [("type", VStr "null")];
     OInst NullType
       [("type_", VStr "null"); ("logical", VNone); ("alias", VNone);
        ("doc", VNone); ("extra_attrs", VRef 2)];
     ODict []] !! l = Some o.
Proof.
  exact (from_dict_keeps_store 1 (VRef 0)
           (State [ODict [("type", VStr "null")]] ∅)
           (State [ODict [("type", VStr "null")];
                   OInst NullType
                     [("type_", VStr "null"); ("logical", VNone);
                      ("alias", VNone); ("doc", VNone);
                      ("extra_attrs", VRef 2)];
                   ODict []] ∅)
           eq_refl).
Defined.

(** X2.  What [from_dict] returns is a new object, an instance of the
    class its [type] selects: the class of the tag for one of the eleven
    tags, [ProxyType] for any other string, [UnionType] for a list; and
    the instance's [type_] is the tag of that class, [proxy] for a
    Proxy. *)
Theorem from_dict_builds_tagged_class :
  forall f st l items r st',
    heap st !! l = Some (ODict items) ->
    from_dict (S f) (VRef l) st = Ok (r, st') ->
    let c := match type_of items with
             | VStr s => tag_class s
             | _ => UnionType
             end in
    exists lr,
      r = VRef lr /\ length (heap st) <= lr /\
      class_of (heap st') lr = Some c /\
      read_attr (heap st') lr "type_" = Ok (VStr (type_tag c)).
Proof.
  intros f st l items r st' Hl H c.
  destruct (from_dict_instance f st l items r st' Hl H)
    as (lr & Hr & Hn & Hc & Ht & _).
  exists lr. auto.
Qed.

Lemma from_dict_builds_tagged_class_witness :
  exists r st' lr,
    from_dict 1 (VRef 0)
      (State [ODict [("type", VStr "decimal128"); ("scale", VInt 2)]] ∅)
    = Ok (r, st') /\
    r = VRef lr /\ 1 <= lr /\
    class_of (heap st') lr = Some ProxyType /\
    read_attr (heap st') lr "type_" = Ok (VStr "proxy").
Proof.
  destruct (from_dict 1 (VRef 0)
              (State [ODict [("type", VStr "decimal128"); ("scale", VInt 2)]] ∅))
    as [[r st']|e| |] eqn:E; try (vm_compute in E; discriminate).
  destruct (from_dict_builds_tagged_class 0
              (State [ODict [("type", VStr "decimal128"); ("scale", VInt 2)]] ∅)
              0 [("type", VStr "decimal128"); ("scale", VInt 2)] r st'
              eq_refl E)
    as (lr & H1 & H2 & H3 & H4).
  exists r, st', lr. auto.
Defined.

(** X3.  The parser does not store the alias on the type it builds: the
    [alias] key of the mapping is taken out before the constructor is
    called, so the instance's own [alias] is [None], also when the
    mapping registers it under a name.  A Proxy is the exception: its
    [alias] is the name it refers to, the mapping's [type]. *)
Theorem from_dict_alias_not_stored :
  forall f st l items r st',
    heap st !! l = Some (ODict items) ->
    from_dict (S f) (VRef l) st = Ok (r, st') ->
    exists lr,
      r = VRef lr /\
      read_attr (heap st') lr "alias" =
        Ok (match type_of items with
            | VStr s =>
                if decide (tag_class s = ProxyType) then VStr s else VNone
            | _ => VNone
            end).
Proof.
  intros f st l items r st' Hl H.
  destruct (from_dict_instance f st l items r st' Hl H)
    as (lr & Hr & _ & _ & _ & Ha).
  exists lr. auto.
Qed.

Lemma from_dict_alias_not_stored_witness :
  exists r st' lr,
    from_dict 1 (VRef 0)
      (State [ODict [("alias", VStr "flag"); ("type", VStr "bool")]] ∅)
    = Ok (r, st') /\
    type_registry st' !! KStr "flag" = Some lr /\
    r = VRef lr /\
    read_attr (heap st') lr "alias" = Ok VNone.
Proof.
  destruct (from_dict 1 (VRef 0)
              (State [ODict [("alias", VStr "flag"); ("type", VStr "bool")]] ∅))
    as [[r st']|e| |] eqn:E; try (vm_compute in E; discriminate).
  destruct (from_dict_alias_not_stored 0
              (State [ODict [("alias", VStr "flag"); ("type", VStr "bool")]] ∅)
              0 [("alias", VStr "flag"); ("type", VStr "bool")] r st'
              eq_refl E)
    as (lr & H1 & H2).
  exists r, st', lr. split; [reflexivity|].
  split; [|split; [exact H1|exact H2]].
  vm_compute in E. injection E as E1 E2. subst r st'.
  injection H1 as <-. reflexivity.
Defined.

(** X4.  A constructor call of a subclass that returns has built a new
    instance of the class whose attributes are the arguments as Python
    binds them: [type_] is the tag of the class, each attribute of the
    class is the value bound to the parameter of that name (by position,
    by keyword or by default), [logical] and [doc] are the keywords of
    that name or [None], and [extra_attrs] is a new dictionary of exactly
    the keywords that name no parameter, in their order.  A struct built
    with no fields gets a new empty list of its own. *)
Theorem constructor_stores_arguments :
  forall c pos kw st r st',
    c <> RecapType ->
    new c pos kw st = Ok (r, st') ->
    let self := length (heap st) in
    exists named extra,
      bind_args (init_sig c) pos kw = Ok (named, extra) /\
      r = VRef self /\
      class_of (heap st') self = Some c /\
      read_attr (heap st') self "type_" = Ok (VStr (type_tag c)) /\
      read_attr (heap st') self "logical" =
        Ok (default VNone (dict_get "logical" kw)) /\
      read_attr (heap st') self "doc" = Ok (default VNone (dict_get "doc" kw)) /\
      read_attr (heap st') self "alias" =
        Ok (if decide (c = ProxyType) then arg "alias" named
            else default VNone (dict_get "alias" kw)) /\
      (forall x, In x (own_fields c) ->
                 (c = StructType -> arg x named <> VNone) ->
                 read_attr (heap st') self x = Ok (arg x named)) /\
      (c = StructType -> arg "fields" named = VNone ->
       read_attr (heap st') self "fields" = Ok (VRef (S (S self))) /\
       heap st' !! S (S self) = Some (OList [])) /\
      read_attr (heap st') self "extra_attrs" = Ok (VRef (S self)) /\
      heap st' !! S self = Some (ODict (leftover c kw)).
Proof. exact new_built. Qed.

Lemma constructor_stores_arguments_witness :
  exists named extra,
    bind_args (init_sig IntType) [VInt 8]
      [("unit", VStr "day"); ("doc", VStr "a byte")] = Ok (named, extra) /\
    VRef 0 = VRef 0 /\
    class_of
      [OInst IntType
         [("type_", VStr "int"); ("logical", VNone); ("alias", VNone);
          ("doc", VStr "a byte"); ("extra_attrs", VRef 1); ("bits", VInt 8);
          ("signed", VBool true)];
       ODict [("unit", VStr "day")]] 0 = Some IntType.
Proof.
  destruct (constructor_stores_arguments IntType [VInt 8]
              [("unit", VStr "day"); ("doc", VStr "a byte")] (State [] ∅)
              (VRef 0)
              (State [OInst IntType
                        [("type_", VStr "int"); ("logical", VNone);
                         ("alias", VNone); ("doc", VStr "a byte");
                         ("extra_attrs", VRef 1); ("bits", VInt 8);
                         ("signed", VBool true)];
                      ODict [("unit", VStr "day")]] ∅)
              ltac:(discriminate) eq_refl)
    as (named & extra & H1 & H2 & H3 & _).
  exists named, extra. auto.
Defined.

(** X5.  A keyword named [self], or named [type_] in a call of a
    subclass, clashes with a parameter the callee binds itself: the call
    raises a [TypeError], whatever the other arguments, and leaves the
    registry and the objects that existed as they were. *)
Theorem reserved_keyword_rejected :
  forall c pos kw st k,
    reserved_key c k ->
    dict_has k kw = true ->
    exists msg st',
      new c pos kw st = Raise (TypeError msg, st') /\
      type_registry st' = type_registry st /\
      forall l, l < length (heap st) -> heap st' !! l = heap st !! l.
Proof. exact new_reserved. Qed.

Lemma reserved_keyword_rejected_witness :
  exists msg st',
    new IntType [VInt 8] [("type_", VStr "long")] (State [] ∅)
    = Raise (TypeError msg, st') /\
    type_registry st' = ∅ /\
    forall l, l < 0 -> heap st' !! l = @nil obj !! l.
Proof.
  apply (reserved_keyword_rejected IntType [VInt 8] [("type_", VStr "long")]
           (State [] ∅) "type_").
  - right. split; [reflexivity|discriminate].
  - reflexivity.
Defined.

(** X6.  [from_dict] never returns a type for a mapping that has a key
    [type_] or [self], whatever its [type] and its other keys: such a key
    reaches a constructor as a keyword and clashes there. *)
Theorem from_dict_rejects_reserved_key f st l items k r st' :
  heap st !! l = Some (ODict items) ->
  k = "type_" \/ k = "self" ->
  dict_has k items = true ->
  from_dict (S f) (VRef l) st <> Ok (r, st').
Proof.
  intros Hl Hk Hhas H.
  apply (ensures_from_dict f st l items r st' (fun _ _ => False) Hl H).
  intros pos kw Hkw _ _ st0 r0 st1 _ Hnew.
  set (c := match type_of items with VStr s => tag_class s | _ => UnionType end)
    in *.
  assert (Hc : c <> RecapType).
  { unfold c. destruct (type_of items); try discriminate.
    apply tag_class_derived. }
  assert (Hres : reserved_key c k).
  { destruct Hk as [->| ->]; [right|left]; auto. }
  assert (Hhas' : dict_has k kw = true).
  { unfold dict_has. rewrite Hkw; [exact Hhas|].
    destruct Hk as [->| ->]; elem_out. }
  destruct (new_reserved c pos kw st0 k Hres Hhas') as (msg & st2 & Hr & _).
  rewrite Hr in Hnew. discriminate.
Qed.

Lemma from_dict_rejects_reserved_key_witness :
  match from_dict 1 (VRef 0)
          (State [ODict [("type", VStr "int"); ("bits", VInt 8);
                         ("self", VInt 1)]] ∅)
  with
  | Ok _ => False
  | _ => True
  end.
Proof.
  destruct (from_dict 1 (VRef 0)
              (State [ODict [("type", VStr "int"); ("bits", VInt 8);
                             ("self", VInt 1)]] ∅))
    as [[r st']|e| |] eqn:E; try exact I.
  exact (from_dict_rejects_reserved_key 0
           (State [ODict [("type", VStr "int"); ("bits", VInt 8);
                          ("self", VInt 1)]] ∅) 0
           [("type", VStr "int"); ("bits", VInt 8); ("self", VInt 1)] "self"
           r st' eq_refl (or_intror eq_refl) eq_refl E).
Defined.

(** X7.  A constructor call that raises, for whatever reason, has bound
    no alias and changed no object that existed: the registry and the
    store up to its length before the call are as they were. *)
Theorem constructor_failure_leaves_registry c pos kw st e st' :
  new c pos kw st = Raise (e, st') ->
  type_registry st' = type_registry st /\
  forall l, l < length (heap st) -> heap st' !! l = heap st !! l.
Proof.
  rewrite new_cases. cbv zeta.
  assert (Hblank : forall c0 l, l < length (heap st) ->
            (heap st ++ [OInst c0 []]) !! l = heap st !! l).
  { intros c0 l Hl. apply lookup_app_l. exact Hl. }
  destruct (super_args c pos kw) as [[[named pos0] kw0]|e0| |] eqn:Hs;
    try discriminate.
  2:{ intros H. injection H as _ <-. split; [reflexivity|apply Hblank]. }
  destruct (bind_args RecapType_sig pos0 kw0) as [[named0 extra0]|e0| |] eqn:Hb0;
    try discriminate.
  2:{ intros H. injection H as _ <-. split; [reflexivity|apply Hblank]. }
  intros H. unfold bind in H.
  destruct (register_self _ _ _) as [[u st1]|[e1 st1]| |] eqn:Hreg;
    try discriminate.
  - destruct st1 as [h1 R1].
    apply register_self_Ok in Hreg as [Hh _]. cbn [heap] in Hh. subst h1.
    rewrite finish_exact in H. discriminate.
  - apply register_self_Raise in Hreg. subst st1. injection H as _ <-.
    split; [reflexivity|]. intros l Hl. cbn [heap]. apply lookup_app_l. exact Hl.
Qed.

Lemma constructor_failure_leaves_registry_witness :
  type_registry (State [OInst IntType []] ∅) = ∅ /\
  forall l, l < 0 -> [OInst IntType []] !! l = @nil obj !! l.
Proof.
  exact (constructor_failure_leaves_registry IntType [] [] (State [] ∅)
           (TypeError "missing required argument")
           (State [OInst IntType []] ∅) eq_refl).
Defined.

(** X8.  Registering and looking up: after a constructor call with the
    alias [a] has returned, and after [from_dict] has returned for a
    mapping whose [alias] is the non-empty string [a],
    [RecapType.from_alias(a)] returns that very object (not a copy) and
    changes nothing; for a name the registry does not have it raises a
    [TypeError] and changes nothing. *)
Theorem alias_lookup_round_trip :
  (forall c pos kw st a r st',
      passed_alias c pos kw = Ok (VStr a) ->
      new c pos kw st = Ok (r, st') ->
      from_alias (VStr a) st' = Ok (r, st')) /\
  (forall f st l items a r st',
      heap st !! l = Some (ODict items) ->
      dict_get "alias" items = Some (VStr a) ->
      a <> "" ->
      from_dict (S f) (VRef l) st = Ok (r, st') ->
      from_alias (VStr a) st' = Ok (r, st')) /\
  (forall st a,
      type_registry st !! KStr a = None ->
      exists msg, from_alias (VStr a) st = Raise (TypeError msg, st)).
Proof.
  split; [exact new_then_from_alias|]. split; [exact from_dict_then_from_alias|].
  intros st a H. eexists. apply from_alias_missing. exact H.
Qed.

Lemma alias_lookup_round_trip_witness :
  from_alias (VStr "byte")
    (State [OInst IntType
              [("type_", VStr "int"); ("logical", VNone);
               ("alias", VStr "byte"); ("doc", VNone); ("extra_attrs", VRef 1);
               ("bits", VInt 8); ("signed", VBool true)];
            ODict []] {[KStr "byte" := 0]})
  = Ok (VRef 0,
        State [OInst IntType
                 [("type_", VStr "int"); ("logical", VNone);
                  ("alias", VStr "byte"); ("doc", VNone);
                  ("extra_attrs", VRef 1); ("bits", VInt 8);
                  ("signed", VBool true)];
               ODict []] {[KStr "byte" := 0]}).
Proof.
  exact (proj1 alias_lookup_round_trip IntType [VInt 8]
           [("alias", VStr "byte")] (State [] ∅) "byte" (VRef 0)
           (State [OInst IntType
                     [("type_", VStr "int"); ("logical", VNone);
                      ("alias", VStr "byte"); ("doc", VNone);
                      ("extra_attrs", VRef 1); ("bits", VInt 8);
                      ("signed", VBool true)];
                   ODict []] {[KStr "byte" := 0]})
           eq_refl eq_refl).
Defined.

(** X9.  A reference to a name that is not a tag is not looked up when
    it is parsed: [from_dict] returns a Proxy and leaves the registry
    alone, whether or not the name is registered.  While the name is not
    registered, [resolve] raises a [TypeError] and changes nothing, the
    cache included, so that in any later state that still has the Proxy
    and binds the name to an instance, [resolve] returns a new instance
    of that instance's class. *)
Theorem unregistered_alias_resolves_later :
  forall f st l a,
    heap st !! l = Some (ODict [("type", VStr a)]) ->
    tag_class a = ProxyType ->
    exists p st1,
      from_dict (S f) (VRef l) st = Ok (VRef p, st1) /\
      type_registry st1 = type_registry st /\
      (forall fuel,
          type_registry st !! KStr a = None ->
          exists msg, resolve fuel p st1 = Raise (TypeError msg, st1)) /\
      (forall fuel st2 t c,
          heap st2 !! p = heap st1 !! p ->
          heap st2 !! S p = heap st1 !! S p ->
          type_registry st2 !! KStr a = Some t ->
          class_of (heap st2) t = Some c ->
          wf_heap (heap st2) = true ->
          length (heap st2) < fuel ->
          exists st3,
            resolve fuel p st2 = Ok (VRef (length (heap st2)), st3) /\
            class_of (heap st3) (length (heap st2)) = Some c).
Proof.
  intros f st l a Hl Ht.
  rewrite (from_dict_bare_proxy f st l a Hl Ht), new_bare_proxy.
  eexists _, _. split; [reflexivity|]. split; [reflexivity|].
  set (proxy := OInst ProxyType
                  [("type_", VStr "proxy"); ("logical", VNone);
                   ("alias", VStr a); ("doc", VNone);
                   ("extra_attrs", VRef (S (length (heap st))));
                   ("_resolved", VNone)]).
  assert (Hp : (heap st ++ [proxy; ODict []]) !! length (heap st) = Some proxy).
  { apply list_lookup_middle. reflexivity. }
  assert (He : (heap st ++ [proxy; ODict []]) !! S (length (heap st))
               = Some (ODict [])).
  { rewrite lookup_app_r by lia.
    replace (S (length (heap st)) - length (heap st)) with 1 by lia.
    reflexivity. }
  split.
  - intros fuel Hnone. eexists. apply (resolve_unregistered fuel _ _ a).
    + unfold read_attr. cbn [heap]. rewrite Hp. reflexivity.
    + unfold read_attr. cbn [heap]. rewrite Hp. reflexivity.
    + exact Hnone.
  - intros fuel st2 t c H2p H2e Hreg Hcl Hwf Hfuel. cbn [heap] in H2p, H2e.
    rewrite Hp in H2p. rewrite He in H2e.
    assert (Hr : read_attr (heap st2) (length (heap st)) "_resolved" = Ok VNone)
      by (unfold read_attr; rewrite H2p; reflexivity).
    assert (Ha : read_attr (heap st2) (length (heap st)) "alias" = Ok (VStr a))
      by (unfold read_attr; rewrite H2p; reflexivity).
    assert (Hx : read_attr (heap st2) (length (heap st)) "extra_attrs"
                 = Ok (VRef (S (length (heap st)))))
      by (unfold read_attr; rewrite H2p; reflexivity).
    destruct (resolve_returns fuel (length (heap st)) st2 (VStr a) (KStr a) t c
                (S (length (heap st))) Hwf Hfuel Hr Ha Hx H2e eq_refl Hreg Hcl)
      as [st3 H3].
    exists st3. split; [exact H3|].
    exact (proj2 (resolve_class fuel (length (heap st)) st2 _ st3 (VStr a)
                    (KStr a) t c Hr Ha eq_refl Hreg Hcl H3)).
Qed.

Lemma unregistered_alias_resolves_later_witness :
  exists p st1,
    from_dict 1 (VRef 0) (State [ODict [("type", VStr "point")]] ∅)
    = Ok (VRef p, st1) /\
    type_registry st1 = ∅ /\
    forall fuel,
      (∅ : gmap hkey nat) !! KStr "point" = None ->
      exists msg, resolve fuel p st1 = Raise (TypeError msg, st1).
Proof.
  destruct (unregistered_alias_resolves_later 0
              (State [ODict [("type", VStr "point")]] ∅) 0 "point"
              eq_refl eq_refl) as (p & st1 & H1 & H2 & H3 & _).
  exists p, st1. auto.
Defined.

(** X10.  [resolve] never changes the registry, whether it returns or
    raises and whatever the overrides are. *)
Theorem resolve_keeps_registry :
  forall fuel self st st',
    final_state (resolve fuel self st) = Some st' ->
    type_registry st' = type_registry st.
Proof.
  intros fuel self st st' H.
  exact (respects_final same_registry (resolve fuel self) st st'
           (resolve_same_registry fuel self) H).
Qed.

Lemma resolve_keeps_registry_witness :
  type_registry small_state_resolved = type_registry small_state.
Proof.
  apply (resolve_keeps_registry 3 2 small_state small_state_resolved).
  rewrite small_state_resolve. reflexivity.
Defined.

(** X11.  What the first [resolve] does with the Proxy's extra
    attributes, when none of them has a name of the interpreter's (two
    leading underscores) or is named [extra_attrs] and the registered
    target is an instance whose [extra_attrs] is a dictionary: the call
    returns a new instance of the target's class on which every entry
    [k = v] has been applied, as the attribute [k] when the target has an
    attribute of that name, as an entry of the copy's [extra_attrs]
    otherwise; an attribute or extra attribute of the target that no
    entry names and that holds an atom is found unchanged on the copy. *)
Theorem resolve_applies_overrides fuel self st alias key t cl te tx e items :
  wf_heap (heap st) = true -> length (heap st) < fuel ->
  read_attr (heap st) self "_resolved" = Ok VNone ->
  read_attr (heap st) self "alias" = Ok alias ->
  hash_key (heap st) alias = Ok key ->
  type_registry st !! key = Some t ->
  class_of (heap st) t = Some cl ->
  read_attr (heap st) t "extra_attrs" = Ok (VRef te) ->
  heap st !! te = Some (ODict tx) ->
  read_attr (heap st) self "extra_attrs" = Ok (VRef e) ->
  heap st !! e = Some (ODict items) ->
  NoDup (map fst items) ->
  Forall (fun kv => reserved (fst kv) = false) items ->
  dict_get "extra_attrs" items = None ->
  exists c st',
    resolve fuel self st = Ok (VRef c, st') /\
    c <> t /\
    class_of (heap st') c = Some cl /\
    (forall k v,
        dict_get k items = Some v ->
        (hasattr (heap st) (VRef t) k = Ok true /\
         read_attr (heap st') c k = Ok v) \/
        (hasattr (heap st) (VRef t) k = Ok false /\
         exists d x,
           read_attr (heap st') c "extra_attrs" = Ok (VRef d) /\
           heap st' !! d = Some (ODict x) /\
           dict_get k x = Some v)) /\
    (forall k v,
        dict_get k items = None -> (forall l, v <> VRef l) ->
        read_attr (heap st) t k = Ok v ->
        read_attr (heap st') c k = Ok v) /\
    (forall k v,
        dict_get k items = None -> (forall l, v <> VRef l) ->
        dict_get k tx = Some v ->
        exists d x,
          read_attr (heap st') c "extra_attrs" = Ok (VRef d) /\
          heap st' !! d = Some (ODict x) /\
          dict_get k x = Some v).
Proof.
  intros Hwf Hfuel Hc Ha Hk Ht Hcl Htea Hte He Hd Hnd Hres Hno.
  destruct (resolve_first_call fuel self st alias key t cl te tx e items
              Hwf Hfuel Hc Ha Hk Ht Hcl Htea Hte He Hd Hres Hno)
    as (st' & memo' & h1 & attrs & attrs2 & d' & tx' & Hrun & Hloop).
  cbv zeta in Hloop.
  destruct Hloop
    as (Hloop & Hres2 & Hself & Et & Hcopy & Hattrs & Hea2 & Hd' & Htx).
  set (n0 := length (heap st)) in *.
  set (st2 := set_attr self "_resolved" (VRef n0)
                (State h1 (type_registry st))) in *.
  assert (Htl : t < n0) by (eapply lookup_lt_Some; exact Et).
  exists n0, st'. split; [exact Hrun|]. split; [lia|].
  pose proof (apply_overrides_cache self n0 items st2 ltac:(lia) Hres2) as Hinv.
  rewrite Hloop in Hinv. destruct Hinv as (_ & _ & _ & Hclass).
  split.
  { rewrite Hclass. unfold class_of. rewrite Hcopy. reflexivity. }
  assert (Hhas : forall k,
    hasattr (heap st2) (VRef n0) k = hasattr (heap st) (VRef t) k).
  { intros k. unfold hasattr. rewrite Hcopy, Et.
    rewrite (same_keys_has attrs2 attrs k (keyed_keys _ _ _ Hattrs)).
    reflexivity. }
  assert (Hall : Forall (fun kv => fst kv <> "extra_attrs") items)
    by (apply no_key_Forall, Hno).
  assert (Hea : read_attr (heap st2) n0 "extra_attrs" = Ok (VRef d')).
  { unfold read_attr. rewrite Hcopy, Hea2. reflexivity. }
  split; [|split].
  - intros k v Hkv.
    destruct (apply_overrides_sets self n0 items ltac:(lia) Hnd Hall
                st2 st' Hres2 Hloop k v Hkv) as [[Hh Hv]|[Hh Hv]].
    + left. rewrite <- Hhas. auto.
    + right. rewrite <- Hhas. auto.
  - intros k v Hk0 Hv Hread.
    destruct (apply_overrides_keeps self n0 k items ltac:(lia)
                (dict_get_None_notin _ _ Hk0) Hall st2 st' Hres2 Hloop)
      as (_ & -> & _).
    assert (Hg : dict_get k attrs = Some v)
      by (eapply read_attr_get; eassumption).
    destruct (keyed_get_l _ _ _ _ _ Hattrs Hg) as (y & Hy & Hvy).
    apply (val_copied_atom _ _ _ Hv) in Hvy as ->.
    unfold read_attr. rewrite Hcopy, Hy. reflexivity.
  - intros k v Hk0 Hv Hg.
    destruct (keyed_get_l _ _ _ _ _ Htx Hg) as (y & Hy & Hvy).
    apply (val_copied_atom _ _ _ Hv) in Hvy as ->.
    destruct (apply_overrides_keeps self n0 k items ltac:(lia)
                (dict_get_None_notin _ _ Hk0) Hall st2 st' Hres2 Hloop)
      as (_ & _ & Hkeep).
    destruct (Hkeep d' tx' v Hea Hd' Hy) as (x' & H1 & H2 & H3).
    exists d', x'. auto.
Qed.

Lemma resolve_applies_overrides_witness :
  exists c st',
    resolve 5 2 override_state = Ok (VRef c, st') /\
    c <> 0 /\
    class_of (heap st') c = Some IntType /\
    (forall k v,
        dict_get k [("bits", VInt 16); ("unit", VStr "ms")] = Some v ->
        (hasattr (heap override_state) (VRef 0) k = Ok true /\
         read_attr (heap st') c k = Ok v) \/
        (hasattr (heap override_state) (VRef 0) k = Ok false /\
         exists d x,
           read_attr (heap st') c "extra_attrs" = Ok (VRef d) /\
           heap st' !! d = Some (ODict x) /\
           dict_get k x = Some v)) /\
    (forall k v,
        dict_get k [("bits", VInt 16); ("unit", VStr "ms")] = None ->
        (forall l, v <> VRef l) ->
        read_attr (heap override_state) 0 k = Ok v ->
        read_attr (heap st') c k = Ok v) /\
    (forall k v,
        dict_get k [("bits", VInt 16); ("unit", VStr "ms")] = None ->
        (forall l, v <> VRef l) ->
        dict_get k [("scale", VInt 3)] = Some v ->
        exists d x,
          read_attr (heap st') c "extra_attrs" = Ok (VRef d) /\
          heap st' !! d = Some (ODict x) /\
          dict_get k x = Some v).
Proof.
  apply (resolve_applies_overrides 5 2 override_state (VStr "count")
           (KStr "count") 0 IntType 1 [("scale", VInt 3)] 3
           [("bits", VInt 16); ("unit", VStr "ms")]); try reflexivity.
  - simpl. lia.
  - repeat constructor; elem_out.
  - repeat constructor.
Defined.

(** X12.  Nothing is forgotten: after any sequence of calls of the
    module's interface (constructors, [from_dict], [from_alias],
    [resolve]), returning or raising, the store is no shorter, every
    instance is still an instance of the class it had, and every alias
    that was registered is still registered (possibly to another
    instance). *)
Theorem nothing_is_forgotten :
  forall st st',
    rtc api_call st st' ->
    length (heap st) <= length (heap st') /\
    (forall l c,
        class_of (heap st) l = Some c -> class_of (heap st') l = Some c) /\
    (forall k,
        is_Some (type_registry st !! k) -> is_Some (type_registry st' !! k)).
Proof.
  intros st st' H. change (grows st st').
  induction H as [st|st st1 st2 H1 _ IH].
  - apply grows_refl.
  - eapply grows_trans; [apply api_call_grows; exact H1|exact IH].
Qed.

Lemma nothing_is_forgotten_witness :
  length (heap small_state) <= length (heap small_state_resolved) /\
  (forall l c,
      class_of (heap small_state) l = Some c ->
      class_of (heap small_state_resolved) l = Some c) /\
  (forall k,
      is_Some (type_registry small_state !! k) ->
      is_Some (type_registry small_state_resolved !! k)).
Proof.
  apply (nothing_is_forgotten small_state small_state_resolved).
  apply rtc_once. apply (by_resolve small_state 3 2).
  rewrite small_state_resolve. reflexivity.
Defined.

(** X13.  Once the module is imported the registry holds the names of
    the table of built-in aliases and no other; each is bound to an
    instance of the class the table gives, whose own [alias] is [None]
    (the table is installed with [update], not through the [alias]
    parameter), and which is equal to what a call of the class with the
    table's arguments builds. *)
Theorem builtin_aliases_registered :
  size (type_registry initial_state) = length builtin_aliases /\
  NoDup (map fst builtin_aliases) /\
  forall name c pos kw,
    In (name, (c, pos, kw)) builtin_aliases ->
    exists l,
      type_registry initial_state !! KStr name = Some l /\
      class_of (heap initial_state) l = Some c /\
      read_attr (heap initial_state) l "alias" = Ok VNone /\
      exists r st',
        new c pos kw initial_state = Ok (r, st') /\
        py_eq 3 (heap st') (VRef l) r = Ok true.
Proof.
  destruct builtins_checked as [Hall Hsize].
  split; [exact Hsize|]. split.
  { refine (bool_decide_unpack _ _). vm_compute. exact I. }
  intros name c pos kw Hin.
  rewrite forallb_forall in Hall.
  exact (builtin_entry_spec initial_state name c pos kw (Hall _ Hin)).
Qed.

Lemma builtin_aliases_registered_witness :
  exists l,
    type_registry initial_state !! KStr "int8" = Some l /\
    class_of (heap initial_state) l = Some IntType /\
    read_attr (heap initial_state) l "alias" = Ok VNone /\
    exists r st',
      new IntType [VInt 8] [("signed", VBool true)] initial_state = Ok (r, st') /\
      py_eq 3 (heap st') (VRef l) r = Ok true.
Proof.
  apply (proj2 (proj2 builtin_aliases_registered) "int8" IntType [VInt 8]
           [("signed", VBool true)]).
  left. reflexivity.
Defined.

(** X14.  For the tags [string] and [bytes] the parser renames the key
    [bytes] to the parameter [bytes_]: the instance's [bytes_] is the
    mapping's value for [bytes], also when the mapping has a key
    [bytes_] of its own; [variable] is the mapping's value or [True];
    and neither [bytes] nor [bytes_] is left among the [extra_attrs]. *)
Theorem from_dict_bytes_key f st l items s r st' :
  heap st !! l = Some (ODict items) ->
  type_of items = VStr s ->
  s = "string" \/ s = "bytes" ->
  from_dict (S f) (VRef l) st = Ok (r, st') ->
  exists lr b e d,
    r = VRef lr /\
    dict_get "bytes" items = Some b /\
    read_attr (heap st') lr "bytes_" = Ok b /\
    read_attr (heap st') lr "variable" =
      Ok (default (VBool true) (dict_get "variable" items)) /\
    read_attr (heap st') lr "extra_attrs" = Ok (VRef e) /\
    heap st' !! e = Some (ODict d) /\
    dict_get "bytes" d = None /\ dict_get "bytes_" d = None.
Proof.
  intros Hl Ht Hs H.
  destruct (from_dict_Ok _ _ _ _ _ _ Hl H) as (st1 & Hc & Hr).
  apply register_alias_Ok in Hr as [-> _].
  rewrite Ht in Hc. unfold construct in Hc.
  set (td := rest_of items) in *.
  assert (Hnew : exists c b,
    (c = StringType \/ c = BytesType) /\
    dict_get "bytes" td = Some b /\
    new c [] (dict_set "bytes_" b (dict_del "bytes" td)) st = Ok (r, st1)).
  { destruct Hs as [-> | ->]; unfold dispatch in Hc; cbn [String.eqb Ascii.eqb
      Bool.eqb] in Hc; unfold dict_has in Hc;
      (destruct (dict_get "bytes" td) as [b|] eqn:Eb; [|discriminate]);
      cbn [negb] in Hc; rewrite dict_pop_eq, Eb in Hc; cbn [default] in Hc;
      eauto 6. }
  destruct Hnew as (c & b & Hcls & Eb & Hnew).
  assert (Hc0 : c <> RecapType) by (destruct Hcls; subst; discriminate).
  destruct (new_built c [] _ st r st1 Hc0 Hnew)
    as (named & extra & Hb & -> & _ & _ & _ & _ & _ & Hown & _ & Hea & Hex).
  assert (Hsig : init_sig c = [("bytes_", None); ("variable", Some (VBool true))])
    by (destruct Hcls; subst; reflexivity).
  assert (Hfields : own_fields c = ["bytes_"; "variable"])
    by (destruct Hcls; subst; reflexivity).
  pose proof (bind_args_keywords _ _ _ _ Hb) as Hnamed.
  rewrite Hsig in Hnamed. cbn [map fst snd] in Hnamed.
  rewrite !dict_get_filter_among in Hnamed by elem_in.
  rewrite dict_get_set_eq in Hnamed.
  rewrite dict_get_set_ne, dict_get_del_ne in Hnamed by discriminate.
  assert (Htd : forall k, k <> "alias" -> k <> "type" ->
                          dict_get k td = dict_get k items).
  { intros k H1 H2. unfold td, rest_of.
    rewrite !dict_get_del_ne by congruence. reflexivity. }
  rewrite (Htd "variable") in Hnamed by discriminate.
  rewrite (Htd "bytes") in Eb by discriminate.
  exists (length (heap st)), b, (S (length (heap st))),
    (leftover c (dict_set "bytes_" b (dict_del "bytes" td))).
  split; [reflexivity|]. split; [exact Eb|].
  split.
  { rewrite (Hown "bytes_"); [|rewrite Hfields; simpl; auto
                              |intros ->; destruct Hcls; discriminate].
    rewrite Hnamed. reflexivity. }
  split.
  { rewrite (Hown "variable"); [|rewrite Hfields; simpl; auto
                                |intros ->; destruct Hcls; discriminate].
    rewrite Hnamed. unfold arg. cbn [dict_get String.eqb Ascii.eqb Bool.eqb].
    destruct (dict_get "variable" items); reflexivity. }
  split; [exact Hea|]. split; [exact Hex|].
  split.
  - unfold leftover. apply dict_get_filter_none.
    rewrite dict_get_set_ne by discriminate. apply dict_get_del_eq.
  - unfold leftover. apply filter_excludes. unfold params. rewrite Hsig.
    elem_in.
Qed.

Lemma from_dict_bytes_key_witness :
  exists r st' lr,
    from_dict 1 (VRef 0)
      (State [ODict [("type", VStr "string"); ("bytes_", VInt 1);
                     ("bytes", VInt 32)]] ∅)
    = Ok (r, st') /\
    r = VRef lr /\
    read_attr (heap st') lr "bytes_" = Ok (VInt 32).
Proof.
  destruct (from_dict 1 (VRef 0)
              (State [ODict [("type", VStr "string"); ("bytes_", VInt 1);
                             ("bytes", VInt 32)]] ∅))
    as [[r st']|e| |] eqn:E; try (vm_compute in E; discriminate).
  destruct (from_dict_bytes_key 0
              (State [ODict [("type", VStr "string"); ("bytes_", VInt 1);
                             ("bytes", VInt 32)]] ∅)
              0 [("type", VStr "string"); ("bytes_", VInt 1);
                 ("bytes", VInt 32)] "string" r st' eq_refl eq_refl
              (or_introl eq_refl) E)
    as (lr & b & e & d & H1 & H2 & H3 & _).
  exists r, st', lr. split; [reflexivity|]. split; [exact H1|].
  injection H2 as <-. exact H3.
Defined.

(** X15.  For the tag [struct] the instance's [fields] is a new list that
    holds the parse of every element of the mapping's [fields], in
    order and none left out, and the empty list when the mapping has no
    [fields] key. *)
Theorem from_dict_struct_fields f st l items r st' :
  heap st !! l = Some (ODict items) ->
  type_of items = VStr "struct" ->
  from_dict (S f) (VRef l) st = Ok (r, st') ->
  exists lr fl elems fields stm,
    r = VRef lr /\
    match dict_get "fields" items with
    | Some v => py_iter v st = Ok (elems, st)
    | None => elems = []
    end /\
    mapM (from_dict f) elems st = Ok (fields, stm) /\
    read_attr (heap st') lr "fields" = Ok (VRef fl) /\
    length (heap st) <= fl /\
    heap st' !! fl = Some (OList fields) /\
    length fields = length elems.
Proof.
  intros Hl Ht H.
  destruct (from_dict_Ok _ _ _ _ _ _ Hl H) as (st1 & Hc & Hr).
  apply register_alias_Ok in Hr as [-> _].
  rewrite Ht in Hc. unfold construct, dispatch in Hc.
  cbn [String.eqb Ascii.eqb Bool.eqb] in Hc.
  set (td := rest_of items) in *.
  assert (Htd : dict_get "fields" td = dict_get "fields" items).
  { unfold td, rest_of. rewrite !dict_get_del_ne by discriminate. reflexivity. }
  rewrite Htd in Hc.
  apply bind_Ok in Hc as (elems & st0 & Hit & Hc).
  assert (Hst0 : st0 = st /\
            match dict_get "fields" items with
            | Some v => py_iter v st = Ok (elems, st)
            | None => elems = []
            end).
  { destruct (dict_get "fields" items) as [v|].
    - assert (st0 = st).
      { unfold py_iter in Hit. destruct v; try discriminate.
        - injection Hit as _ <-. reflexivity.
        - unfold bind, get_state in Hit.
          destruct (heap st !! l0) as [[d|xs|c attrs]|]; try discriminate;
            injection Hit as _ <-; reflexivity. }
      subst st0. auto.
    - injection Hit as <- <-. auto. }
  destruct Hst0 as [-> Helems].
  apply bind_Ok in Hc as (fields & stm & Hmap & Hc).
  apply bind_Ok in Hc as (fl & st2 & Hal & Hc).
  injection Hal as <- <-.
  destruct (new_built StructType [] _ _ r st1 ltac:(discriminate) Hc)
    as (named & extra & Hb & -> & _ & _ & _ & _ & _ & Hown & _).
  cbn [heap] in *.
  pose proof (bind_args_keywords _ _ _ _ Hb) as Hnamed.
  cbn [init_sig map fst snd] in Hnamed.
  rewrite dict_get_filter_among in Hnamed by elem_in.
  rewrite dict_get_set_eq in Hnamed. cbn [default] in Hnamed.
  assert (Hgrow : length (heap st) <= length (heap stm)).
  { pose proof (preserves_mapM (length (heap st)) (from_dict f) elems
                  (fun v => preserves_from_dict _ f v) st (le_n _)) as Hp.
    rewrite Hmap in Hp. apply Hp. }
  assert (Hframe : forall l0, l0 < length (heap stm ++ [OList fields]) ->
            heap st1 !! l0 = (heap stm ++ [OList fields]) !! l0).
  { intros l0 Hl0.
    pose proof (preserves_new (length (heap stm ++ [OList fields])) StructType
                  [] (dict_set "fields" (VRef (length (heap stm))) td)
                  (State (heap stm ++ [OList fields]) (type_registry stm))
                  (le_n _)) as Hp.
    rewrite Hc in Hp. apply Hp. exact Hl0. }
  exists (length (heap stm ++ [OList fields])), (length (heap stm)),
    elems, fields, stm.
  split; [reflexivity|]. split; [exact Helems|]. split; [exact Hmap|].
  split.
  { rewrite (Hown "fields"); [rewrite Hnamed; reflexivity|simpl; auto|].
    intros _. rewrite Hnamed. discriminate. }
  split; [exact Hgrow|]. split.
  - rewrite Hframe by (rewrite length_app; simpl; lia).
    apply list_lookup_middle. reflexivity.
  - eapply mapM_length. exact Hmap.
Qed.

Lemma from_dict_struct_fields_witness :
  exists r st' lr fl,
    from_dict 1 (VRef 0) (State [ODict [("type", VStr "struct")]] ∅)
    = Ok (r, st') /\
    r = VRef lr /\
    read_attr (heap st') lr "fields" = Ok (VRef fl) /\
    heap st' !! fl = Some (OList []).
Proof.
  destruct (from_dict 1 (VRef 0) (State [ODict [("type", VStr "struct")]] ∅))
    as [[r st']|e| |] eqn:E; try (vm_compute in E; discriminate).
  destruct (from_dict_struct_fields 0
              (State [ODict [("type", VStr "struct")]] ∅) 0
              [("type", VStr "struct")] r st' eq_refl eq_refl E)
    as (lr & fl & elems & fields & stm & H1 & H2 & H3 & H4 & _ & H5 & H6).
  exists r, st', lr, fl. split; [reflexivity|]. split; [exact H1|].
  split; [exact H4|]. simpl in H2. subst elems.
  destruct fields; [exact H5|discriminate].
Defined.

(** X16.  For the tag [list] the instance's [values] is the parse of the
    mapping's [values]; for the tag [map] the mapping's [keys] is parsed
    first and its [values] after it, in the state the first parse left,
    and they become the instance's [keys] and [values]. *)
Theorem from_dict_container_types f st l items r st' :
  heap st !! l = Some (ODict items) ->
  from_dict (S f) (VRef l) st = Ok (r, st') ->
  (type_of items = VStr "list" ->
   exists lr vals v st1,
     r = VRef lr /\ dict_get "values" items = Some vals /\
     from_dict f vals st = Ok (v, st1) /\
     read_attr (heap st') lr "values" = Ok v) /\
  (type_of items = VStr "map" ->
   exists lr keys vals k st1 v st2,
     r = VRef lr /\ dict_get "keys" items = Some keys /\
     dict_get "values" items = Some vals /\
     from_dict f keys st = Ok (k, st1) /\
     from_dict f vals st1 = Ok (v, st2) /\
     read_attr (heap st') lr "keys" = Ok k /\
     read_attr (heap st') lr "values" = Ok v).
Proof.
  intros Hl H.
  destruct (from_dict_Ok _ _ _ _ _ _ Hl H) as (st1 & Hc & Hr).
  apply register_alias_Ok in Hr as [-> _].
  set (td := rest_of items) in *.
  assert (Htd : forall k, k <> "alias" -> k <> "type" ->
                          dict_get k td = dict_get k items).
  { intros k H1 H2. unfold td, rest_of.
    rewrite !dict_get_del_ne by congruence. reflexivity. }
  split; intros Ht; rewrite Ht in Hc; unfold construct, dispatch in Hc;
    cbn [String.eqb Ascii.eqb Bool.eqb] in Hc; unfold dict_has in Hc.
  - destruct (dict_get "values" td) as [vals|] eqn:Ev; [|discriminate].
    cbn [negb] in Hc. rewrite dict_pop_eq, Ev in Hc. cbn [default] in Hc.
    apply bind_Ok in Hc as (v & st2 & Hv & Hc).
    destruct (new_built ListType [v] _ _ r st1 ltac:(discriminate) Hc)
      as (named & extra & Hb & -> & _ & _ & _ & _ & _ & Hown & _).
    unfold bind_args in Hb. simpl in Hb.
    apply pbind_Ok in Hb as ([nm ex] & _ & Hb).
    apply pbind_Ok in Hb as (rest & _ & Hb). injection Hb as <- _.
    rewrite Htd in Ev by discriminate.
    exists (length (heap st2)), vals, v, st2.
    split; [reflexivity|]. split; [exact Ev|]. split; [exact Hv|].
    rewrite (Hown "values"); [reflexivity|simpl; auto|discriminate].
  - destruct (dict_get "keys" td) as [keys|] eqn:Ek; [|discriminate].
    destruct (dict_get "values" td) as [vals|] eqn:Ev; [|discriminate].
    cbn [negb orb] in Hc. rewrite dict_pop_eq, Ek in Hc. cbn [default] in Hc.
    apply bind_Ok in Hc as (k & st2 & Hk & Hc).
    rewrite dict_pop_eq in Hc. rewrite dict_get_del_ne in Hc by discriminate.
    rewrite Ev in Hc. cbn [default] in Hc.
    apply bind_Ok in Hc as (v & st3 & Hv & Hc).
    destruct (new_built MapType [k; v] _ _ r st1 ltac:(discriminate) Hc)
      as (named & extra & Hb & -> & _ & _ & _ & _ & _ & Hown & _).
    unfold bind_args in Hb. simpl in Hb.
    apply pbind_Ok in Hb as ([nm ex] & _ & Hb). injection Hb as <- _.
    rewrite Htd in Ek, Ev by discriminate.
    exists (length (heap st3)), keys, vals, k, st2, v, st3.
    split; [reflexivity|]. split; [exact Ek|]. split; [exact Ev|].
    split; [exact Hk|]. split; [exact Hv|].
    split; (rewrite Hown; [reflexivity|simpl; auto|discriminate]).
Qed.

Lemma from_dict_container_types_witness :
  exists r st' lr v,
    from_dict 2 (VRef 1)
      (State [ODict [("type", VStr "bool")];
              ODict [("type", VStr "list"); ("values", VRef 0)]] ∅)
    = Ok (r, st') /\
    r = VRef lr /\
    read_attr (heap st') lr "values" = Ok (VRef v) /\
    class_of (heap st') v = Some BoolType.
Proof.
  destruct (from_dict 2 (VRef 1)
              (State [ODict [("type", VStr "bool")];
                      ODict [("type", VStr "list"); ("values", VRef 0)]] ∅))
    as [[r st']|e| |] eqn:E; try (vm_compute in E; discriminate).
  destruct (proj1 (from_dict_container_types 1
                     (State [ODict [("type", VStr "bool")];
                             ODict [("type", VStr "list"); ("values", VRef 0)]]
                        ∅)
                     1 [("type", VStr "list"); ("values", VRef 0)] r st'
                     eq_refl E) eq_refl)
    as (lr & vals & v & st1 & H1 & H2 & H3 & H4).
  vm_compute in E. injection E as E1 E2. subst r st'.
  injection H1 as <-.
  do 2 eexists. exists 4, 2. split; [reflexivity|]. repeat split.
Defined.

(** X17.  A mapping for a tag that nests no type (null, bool, int,
    float, string, bytes, enum, or a reference to an alias) that has the
    keys its tag requires, no key [self] or [type_], and an [alias] that
    is absent, [None] or a string, is parsed: [from_dict] returns a new
    instance, whatever the other keys are, and the registry changes only
    by the binding of a non-empty alias. *)
Theorem from_dict_scalar_returns f st l items s :
  heap st !! l = Some (ODict items) ->
  type_of items = VStr s ->
  scalar_tag s = true ->
  (forall k, In k (required_keys s) -> dict_has k items = true) ->
  dict_has "self" items = false ->
  dict_has "type_" items = false ->
  plain_alias (alias_of items) ->
  exists st',
    from_dict (S f) (VRef l) st = Ok (VRef (length (heap st)), st') /\
    type_registry st' =
      type_registry (after_alias (alias_of items) (length (heap st)) st).
Proof.
  intros Hl Ht Hsc Hreq Hself Htype Hal.
  rewrite (from_dict_unfold f st l items Hl). rewrite Ht. unfold construct.
  assert (Hnone : forall k, dict_has k items = false -> dict_get k items = None).
  { intros k. unfold dict_has. destruct (dict_get k items); [discriminate|auto]. }
  destruct (scalar_dispatch (from_dict f) s (rest_of items) st Hsc)
    as (st1 & Hd & HR).
  - intros k Hk. destruct (required_keys_plain s k Hk) as [H1 H2].
    rewrite rest_has by assumption. apply Hreq, Hk.
  - unfold rest_of. rewrite !dict_get_del_ne by discriminate. auto.
  - unfold rest_of. rewrite !dict_get_del_ne by discriminate. auto.
  - apply rest_no_alias.
  - unfold bind at 1. rewrite Hd. unfold bind at 1.
    rewrite (register_alias_plain _ _ _ Hal). eexists. split; [reflexivity|].
    unfold after_alias. destruct (alias_of items); try exact HR.
    destruct (String.eqb s0 ""); [exact HR|]. simpl. rewrite HR. reflexivity.
Qed.

Lemma from_dict_scalar_returns_witness :
  exists st',
    from_dict 1 (VRef 0)
      (State [ODict [("type", VStr "int"); ("bits", VInt 8);
                     ("alias", VStr "byte"); ("unit", VStr "day")]] ∅)
    = Ok (VRef 1, st') /\
    type_registry st' = {[KStr "byte" := 1]}.
Proof.
  apply (from_dict_scalar_returns 0
           (State [ODict [("type", VStr "int"); ("bits", VInt 8);
                          ("alias", VStr "byte"); ("unit", VStr "day")]] ∅)
           0 [("type", VStr "int"); ("bits", VInt 8);
              ("alias", VStr "byte"); ("unit", VStr "day")]
           "int" eq_refl eq_refl eq_refl).
  - intros k [<-|[]]. reflexivity.
  - reflexivity.
  - reflexivity.
  - exact I.
Defined.

(** X18.  Two calls of a subclass constructor with the same arguments,
    one after the other, build two distinct objects that compare equal
    with [==], provided both calls return (so no alias is registered by
    them), the keywords are distinct as in any call, and, for the classes
    that compare their own attribute with a plain [==] (struct, enum,
    union, proxy), the argument stored there is an atom or a list. *)
Theorem equal_arguments_equal_instances f c pos kw st r1 st1 r2 st2 named extra :
  c <> RecapType ->
  NoDup (map fst kw) ->
  bind_args (init_sig c) pos kw = Ok (named, extra) ->
  (own_tuple c = false ->
   forall x, In x (own_fields c) -> comparable (heap st) (arg x named)) ->
  new c pos kw st = Ok (r1, st1) ->
  new c pos kw st1 = Ok (r2, st2) ->
  r1 <> r2 /\ py_eq (S (S (S f))) (heap st2) r1 r2 = Ok true.
Proof.
  intros Hc Hnd Hb Hcmp H1 H2.
  destruct (new_built c pos kw st r1 st1 Hc H1)
    as (named1 & extra1 & Hb1 & -> & Hcl1 & Ht1 & Hl1 & Hd1 & Ha1 & Hown1 &
        Hs1 & He1 & Hx1).
  destruct (new_built c pos kw st1 r2 st2 Hc H2)
    as (named2 & extra2 & Hb2 & -> & Hcl2 & Ht2 & Hl2 & Hd2 & Ha2 & Hown2 &
        Hs2 & He2 & Hx2).
  rewrite Hb in Hb1, Hb2. injection Hb1 as <- <-. injection Hb2 as <- <-.
  set (s1 := length (heap st)) in *. set (s2 := length (heap st1)) in *.
  pose proof (preserves_new s1 c pos kw st (le_n _)) as P1.
  rewrite H1 in P1. destruct P1 as [L1 F1].
  pose proof (preserves_new s2 c pos kw st1 (le_n _)) as P2.
  rewrite H2 in P2. destruct P2 as [L2 F2].
  assert (Hs1lt : s1 < s2).
  { unfold class_of in Hcl1.
    destruct (heap st1 !! s1) eqn:E; [|discriminate].
    eapply lookup_lt_Some. exact E. }
  assert (Hx1lt : S s1 < s2) by (eapply lookup_lt_Some; exact Hx1).
  split; [intros Heq; injection Heq as Heq; lia|].
  destruct (class_of_inst _ _ _ Hcl1) as [attrs1 Hi1].
  destruct (class_of_inst _ _ _ Hcl2) as [attrs2 Hi2].
  assert (Hi1' : heap st2 !! s1 = Some (OInst c attrs1))
    by (rewrite F2 by exact Hs1lt; exact Hi1).
  assert (G1 : forall n v, read_attr (heap st1) s1 n = Ok v ->
                           dict_get n attrs1 = Some v).
  { intros n v. apply (read_attr_get _ _ c). exact Hi1. }
  assert (G2 : forall n v, read_attr (heap st2) s2 n = Ok v ->
                           dict_get n attrs2 = Some v).
  { intros n v. apply (read_attr_get _ _ c). exact Hi2. }
  rewrite (py_eq_instances (S (S f)) (heap st2) s1 s2 c c attrs1 attrs2 Hi1' Hi2).
  apply (inst_eq_true (S (S f)) (heap st2) s1 s2 c attrs1 attrs2 Hi1' Hi2).
  assert (Hsame : forall a, item_eq (py_eq (S (S f)) (heap st2)) a a = Ok true).
  { intros a. unfold item_eq. rewrite bool_decide_eq_true_2 by reflexivity.
    reflexivity. }
  split.
  - unfold fields_equal, base_fields.
    repeat (apply List.Forall_cons); [| | | | |apply List.Forall_nil].
    + eexists _, _. split; [apply G1, Ht1|]. split; [apply G2, Ht2|apply Hsame].
    + eexists _, _. split; [apply G1, Hl1|]. split; [apply G2, Hl2|apply Hsame].
    + eexists _, _. split; [apply G1, Ha1|]. split; [apply G2, Ha2|apply Hsame].
    + eexists _, _. split; [apply G1, Hd1|]. split; [apply G2, Hd2|apply Hsame].
    + eexists _, _. split; [apply G1, He1|]. split; [apply G2, He2|].
      unfold item_eq. rewrite bool_decide_eq_false_2
        by (intros Heq; injection Heq as Heq; lia).
      apply (py_eq_dicts (S f) (heap st2) (S s1) (S s2) (leftover c kw)).
      * rewrite F2 by exact Hx1lt. exact Hx1.
      * exact Hx2.
      * unfold leftover. apply filter_NoDup_keys. exact Hnd.
  - unfold fields_equal. apply Forall_forall. intros x Hx.
    apply list_elem_of_In in Hx.
    destruct (decide (c = StructType /\ arg x named = VNone)) as [[-> Hn]|Hns].
    + simpl in Hx. destruct Hx as [<-|[]].
      destruct (Hs1 eq_refl Hn) as [Hf1 Hq1].
      destruct (Hs2 eq_refl Hn) as [Hf2 Hq2].
      eexists _, _. split; [apply G1, Hf1|]. split; [apply G2, Hf2|].
      unfold own_cmp. cbn [own_tuple].
      apply (py_eq_lists (S f) (heap st2) _ _ []); [|exact Hq2].
      rewrite F2 by (eapply lookup_lt_Some; exact Hq1). exact Hq1.
    + assert (Hsx : c = StructType -> arg x named <> VNone).
      { intros Hcs Hn. apply Hns. auto. }
      eexists _, _. split; [apply G1, (Hown1 x Hx Hsx)|].
      split; [apply G2, (Hown2 x Hx Hsx)|].
      unfold own_cmp. destruct (own_tuple c) eqn:Eo; [apply Hsame|].
      apply py_eq_comparable.
      specialize (Hcmp eq_refl x Hx).
      destruct (arg x named) as [|b|z|s|l]; try exact I.
      destruct Hcmp as [xs Hl]. exists xs.
      assert (Hlt : l < s1) by (eapply lookup_lt_Some; exact Hl).
      rewrite F2 by lia. rewrite F1 by exact Hlt. exact Hl.
Qed.

Lemma equal_arguments_equal_instances_witness :
  match new EnumType [VRef 0] [("doc", VStr "suit"); ("unit", VStr "x")]
          (State [OList [VStr "A"; VStr "B"]] ∅) with
  | Ok (r1, st1) =>
      match new EnumType [VRef 0] [("doc", VStr "suit"); ("unit", VStr "x")]
              st1 with
      | Ok (r2, st2) => r1 <> r2 /\ py_eq 3 (heap st2) r1 r2 = Ok true
      | _ => False
      end
  | _ => False
  end.
Proof.
  destruct (new EnumType [VRef 0] [("doc", VStr "suit"); ("unit", VStr "x")]
              (State [OList [VStr "A"; VStr "B"]] ∅))
    as [[r1 st1]|e| |] eqn:E1; try (vm_compute in E1; discriminate).
  destruct (new EnumType [VRef 0] [("doc", VStr "suit"); ("unit", VStr "x")]
              st1)
    as [[r2 st2]|e| |] eqn:E2;
    try (vm_compute in E1; injection E1 as <- <-; vm_compute in E2;
         discriminate).
  apply (equal_arguments_equal_instances 0 EnumType [VRef 0]
           [("doc", VStr "suit"); ("unit", VStr "x")]
           (State [OList [VStr "A"; VStr "B"]] ∅) r1 st1 r2 st2
           [("symbols", VRef 0)] [("doc", VStr "suit"); ("unit", VStr "x")]).
  - discriminate.
  - repeat constructor; elem_out.
  - reflexivity.
  - intros _ x [<-|[]]. exists [VStr "A"; VStr "B"]. reflexivity.
  - exact E1.
  - exact E2.
Defined.

(** X19.  Resolving a Proxy that carries no overrides gives a type equal
    to the registered one.  On a well-formed store, with a budget above
    its size, for an unresolved Proxy whose [extra_attrs] is empty and
    whose alias is bound to an instance that is well built to depth [n]:
    [resolve] returns a new object, distinct from the registered one, and
    [==] between the two is true in both directions, in the state the
    call leaves (where the Proxy caches the result). *)
Theorem resolve_equals_target fuel n self st alias k t c e :
  wf_heap (heap st) = true -> length (heap st) < fuel ->
  read_attr (heap st) self "_resolved" = Ok VNone ->
  read_attr (heap st) self "alias" = Ok alias ->
  read_attr (heap st) self "extra_attrs" = Ok (VRef e) ->
  heap st !! e = Some (ODict []) ->
  hash_key (heap st) alias = Ok k ->
  type_registry st !! k = Some t ->
  class_of (heap st) t = Some c ->
  well_built n (heap st) (VRef t) = true ->
  exists r st',
    resolve fuel self st = Ok (r, st') /\
    r <> VRef t /\
    read_attr (heap st') self "_resolved" = Ok r /\
    forall f, n <= f ->
      py_eq (S f) (heap st') r (VRef t) = Ok true /\
      py_eq (S f) (heap st') (VRef t) r = Ok true.
Proof.
  intros Hwf Hfuel Hc Ha He Hd Hk Ht Hcl Hw.
  destruct (resolve_returns fuel self st alias k t c e Hwf Hfuel Hc Ha He Hd
              Hk Ht Hcl) as [st' Hr].
  exists (VRef (length (heap st))), st'. split; [exact Hr|].
  destruct (resolve_uncached fuel self st _ st' Hc Hr)
    as (alias' & k' & t' & memo' & h1 & ea & items &
        Ha' & Hk' & Ht' & Hcopy & Hres & Hea & Hitems & Ho & _ & Hself).
  rewrite Ha in Ha'. injection Ha' as <-.
  rewrite Hk in Hk'. injection Hk' as <-.
  rewrite Ht in Ht'. injection Ht' as <-.
  assert (Htl : t < length (heap st)).
  { unfold class_of in Hcl. destruct (heap st !! t) eqn:E; [|discriminate].
    eapply lookup_lt_Some. exact E. }
  assert (Hel : e < length (heap st)) by (eapply lookup_lt_Some; exact Hd).
  destruct (deepcopy_linked fuel (heap st) t _ memo' h1 Hwf Htl Hcopy)
    as (Hlink & Hcp & F).
  set (st2 := set_attr self "_resolved" (VRef (length (heap st)))
                (State h1 (type_registry st))) in *.
  pose proof (set_attr_same_but self "_resolved" (VRef (length (heap st)))
                (State h1 (type_registry st))) as Hsame.
  fold st2 in Hsame. cbn [heap] in Hsame.
  assert (Hst' : st' = st2).
  { rewrite (read_attr_same_but _ _ _ _ _ Hsame) in Hea by discriminate.
    unfold read_attr in Hea, He. rewrite (F self Hself) in Hea.
    rewrite He in Hea. injection Hea as <-.
    unfold items_of, bind, get_state in Hitems.
    pose proof (Hsame e) as Hse. rewrite (F e Hel), Hd in Hse.
    rewrite Hse in Hitems. injection Hitems as <-.
    simpl in Ho. injection Ho as <-. reflexivity. }
  subst st'. split; [intros Heq; injection Heq as Heq; lia|].
  split; [exact Hres|].
  intros f Hf.
  rewrite !(py_eq_same_but "_resolved" h1 (heap st2) resolved_not_compared
              Hsame).
  assert (Hw1 : well_built n h1 (VRef t) = true).
  { apply (well_built_frame (heap st) h1 Hwf F); [|exact Hw].
    simpl. apply Nat.ltb_lt. exact Htl. }
  split; apply (copy_equal memo' h1 Hlink n); try exact Hf.
  - right. auto.
  - left. auto.
Qed.

Lemma resolve_equals_target_witness :
  exists r st',
    resolve 8 5 point_state = Ok (r, st') /\
    r <> VRef 3 /\
    read_attr (heap st') 5 "_resolved" = Ok r /\
    forall f, 4 <= f ->
      py_eq (S f) (heap st') r (VRef 3) = Ok true /\
      py_eq (S f) (heap st') (VRef 3) r = Ok true.
Proof.
  apply (resolve_equals_target 8 4 5 point_state (VStr "point")
           (KStr "point") 3 StructType 6); try reflexivity.
  simpl. lia.
Defined.
